(** * Parallel weather analysis: the reduction core, embedded and verified

    The repository computes per-city temperature and precipitation
    statistics with four near-identical programs: a serial one, an OpenMP
    one, an MPI one and a CUDA one.  This development embeds the parts of
    those programs that reduce records into a [CityStats] aggregate, that
    assign files to workers, and that gather the per-worker results.

    Conventions of the embedding.
    - C [int] values are integers of [Z]; division is [Z.quot], as in C.
      Signed overflow is undefined in C, so the development speaks about
      executions in which no [int] overflows (files have far fewer than
      2^31 lines and there are at most 2000 of them).
    - C [double] and [float] values are IEEE 754 binary64 and binary32
      data, represented by [spec_float] with the operations of the
      Standard Library's [SpecFloat] (round to nearest, ties to even).
    - A text line is a [string]; a file is the list of the lines that
      successive [fgets] calls return, or nothing when [fopen] fails.
    - Arrays are lists, read with [!!] and updated with [alter]. *)

From Stdlib Require Import ZArith List Bool String Ascii Lia QArith Qabs DecimalString.
From Stdlib Require Import Floats.SpecFloat.
From stdpp Require Import base tactics list list_numbers.

Local Open Scope Z_scope.

(** ** IEEE 754 arithmetic used by the programs *)

Module IEEE.

(** C [double]: binary64. C [float]: binary32. *)
Definition double := spec_float.
Definition float := spec_float.

Definition is_nan (x : spec_float) : bool :=
  match x with S754_nan => true | _ => false end.

(** [<float.h>]: the largest finite value of each format. *)
Definition DBL_MAX : double := SFmax_float 53 1024.
Definition FLT_MAX : float := SFmax_float 24 128.

(** [x + y] at each type. *)
Definition dadd (x y : double) : double := SFadd 53 1024 x y.
Definition fadd (x y : float) : float := SFadd 24 128 x y.

(** [x < y]; false as soon as one operand is a NaN. *)
Definition flt (x y : spec_float) : bool := SFltb x y.
(** [x <= y]. *)
Definition fle (x y : spec_float) : bool := SFleb x y.

Definition fneg (x : spec_float) : spec_float := SFopp x.

(** The conversions [(double) x] and [(float) x]: the value is rounded
    to the target format (exactly, when widening). *)
Definition to_double (x : float) : double :=
  match x with
  | S754_finite s m e => binary_round 53 1024 s m e
  | _ => x
  end.

Definition to_float (x : double) : float :=
  match x with
  | S754_finite s m e => binary_round 24 128 s m e
  | _ => x
  end.

(** Integers as floating-point values (for writing examples). *)
Definition float_of_Z (z : Z) : float := binary_normalize 24 128 z 0 false.
Definition double_of_Z (z : Z) : double := binary_normalize 53 1024 z 0 false.

(** [fminf] and [fmaxf] of the CUDA math library: a NaN argument is
    treated as missing data, otherwise the smaller (larger) argument is
    returned, the negative zero counting as smaller than the positive
    one. *)
Definition fminf (x y : float) : float :=
  match SFcompare x y with
  | Some Lt => x
  | Some Gt => y
  | Some Eq => match x with S754_zero true => x | _ => y end
  | None => if is_nan x then y else x
  end.

Definition fmaxf (x y : float) : float :=
  match SFcompare x y with
  | Some Gt => x
  | Some Lt => y
  | Some Eq => match x with S754_zero false => x | _ => y end
  | None => if is_nan x then y else x
  end.

(** A datum of the binary32 format: the mantissa is normalised for its
    exponent, and the exponent is in range. *)
Definition is_float (x : spec_float) : bool := valid_binary 24 128 x.
Definition is_double (x : spec_float) : bool := valid_binary 53 1024 x.

(** *** Order keys

    [SFcompare] orders two non-NaN data by sign, then exponent, then
    mantissa.  [nkey] maps a datum to a triple of integers whose
    lexicographic order is that order; [zrank] separates the two
    zeros. *)
Definition nkey (x : spec_float) : Z * Z * Z :=
  match x with
  | S754_infinity true => (-2, 0, 0)
  | S754_finite true m e => (-1, - e, Zneg m)
  | S754_zero _ => (0, 0, 0)
  | S754_finite false m e => (1, e, Zpos m)
  | S754_infinity false => (2, 0, 0)
  | S754_nan => (3, 0, 0)
  end.

Definition zrank (x : spec_float) : Z :=
  match x with S754_zero true => -1 | _ => 0 end.

Definition lex3 (a b : Z * Z * Z) : comparison :=
  match a.1.1 ?= b.1.1 with
  | Eq => match a.1.2 ?= b.1.2 with
          | Eq => a.2 ?= b.2
          | c => c
          end
  | c => c
  end.

(** The order in which [fminf] picks: NaN is the greatest element. *)
Definition min_le (x y : spec_float) : bool :=
  match lex3 (nkey x) (nkey y) with
  | Lt => true
  | Gt => false
  | Eq => zrank x <=? zrank y
  end.

(** The order in which [fmaxf] picks: NaN is the least element. *)
Definition max_key (x : spec_float) : Z * Z * Z :=
  match x with S754_nan => (-3, 0, 0) | _ => nkey x end.

Definition max_le (x y : spec_float) : bool :=
  match lex3 (max_key x) (max_key y) with
  | Lt => true
  | Gt => false
  | Eq => zrank x <=? zrank y
  end.

End IEEE.

Import IEEE.

(** ** The C library routines the parsers call *)

Module CLib.

Definition code (c : ascii) : Z := Z.of_nat (nat_of_ascii c).

(** [isspace] in the C locale: space, and the controls 9 to 13. *)
Definition isspace (c : ascii) : bool :=
  (code c =? 32) || ((9 <=? code c) && (code c <=? 13)).

Definition digit_of (c : ascii) : option Z :=
  if (48 <=? code c) && (code c <=? 57) then Some (code c - 48) else None.

Fixpoint skip_space (s : string) : string :=
  match s with
  | String c r => if isspace c then skip_space r else s
  | EmptyString => s
  end.

(** The value of the longest prefix of decimal digits of [s], continuing
    the value [acc]; also returns how many digits were read and the rest
    of the text. *)
Fixpoint read_digits (s : string) (acc : Z) (n : nat) : Z * nat * string :=
  match s with
  | String c r =>
      match digit_of c with
      | Some d => read_digits r (10 * acc + d) (S n)
      | None => (acc, n, s)
      end
  | EmptyString => (acc, n, s)
  end.

(** [atoi]: optional white space, optional sign, decimal digits. *)
Definition atoi (s : string) : Z :=
  match skip_space s with
  | String "-"%char r => - (read_digits r 0 0).1.1
  | String "+"%char r => (read_digits r 0 0).1.1
  | r => (read_digits r 0 0).1.1
  end.

Definition lower (c : ascii) : ascii :=
  if (65 <=? code c) && (code c <=? 90)
  then ascii_of_nat (nat_of_ascii c + 32) else c.

Fixpoint lower_string (s : string) : string :=
  match s with
  | String c r => String (lower c) (lower_string r)
  | EmptyString => EmptyString
  end.

(** [atof] on the texts the examples use: optional white space, optional
    sign, then [nan], [inf], or decimal digits with an optional
    fraction (no exponent part, fewer than 16 significant digits, so
    that the quotient below is the correctly rounded value).  A text
    with no number at its start converts to zero, as in C. *)
Definition atof_unsigned (s : string) : double :=
  if String.prefix "nan"%string (lower_string s) then S754_nan
  else if String.prefix "inf"%string (lower_string s) then S754_infinity false
  else
    let '(ip, _, r) := read_digits s 0 0 in
    match r with
    | String "."%char f =>
        let '(m, k, _) := read_digits f ip 0 in
        SFdiv 53 1024 (double_of_Z m) (double_of_Z (10 ^ Z.of_nat k))
    | _ => double_of_Z ip
    end.

Definition atof (s : string) : double :=
  match skip_space s with
  | String "-"%char r => fneg (atof_unsigned r)
  | String "+"%char r => atof_unsigned r
  | r => atof_unsigned r
  end.

(** [strchr s c]: the text from the first occurrence of [c] on. *)
Fixpoint strchr (s : string) (c : ascii) : option string :=
  match s with
  | String d r => if Ascii.eqb d c then Some s else strchr r c
  | EmptyString => None
  end.

(** The distance [end - start] when [end = strchr start c]. *)
Fixpoint offset_of (s : string) (c : ascii) : option nat :=
  match s with
  | String d r => if Ascii.eqb d c then Some O else S <$> offset_of r c
  | EmptyString => None
  end.

Definition newline : ascii := ascii_of_nat 10.
End CLib.

(** ** The record parsers shared by the four programs *)

Module Parse.
Import CLib.

(** [get_field]: the loop advances [start] past [field_num] commas and
    gives the empty text when there are too few of them. *)
Fixpoint skip_fields (field_num : nat) (start : string) : option string :=
  match field_num with
  | O => Some start
  | S n =>
      match strchr start ","%char with
      | None => None
      | Some (String _ r) => skip_fields n r
      | Some EmptyString => None
      end
  end.

Definition get_field (line : string) (field_num : nat) (buf_size : nat) : string :=
  match skip_fields field_num line with
  | None => EmptyString
  | Some start =>
      let len :=
        match offset_of start ","%char with
        | Some n => n
        | None =>
            match offset_of start newline with
            | Some n => n
            | None => String.length start
            end
        end in
      let len := if (buf_size <=? len)%nat then (buf_size - 1)%nat else len in
      substring 0 len start
  end.

(** [field_buf[0] != '\0'] *)
Definition present (field_buf : string) : bool :=
  match field_buf with EmptyString => false | _ => true end.

(** [get_month] of the serial, OpenMP and CUDA programs. *)
Definition get_month (date : string) : Z :=
  if (String.length date <? 7)%nat then -1
  else
    match get 5 date, get 6 date with
    | Some c5, Some c6 => atoi (String c5 (String c6 EmptyString)) - 1
    | _, _ => -1
    end.

(** [get_month] of the MPI program, which also range-checks. *)
Definition get_month_mpi (date : string) : Z :=
  if (String.length date <? 7)%nat then -1
  else
    match get 5 date, get 6 date with
    | Some c5, Some c6 =>
        let month := atoi (String c5 (String c6 EmptyString)) - 1 in
        if (month <? 0) || (month >? 11) then -1 else month
    | _, _ => -1
    end.
End Parse.

(** ** The aggregate of one city *)

Record CityStats := {
  name : string;
  temp_sum : double;
  temp_min : double;
  temp_max : double;
  precip_sum : double;
  temp_count : Z;
  precip_count : Z;
  record_count : Z;
  monthly_temp_sum : list double;
  monthly_temp_count : list Z
}.

(** A file as the programs see it: [None] when [fopen] fails, otherwise
    the lines that successive [fgets] calls return, the header first. *)
Definition file := option (list string).

(** The name that the serial and the CUDA program store in a city:
    [strncpy(city->name, city_name, MAX_NAME - 1)] and the closing zero
    at [city->name[MAX_NAME - 1]], with [MAX_NAME] 128, keep the first
    127 characters of [city_name]. *)
Definition copied_name (city_name : string) : string := substring 0 127 city_name.

(** ** The CPU reduction: serial, OpenMP and MPI programs *)

Module CPU.
Import Parse.

Definition dzero : double := S754_zero false.

(** The assignments that open [process_city_file]: all statistics are
    reset, the name is kept. *)
Definition reset (city : CityStats) : CityStats :=
  {| name := name city;
     temp_sum := dzero;
     temp_min := DBL_MAX;
     temp_max := fneg DBL_MAX;
     precip_sum := dzero;
     temp_count := 0;
     precip_count := 0;
     record_count := 0;
     monthly_temp_sum := replicate 12 dzero;
     monthly_temp_count := replicate 12 0 |}.

Section Loop.
(** [atof] is the C library's; the programs are embedded for any
    conversion function.  [month_of] is the program's [get_month]. *)
Variable atof : string -> double.
Variable month_of : string -> Z.

(** The statements under [if (field_buf[0] != '\0')] for the average
    temperature. *)
Definition add_temp (city : CityStats) (month : Z) (temp : double) : CityStats :=
  let in_year := (0 <=? month) && (month <? 12) in
  {| name := name city;
     temp_sum := dadd (temp_sum city) temp;
     temp_min := if flt temp (temp_min city) then temp else temp_min city;
     temp_max := if flt (temp_max city) temp then temp else temp_max city;
     precip_sum := precip_sum city;
     temp_count := temp_count city + 1;
     precip_count := precip_count city;
     record_count := record_count city;
     monthly_temp_sum :=
       if in_year
       then alter (fun s => dadd s temp) (Z.to_nat month) (monthly_temp_sum city)
       else monthly_temp_sum city;
     monthly_temp_count :=
       if in_year
       then alter (fun c => c + 1) (Z.to_nat month) (monthly_temp_count city)
       else monthly_temp_count city |}.

(** The statements under [if (field_buf[0] != '\0')] for the
    precipitation. *)
Definition add_precip (city : CityStats) (precip : double) : CityStats :=
  {| name := name city;
     temp_sum := temp_sum city;
     temp_min := temp_min city;
     temp_max := temp_max city;
     precip_sum := dadd (precip_sum city) precip;
     temp_count := temp_count city;
     precip_count := precip_count city + 1;
     record_count := record_count city;
     monthly_temp_sum := monthly_temp_sum city;
     monthly_temp_count := monthly_temp_count city |}.

Definition count_record (city : CityStats) : CityStats :=
  {| name := name city;
     temp_sum := temp_sum city;
     temp_min := temp_min city;
     temp_max := temp_max city;
     precip_sum := precip_sum city;
     temp_count := temp_count city;
     precip_count := precip_count city;
     record_count := record_count city + 1;
     monthly_temp_sum := monthly_temp_sum city;
     monthly_temp_count := monthly_temp_count city |}.

(** One iteration of [while (fgets(line, MAX_LINE, fp))]. *)
Definition process_line (city : CityStats) (line : string) : CityStats :=
  let city := count_record city in
  let date := get_field line 2 32 in
  let month := month_of date in
  let field_buf := get_field line 4 64 in
  let city :=
    if present field_buf then add_temp city month (atof field_buf) else city in
  let field_buf := get_field line 7 64 in
  if present field_buf then add_precip city (atof field_buf) else city.

(** The whole loop: the local reduction of one file's records. *)
Definition reduce_lines (city : CityStats) (lines : list string) : CityStats :=
  fold_left process_line lines city.

(** [process_city_file(filepath, city)] of the OpenMP and MPI
    programs.  [city] is the slot the caller passes, with whatever
    it holds. *)
Definition process_city_file (fp : file) (city : CityStats) : CityStats :=
  match fp with
  | None => city
  | Some lines =>
      let city := reset city in
      match lines with
      | [] => city
      | _header :: records => reduce_lines city records
      end
  end.
End Loop.
End CPU.

(** *** The serial program

    [process_city_file(filepath, city_name)] writes [cities[city_count]]
    and increments [city_count] when the file had a header.  The state is
    the list of the first [city_count] entries of [cities]. *)
Module Serial.
Definition blank (city_name : string) : CityStats :=
  {| name := city_name; temp_sum := CPU.dzero; temp_min := CPU.dzero;
     temp_max := CPU.dzero; precip_sum := CPU.dzero; temp_count := 0;
     precip_count := 0; record_count := 0;
     monthly_temp_sum := []; monthly_temp_count := [] |}.

Definition process_city_file (atof : string -> double)
    (fp : file) (city_name : string) (cities : list CityStats) : list CityStats :=
  match fp with
  | None => cities
  | Some [] => cities
  | Some (_header :: records) =>
      cities ++ [CPU.reduce_lines atof Parse.get_month
                   (CPU.reset (blank (copied_name city_name))) records]
  end.

End Serial.

(** *** The OpenMP program

    [main] allocates [local_cities] and runs, for every [i], the body
    [strncpy(local_cities[i].name, ...); process_city_file(file_paths[i],
    &local_cities[i])].  The iterations are run in the order the schedule
    picks. *)
Module OpenMP.
Definition process_city_file (atof : string -> double) :=
  CPU.process_city_file atof Parse.get_month.

(** [strncpy(local_cities[i].name, city_names[i], MAX_NAME)]: [n] is a
    row of [city_names], fewer than [MAX_NAME] characters closed by a
    zero, which is copied whole. *)
Definition set_name (city : CityStats) (n : string) : CityStats :=
  {| name := n; temp_sum := temp_sum city; temp_min := temp_min city;
     temp_max := temp_max city; precip_sum := precip_sum city;
     temp_count := temp_count city; precip_count := precip_count city;
     record_count := record_count city;
     monthly_temp_sum := monthly_temp_sum city;
     monthly_temp_count := monthly_temp_count city |}.

Definition iteration (atof : string -> double)
    (file_paths : list file) (city_names : list string)
    (local_cities : list CityStats) (i : nat) : list CityStats :=
  match file_paths !! i, city_names !! i with
  | Some fp, Some n =>
      alter (fun slot => process_city_file atof fp (set_name slot n)) i local_cities
  | _, _ => local_cities
  end.

(** [schedule] lists the iterations in the order in which they run;
    [local_cities] is the freshly allocated array. *)
Definition parallel_for (atof : string -> double)
    (file_paths : list file) (city_names : list string)
    (schedule : list nat) (local_cities : list CityStats) : list CityStats :=
  fold_left (iteration atof file_paths city_names) schedule local_cities.
End OpenMP.

(** *** The MPI program: assignment of files, local work, gather *)

Module MPI.
Definition process_city_file (atof : string -> double) :=
  CPU.process_city_file atof Parse.get_month_mpi.

(** [for (int i = rank; i < num_files; i += size)
      my_file_indices[my_count++] = i;] *)
Fixpoint cyclic_loop (fuel : nat) (i num_files size : Z)
    (my_file_indices : list Z) : list Z :=
  match fuel with
  | O => my_file_indices
  | S fuel =>
      if i <? num_files
      then cyclic_loop fuel (i + size) num_files size (my_file_indices ++ [i])
      else my_file_indices
  end.

(** [for (int i = my_start; i < my_end && i < num_files; i++)
      my_file_indices[my_count++] = i;] *)
Fixpoint block_loop (fuel : nat) (i my_end num_files : Z)
    (my_file_indices : list Z) : list Z :=
  match fuel with
  | O => my_file_indices
  | S fuel =>
      if (i <? my_end) && (i <? num_files)
      then block_loop fuel (i + 1) my_end num_files (my_file_indices ++ [i])
      else my_file_indices
  end.

(** The indices of [my_file_indices[0 .. my_count)] that [main] computes
    on process [rank] of [size].  Both loops run at most [num_files]
    times. *)
Definition my_file_indices (dist_mode : string) (rank size num_files : Z) : list Z :=
  if String.eqb dist_mode "cyclic" then
    cyclic_loop (Z.to_nat num_files) rank num_files size []
  else
    let files_per_proc := Z.quot (num_files + size - 1) size in
    let my_start := rank * files_per_proc in
    let my_end := my_start + files_per_proc in
    let my_end := if my_end >? num_files then num_files else my_end in
    block_loop (Z.to_nat num_files) my_start my_end num_files [].

(** The local work of one process: entry [i] of [local_results] is the
    reduction of file [my_file_indices[i]]. [slots] is the allocated,
    not yet written, [local_results]. *)
Definition local_work (atof : string -> double)
    (file_paths : list file) (city_names : list string)
    (indices : list Z) (slots : list CityStats) : list CityStats :=
  zip_with (fun file_idx slot =>
              match file_paths !! Z.to_nat file_idx, city_names !! Z.to_nat file_idx with
              | Some fp, Some n => process_city_file atof fp (OpenMP.set_name slot n)
              | _, _ => slot
              end) indices slots.

(** [for (int i = 0; i < size; i++) total_cities += all_counts[i];] *)
Definition total_cities (all_counts : list Z) : Z :=
  fold_left Z.add all_counts 0.

(** [for (int i = 1; i < size; i++)
      displacements[i] = displacements[i-1] + all_counts[i-1];] *)
Fixpoint displacements_loop (fuel : nat) (i size : Z)
    (all_counts displacements : list Z) : list Z :=
  match fuel with
  | O => displacements
  | S fuel =>
      if i <? size then
        displacements_loop fuel (i + 1) size all_counts
          (<[Z.to_nat i := displacements !!! Z.to_nat (i - 1)
                           + all_counts !!! Z.to_nat (i - 1)]> displacements)
      else displacements
  end.

(** [displacements] on entry is the allocated array of [size] integers. *)
Definition compute_displacements (size : Z) (all_counts displacements : list Z) : list Z :=
  displacements_loop (Z.to_nat size) 1 size all_counts (<[0%nat := 0]> displacements).

(** Modelled from the MPI standard: [MPI_Gatherv] is the MPI library's.
    At the root, the [recvcounts[i]] items sent by process [i] are
    stored from position [displs[i]] of the receive buffer on.
    [arrival] lists the processes in the order in which their messages
    are stored. *)
Definition store_message {A} (recvbuf : list A) (displ count : Z)
    (sendbuf : list A) : list A :=
  list_inserts (Z.to_nat displ) (take (Z.to_nat count) sendbuf) recvbuf.

Definition MPI_Gatherv {A} (arrival : list nat) (sendbufs : list (list A))
    (recvcounts displs : list Z) (recvbuf : list A) : list A :=
  fold_left (fun buf src =>
               match sendbufs !! src, recvcounts !! src, displs !! src with
               | Some sendbuf, Some count, Some displ =>
                   store_message buf displ count sendbuf
               | _, _, _ => buf
               end) arrival recvbuf.

(** The gather of [main] at rank 0: the counts ([MPI_Gather] of every
    [my_count]), the displacements, then the results.  [displacements]
    and [all_results] are the arrays as allocated. *)
Definition gather {A} (arrival : list nat) (local_results : list (list A))
    (displacements : list Z) (all_results : list A) : list A :=
  let size := Z.of_nat (length local_results) in
  let all_counts := (fun l => Z.of_nat (length l)) <$> local_results in
  let displacements := compute_displacements size all_counts displacements in
  MPI_Gatherv arrival local_results all_counts displacements all_results.
End MPI.

(** ** The CUDA program *)

Module CUDA.
Definition MAX_RECORDS_PER_FILE : Z := 50000.
Definition BLOCK_SIZE : Z := 256.

Record WeatherRecord := {
  avg_temp : float;
  precipitation : float;
  month : Z;
  valid_temp : bool;
  valid_precip : bool
}.

Definition fzero : float := S754_zero false.

(** *** The kernel [process_weather_records]

    The shared arrays [sh_temp_sum[BLOCK_SIZE]], [sh_temp_min[..]], ...
    are kept as one list of [Slot]s: entry [tid] holds [sh_temp_sum[tid]],
    [sh_temp_min[tid]] and so on. *)
Record Slot := {
  sh_temp_sum : float;
  sh_temp_min : float;
  sh_temp_max : float;
  sh_temp_count : Z;
  sh_precip_sum : float;
  sh_precip_count : Z;
  sh_monthly_temp : list float;
  sh_monthly_count : list Z
}.

(** "Initialize shared memory" *)
Definition init_slot : Slot :=
  {| sh_temp_sum := fzero;
     sh_temp_min := FLT_MAX;
     sh_temp_max := fneg FLT_MAX;
     sh_temp_count := 0;
     sh_precip_sum := fzero;
     sh_precip_count := 0;
     sh_monthly_temp := replicate 12 fzero;
     sh_monthly_count := replicate 12 0 |}.

(** The body of [while (idx < num_records)] for one record. *)
Definition accumulate (p : Slot) (rec : WeatherRecord) : Slot :=
  let in_year := (0 <=? month rec) && (month rec <? 12) in
  let p :=
    if valid_temp rec then
      {| sh_temp_sum := fadd (sh_temp_sum p) (avg_temp rec);
         sh_temp_min := fminf (sh_temp_min p) (avg_temp rec);
         sh_temp_max := fmaxf (sh_temp_max p) (avg_temp rec);
         sh_temp_count := sh_temp_count p + 1;
         sh_precip_sum := sh_precip_sum p;
         sh_precip_count := sh_precip_count p;
         sh_monthly_temp :=
           if in_year
           then alter (fun s => fadd s (avg_temp rec)) (Z.to_nat (month rec)) (sh_monthly_temp p)
           else sh_monthly_temp p;
         sh_monthly_count :=
           if in_year
           then alter (fun c => c + 1) (Z.to_nat (month rec)) (sh_monthly_count p)
           else sh_monthly_count p |}
    else p in
  if valid_precip rec then
    {| sh_temp_sum := sh_temp_sum p;
       sh_temp_min := sh_temp_min p;
       sh_temp_max := sh_temp_max p;
       sh_temp_count := sh_temp_count p;
       sh_precip_sum := fadd (sh_precip_sum p) (precipitation rec);
       sh_precip_count := sh_precip_count p + 1;
       sh_monthly_temp := sh_monthly_temp p;
       sh_monthly_count := sh_monthly_count p |}
  else p.

(** [while (idx < num_records) { ...; idx += blockDim.x * gridDim.x; }] *)
Fixpoint thread_loop (fuel : nat) (records : list WeatherRecord)
    (num_records idx stride : Z) (p : Slot) : Slot :=
  match fuel with
  | O => p
  | S fuel =>
      if idx <? num_records then
        let p := match records !! Z.to_nat idx with
                 | Some rec => accumulate p rec
                 | None => p
                 end in
        thread_loop fuel records num_records (idx + stride) stride p
      else p
  end.

(** What thread [tid] of block [blockIdx] has in its slot at the first
    [__syncthreads()].  The loop runs at most [num_records] times. *)
Definition thread_partial (gridDim blockDim : Z) (records : list WeatherRecord)
    (num_records blockIdx tid : Z) : Slot :=
  thread_loop (Z.to_nat num_records) records num_records
    (blockIdx * blockDim + tid) (blockDim * gridDim) init_slot.

(** The statements under [if (tid < s)]: slot [tid] absorbs slot
    [tid + s].  This is the combine operation of the reduction. *)
Definition combine (a b : Slot) : Slot :=
  {| sh_temp_sum := fadd (sh_temp_sum a) (sh_temp_sum b);
     sh_temp_min := fminf (sh_temp_min a) (sh_temp_min b);
     sh_temp_max := fmaxf (sh_temp_max a) (sh_temp_max b);
     sh_temp_count := sh_temp_count a + sh_temp_count b;
     sh_precip_sum := fadd (sh_precip_sum a) (sh_precip_sum b);
     sh_precip_count := sh_precip_count a + sh_precip_count b;
     sh_monthly_temp := zip_with fadd (sh_monthly_temp a) (sh_monthly_temp b);
     sh_monthly_count := zip_with Z.add (sh_monthly_count a) (sh_monthly_count b) |}.

(** One round of the block-level reduction, between two barriers: every
    thread [tid < s] reads slots [tid] and [tid + s] and writes slot
    [tid].  The slots read at [tid + s] are not written in the round. *)
Definition reduce_step (s : Z) (sh : list Slot) : list Slot :=
  imap (fun tid a =>
          if Z.of_nat tid <? s then
            match sh !! (tid + Z.to_nat s)%nat with
            | Some b => combine a b
            | None => a
            end
          else a) sh.

(** [for (int s = blockDim.x / 2; s > 0; s >>= 1)] *)
Fixpoint reduce_loop (fuel : nat) (s : Z) (sh : list Slot) : list Slot :=
  match fuel with
  | O => sh
  | S fuel =>
      if s >? 0 then reduce_loop fuel (Z.shiftr s 1) (reduce_step s sh) else sh
  end.

Definition block_reduce (blockDim : Z) (sh : list Slot) : list Slot :=
  reduce_loop (Z.to_nat blockDim) (Z.quot blockDim 2) sh.

(** The shared memory of block [blockIdx] at the end of the reduction. *)
Definition block_shared (gridDim blockDim : Z) (records : list WeatherRecord)
    (num_records blockIdx : Z) : list Slot :=
  block_reduce blockDim
    (thread_partial gridDim blockDim records num_records blockIdx <$> seqZ 0 blockDim).

(** The kernel's output locations in device memory. *)
Record Outputs := {
  temp_sum_out : double;
  temp_min_out : double;
  temp_max_out : double;
  temp_count_out : Z;
  precip_sum_out : double;
  precip_count_out : Z;
  monthly_temp_sum_out : list double;
  monthly_temp_count_out : list Z
}.

(** "Thread 0 writes block result", when no other block writes in
    between.  [fminf] and [fmaxf] take and return [float]s, so the
    [double] read from device memory is converted on the way in and the
    result on the way out. *)
Definition merge (out : Outputs) (p : Slot) : Outputs :=
  {| temp_sum_out := dadd (temp_sum_out out) (to_double (sh_temp_sum p));
     temp_min_out := to_double (fminf (to_float (temp_min_out out)) (sh_temp_min p));
     temp_max_out := to_double (fmaxf (to_float (temp_max_out out)) (sh_temp_max p));
     temp_count_out := temp_count_out out + sh_temp_count p;
     precip_sum_out := dadd (precip_sum_out out) (to_double (sh_precip_sum p));
     precip_count_out := precip_count_out out + sh_precip_count p;
     monthly_temp_sum_out :=
       zip_with (fun o s => dadd o (to_double s)) (monthly_temp_sum_out out) (sh_monthly_temp p);
     monthly_temp_count_out :=
       zip_with Z.add (monthly_temp_count_out out) (sh_monthly_count p) |}.

(** The whole kernel for a launch [<<<gridDim, blockDim>>>], when the
    thread 0 of each block runs its final writes without interference,
    the blocks finishing in the order [finish_order]. *)
Definition process_weather_records (gridDim blockDim : Z) (finish_order : list Z)
    (records : list WeatherRecord) (num_records : Z) (out : Outputs) : Outputs :=
  fold_left (fun out blockIdx =>
               match block_shared gridDim blockDim records num_records blockIdx !! 0%nat with
               | Some p => merge out p
               | None => out
               end) finish_order out.

(** *** The final writes of thread 0, access by access

    The kernel's [atomicAdd]s are single indivisible accesses.  The two
    assignments to the locations [temp_min_out] and [temp_max_out], whose
    right-hand sides are [fminf] and [fmaxf] of the location's content and
    the block's value, are each a plain read of device memory followed by
    a plain write. *)
Inductive access :=
| AddTempSum
| ReadMin
| WriteMin
| ReadMax
| WriteMax
| AddTempCount
| AddPrecipSum
| AddPrecipCount
| AddMonthlySum (m : nat)
| AddMonthlyCount (m : nat).

(** The accesses of [if (tid == 0) { ... }] in program order. *)
Definition final_writes : list access :=
  [AddTempSum; ReadMin; WriteMin; ReadMax; WriteMax;
   AddTempCount; AddPrecipSum; AddPrecipCount]
  ++ flat_map (fun m => [AddMonthlySum m; AddMonthlyCount m]) (seq 0 12).

(** Thread 0 of a block during its final writes: the block's slot 0,
    the accesses still to do, and the values it holds in registers
    between a read and the write that follows. *)
Record Thread0 := {
  slot0 : Slot;
  todo : list access;
  min_reg : float;
  max_reg : float
}.

Definition start (p : Slot) : Thread0 :=
  {| slot0 := p; todo := final_writes; min_reg := fzero; max_reg := fzero |}.

Definition perform (a : access) (t : Thread0) (out : Outputs) : Thread0 * Outputs :=
  let p := slot0 t in
  let keep := t in
  match a with
  | AddTempSum =>
      (keep, {| temp_sum_out := dadd (temp_sum_out out) (to_double (sh_temp_sum p));
                temp_min_out := temp_min_out out; temp_max_out := temp_max_out out;
                temp_count_out := temp_count_out out;
                precip_sum_out := precip_sum_out out;
                precip_count_out := precip_count_out out;
                monthly_temp_sum_out := monthly_temp_sum_out out;
                monthly_temp_count_out := monthly_temp_count_out out |})
  | ReadMin =>
      ({| slot0 := p; todo := todo t;
          min_reg := fminf (to_float (temp_min_out out)) (sh_temp_min p);
          max_reg := max_reg t |}, out)
  | WriteMin =>
      (keep, {| temp_sum_out := temp_sum_out out;
                temp_min_out := to_double (min_reg t);
                temp_max_out := temp_max_out out;
                temp_count_out := temp_count_out out;
                precip_sum_out := precip_sum_out out;
                precip_count_out := precip_count_out out;
                monthly_temp_sum_out := monthly_temp_sum_out out;
                monthly_temp_count_out := monthly_temp_count_out out |})
  | ReadMax =>
      ({| slot0 := p; todo := todo t;
          min_reg := min_reg t;
          max_reg := fmaxf (to_float (temp_max_out out)) (sh_temp_max p) |}, out)
  | WriteMax =>
      (keep, {| temp_sum_out := temp_sum_out out;
                temp_min_out := temp_min_out out;
                temp_max_out := to_double (max_reg t);
                temp_count_out := temp_count_out out;
                precip_sum_out := precip_sum_out out;
                precip_count_out := precip_count_out out;
                monthly_temp_sum_out := monthly_temp_sum_out out;
                monthly_temp_count_out := monthly_temp_count_out out |})
  | AddTempCount =>
      (keep, {| temp_sum_out := temp_sum_out out;
                temp_min_out := temp_min_out out; temp_max_out := temp_max_out out;
                temp_count_out := temp_count_out out + sh_temp_count p;
                precip_sum_out := precip_sum_out out;
                precip_count_out := precip_count_out out;
                monthly_temp_sum_out := monthly_temp_sum_out out;
                monthly_temp_count_out := monthly_temp_count_out out |})
  | AddPrecipSum =>
      (keep, {| temp_sum_out := temp_sum_out out;
                temp_min_out := temp_min_out out; temp_max_out := temp_max_out out;
                temp_count_out := temp_count_out out;
                precip_sum_out := dadd (precip_sum_out out) (to_double (sh_precip_sum p));
                precip_count_out := precip_count_out out;
                monthly_temp_sum_out := monthly_temp_sum_out out;
                monthly_temp_count_out := monthly_temp_count_out out |})
  | AddPrecipCount =>
      (keep, {| temp_sum_out := temp_sum_out out;
                temp_min_out := temp_min_out out; temp_max_out := temp_max_out out;
                temp_count_out := temp_count_out out;
                precip_sum_out := precip_sum_out out;
                precip_count_out := precip_count_out out + sh_precip_count p;
                monthly_temp_sum_out := monthly_temp_sum_out out;
                monthly_temp_count_out := monthly_temp_count_out out |})
  | AddMonthlySum m =>
      (keep, {| temp_sum_out := temp_sum_out out;
                temp_min_out := temp_min_out out; temp_max_out := temp_max_out out;
                temp_count_out := temp_count_out out;
                precip_sum_out := precip_sum_out out;
                precip_count_out := precip_count_out out;
                monthly_temp_sum_out :=
                  match sh_monthly_temp p !! m with
                  | Some s => alter (fun o => dadd o (to_double s)) m (monthly_temp_sum_out out)
                  | None => monthly_temp_sum_out out
                  end;
                monthly_temp_count_out := monthly_temp_count_out out |})
  | AddMonthlyCount m =>
      (keep, {| temp_sum_out := temp_sum_out out;
                temp_min_out := temp_min_out out; temp_max_out := temp_max_out out;
                temp_count_out := temp_count_out out;
                precip_sum_out := precip_sum_out out;
                precip_count_out := precip_count_out out;
                monthly_temp_sum_out := monthly_temp_sum_out out;
                monthly_temp_count_out :=
                  match sh_monthly_count p !! m with
                  | Some c => alter (fun o => o + c) m (monthly_temp_count_out out)
                  | None => monthly_temp_count_out out
                  end |})
  end.

(** The blocks' thread 0s run concurrently: [schedule] names, access
    after access, the block whose thread 0 moves next. *)
Fixpoint interleave (schedule : list nat) (threads : list Thread0)
    (out : Outputs) : list Thread0 * Outputs :=
  match schedule with
  | [] => (threads, out)
  | b :: schedule =>
      match threads !! b with
      | Some t =>
          match todo t with
          | a :: rest =>
              let '(t', out') :=
                perform a {| slot0 := slot0 t; todo := rest;
                             min_reg := min_reg t; max_reg := max_reg t |} out in
              interleave schedule (<[b := t']> threads) out'
          | [] => interleave schedule threads out
          end
      | None => interleave schedule threads out
      end
  end.

(** Every thread 0 has done all its accesses. *)
Definition finished (threads : list Thread0) : bool :=
  forallb (fun t => match todo t with [] => true | _ => false end) threads.

(** *** The host function [process_city_file_cuda] *)

(** One iteration of the parsing loop: [rec] is [&h_records[num_records]],
    allocated and not initialised. *)
Definition parse_line (atof : string -> double) (rec : WeatherRecord)
    (line : string) : WeatherRecord :=
  let date := Parse.get_field line 2 32 in
  let temp_field := Parse.get_field line 4 64 in
  let precip_field := Parse.get_field line 7 64 in
  {| avg_temp :=
       if Parse.present temp_field then to_float (atof temp_field) else avg_temp rec;
     precipitation :=
       if Parse.present precip_field then to_float (atof precip_field)
       else precipitation rec;
     month := Parse.get_month date;
     valid_temp := Parse.present temp_field;
     valid_precip := Parse.present precip_field |}.

(** [while (fgets(line, MAX_LINE, fp) && num_records < MAX_RECORDS_PER_FILE)]:
    [allocated i] is what slot [i] of [h_records] holds after [malloc];
    the result is the written part of [h_records] and [num_records]. *)
Fixpoint read_records (atof : string -> double) (allocated : nat -> WeatherRecord)
    (lines : list string) (num_records : Z) (h_records : list WeatherRecord)
    : list WeatherRecord * Z :=
  match lines with
  | [] => (h_records, num_records)
  | line :: lines =>
      if num_records <? MAX_RECORDS_PER_FILE then
        read_records atof allocated lines (num_records + 1)
          (h_records ++ [parse_line atof (allocated (Z.to_nat num_records)) line])
      else (h_records, num_records)
  end.

(** "Initialize device memory" *)
Definition init_outputs : Outputs :=
  {| temp_sum_out := CPU.dzero;
     temp_min_out := DBL_MAX;
     temp_max_out := fneg DBL_MAX;
     temp_count_out := 0;
     precip_sum_out := CPU.dzero;
     precip_count_out := 0;
     monthly_temp_sum_out := replicate 12 CPU.dzero;
     monthly_temp_count_out := replicate 12 0 |}.

Definition num_blocks (num_records : Z) : Z :=
  let n := Z.quot (num_records + BLOCK_SIZE - 1) BLOCK_SIZE in
  if n >? 128 then 128 else n.

(** "Copy results back" *)
Definition city_of (city_name : string) (out : Outputs) (num_records : Z) : CityStats :=
  {| name := copied_name city_name;
     temp_sum := temp_sum_out out;
     temp_min := temp_min_out out;
     temp_max := temp_max_out out;
     precip_sum := precip_sum_out out;
     temp_count := temp_count_out out;
     precip_count := precip_count_out out;
     record_count := num_records;
     monthly_temp_sum := monthly_temp_sum_out out;
     monthly_temp_count := monthly_temp_count_out out |}.

(** [process_city_file_cuda(filepath, city_name)], on the list of the
    first [city_count] entries of [cities].  [finish_order n] is the
    order in which the [n] blocks of the launch finish. *)
Definition process_city_file_cuda (atof : string -> double)
    (allocated : nat -> WeatherRecord) (finish_order : Z -> list Z)
    (fp : file) (city_name : string) (cities : list CityStats) : list CityStats :=
  match fp with
  | None => cities
  | Some [] => cities
  | Some (_header :: lines) =>
      let '(h_records, num_records) := read_records atof allocated lines 0 [] in
      if num_records =? 0 then cities
      else
        let n := num_blocks num_records in
        let out := process_weather_records n BLOCK_SIZE (finish_order n)
                     h_records num_records init_outputs in
        cities ++ [city_of city_name out num_records]
  end.
End CUDA.

(** ** Definitions used to state and prove the properties *)

(** Selection of the lesser or greater of two values along integer keys:
    [k] gives the main key, compared lexicographically, and [r] breaks
    ties. *)
Module KeyOrder.
Section Keys.
Context {A : Type} (k : A -> Z * Z * Z) (r : A -> Z).

Definition kle (x y : A) : bool :=
  match lex3 (k x) (k y) with
  | Lt => true
  | Gt => false
  | Eq => r x <=? r y
  end.

Definition kleP (x y : A) : Prop :=
  let a := k x in
  let b := k y in
  a.1.1 < b.1.1 \/
  (a.1.1 = b.1.1 /\
   (a.1.2 < b.1.2 \/
    (a.1.2 = b.1.2 /\ (a.2 < b.2 \/ (a.2 = b.2 /\ r x <= r y))))).

Definition kmin (x y : A) : A := if kle x y then x else y.
Definition kmax (x y : A) : A := if kle x y then y else x.
End Keys.
End KeyOrder.

(** The fields of a kernel slot that the reduction computes exactly: the
    counts and the extrema.  The sums are rounded at every addition. *)
Module Exact.
Import CUDA.

Record t := {
  count : Z;
  min : float;
  max : float;
  precip_count : Z;
  monthly_count : list Z
}.

Definition of_slot (p : Slot) : t :=
  {| count := sh_temp_count p;
     min := sh_temp_min p;
     max := sh_temp_max p;
     precip_count := sh_precip_count p;
     monthly_count := sh_monthly_count p |}.

Definition of_outputs (out : Outputs) : t :=
  {| count := temp_count_out out;
     min := temp_min_out out;
     max := temp_max_out out;
     precip_count := precip_count_out out;
     monthly_count := monthly_temp_count_out out |}.

(** What [combine] does on these fields. *)
Definition join (a b : t) : t :=
  {| count := count a + count b;
     min := fminf (min a) (min b);
     max := fmaxf (max a) (max b);
     precip_count := precip_count a + precip_count b;
     monthly_count := zip_with Z.add (monthly_count a) (monthly_count b) |}.

(** What one record adds; a record without temperature adds the NaN
    that [fminf] and [fmaxf] skip. *)
Definition of_record (r : WeatherRecord) : t :=
  {| count := if valid_temp r then 1 else 0;
     min := if valid_temp r then avg_temp r else S754_nan;
     max := if valid_temp r then avg_temp r else S754_nan;
     precip_count := if valid_precip r then 1 else 0;
     monthly_count :=
       if valid_temp r && ((0 <=? month r) && (month r <? 12))
       then <[Z.to_nat (month r) := 1]> (replicate 12 0)
       else replicate 12 0 |}.

(** The exact fields after the records [rs], from the initial slot. *)
Definition of_records (rs : list WeatherRecord) : t :=
  fold_left (fun e r => join e (of_record r)) rs (of_slot init_slot).

(** What thread 0 publishes of these fields, starting from the initial
    outputs. *)
Definition publish (e : t) : t :=
  {| count := count e;
     min := to_double (fminf (to_float DBL_MAX) (min e));
     max := to_double (fmaxf (to_float (fneg DBL_MAX)) (max e));
     precip_count := precip_count e;
     monthly_count := monthly_count e |}.

(** A slot as the kernel keeps it: twelve monthly counters, extrema
    that are [float] data. *)
Definition wf (p : Slot) : Prop :=
  length (sh_monthly_count p) = 12%nat /\
  is_float (sh_temp_min p) = true /\ is_float (sh_temp_max p) = true.

(** Slot [p] holds the exact fields of the records [rs]. *)
Definition holds (p : Slot) (rs : list WeatherRecord) : Prop :=
  wf p /\ of_slot p = of_records rs.

(** The temperature of a record that has one is a [float] datum. *)
Definition float_temp (r : WeatherRecord) : Prop :=
  valid_temp r = true -> is_float (avg_temp r) = true.
End Exact.

(** The records that a CUDA thread visits, and the records of a block. *)
Module Visit.
Import CUDA.

Definition visited (records : list WeatherRecord) (indices : list Z)
    : list WeatherRecord :=
  omap (fun i => records !! Z.to_nat i) indices.

Definition thread_indices (gridDim blockDim num_records blockIdx tid : Z) : list Z :=
  MPI.cyclic_loop (Z.to_nat num_records) (blockIdx * blockDim + tid) num_records
    (blockDim * gridDim) [].

Definition block_indices (gridDim blockDim num_records blockIdx : Z) : list Z :=
  seq 0 (Z.to_nat blockDim) ≫=
    (fun tid => thread_indices gridDim blockDim num_records blockIdx (Z.of_nat tid)).
End Visit.

(** ** Concrete inputs for the scenarios *)

Module Scenario.
Import CUDA.

(** A record with average temperature [t] degrees, in January, without
    precipitation. *)
Definition temperature (t : Z) : WeatherRecord :=
  {| avg_temp := float_of_Z t; precipitation := fzero; month := 0;
     valid_temp := true; valid_precip := false |}.

(** Scenario A: the records [10] for one worker, [20; 30] for the other. *)
Definition worker_1 : Slot := fold_left accumulate [temperature 10] init_slot.
Definition worker_2 : Slot :=
  fold_left accumulate [temperature 20; temperature 30] init_slot.

(** Scenario C: 300 records with temperatures 1, 2, ..., 300. *)
Definition records_300 : list WeatherRecord := temperature <$> seqZ 1 300.

(** Four records whose sum depends on the order of the additions:
    2^24, -2^24, 1, 0. *)
Definition cancelling : list WeatherRecord :=
  temperature <$> [16777216; -16777216; 1; 0].

(** Two blocks whose slots 0 hold the minima 5 and 3. *)
Definition block_of_5 : Slot := accumulate init_slot (temperature 5).
Definition block_of_3 : Slot := accumulate init_slot (temperature 3).

(** Block 0 reads the minimum location, block 1 then reads and writes
    it, block 0 writes last; both then finish their other accesses. *)
Definition racy_schedule : list nat :=
  [0; 0; 1; 1; 1; 0]%nat ++ replicate 29 0%nat ++ replicate 29 1%nat.

(** A slot that is the initial one but for a minimum of plus infinity. *)
Definition slot_with_infinite_min : Slot :=
  {| sh_temp_sum := fzero;
     sh_temp_min := S754_infinity false;
     sh_temp_max := fneg FLT_MAX;
     sh_temp_count := 0;
     sh_precip_sum := fzero;
     sh_precip_count := 0;
     sh_monthly_temp := replicate 12 fzero;
     sh_monthly_count := replicate 12 0 |}.
End Scenario.

(** The exact value of a finite datum, as a rational. *)
Module Tolerance.

End Tolerance.

(** Slots that the kernel can build: the initial slot, then [accumulate]
    and [combine]; with each slot, the records that went into it. *)
Module Produced.
Import CUDA.

Inductive produced : Slot -> list WeatherRecord -> Prop :=
| produced_init : produced init_slot []
| produced_accumulate p rs r :
    produced p rs -> produced (accumulate p r) (rs ++ [r])
| produced_combine a ra b rb :
    produced a ra -> produced b rb -> produced (combine a b) (ra ++ rb).

(** Twelve buckets, a minimum at most [FLT_MAX] and a maximum at least
    [-FLT_MAX], in the orders in which [fminf] and [fmaxf] pick (a NaN
    is neither). *)
Definition bounded_slot (p : Slot) : Prop :=
  length (sh_monthly_temp p) = 12%nat /\
  length (sh_monthly_count p) = 12%nat /\
  min_le (sh_temp_min p) FLT_MAX = true /\
  max_le (fneg FLT_MAX) (sh_temp_max p) = true.

(** Equal, or two zeros that differ in sign only. *)
Definition up_to_zero_sign (x y : float) : Prop :=
  x = y \/ exists s s', x = S754_zero s /\ y = S754_zero s'.

Definition sums_agree (p q : Slot) : Prop :=
  up_to_zero_sign (sh_temp_sum p) (sh_temp_sum q) /\
  up_to_zero_sign (sh_precip_sum p) (sh_precip_sum q) /\
  Forall2 up_to_zero_sign (sh_monthly_temp p) (sh_monthly_temp q).

Definition not_negative_zero (x : float) : Prop := x <> S754_zero true.

Definition no_negative_zero_sum (p : Slot) : Prop :=
  not_negative_zero (sh_temp_sum p) /\
  not_negative_zero (sh_precip_sum p) /\
  Forall not_negative_zero (sh_monthly_temp p).

(** A record with a temperature that is not a NaN. *)
Definition has_number (r : WeatherRecord) : Prop :=
  valid_temp r = true /\ is_nan (avg_temp r) = false.
End Produced.

(** The fields of a line that the programs read. *)
Module Lines.
Import Parse.

Definition date_field (line : string) : string := get_field line 2 32.
Definition temp_field (line : string) : string := get_field line 4 64.
Definition precip_field (line : string) : string := get_field line 7 64.

Definition has_temp (line : string) : bool := present (temp_field line).
Definition has_precip (line : string) : bool := present (precip_field line).

(** The lines with a non-empty temperature field whose conversion is
    not a NaN. *)
Definition has_number (atof : string -> double) (line : string) : Prop :=
  has_temp line = true /\ is_nan (atof (temp_field line)) = false.

Definition in_year (month : Z) : bool := (0 <=? month) && (month <? 12).

Definition eol : string := String CLib.newline EmptyString.

Definition header : string :=
  "station_id,city_name,date,season,avg_temp_c,min_temp_c,max_temp_c,precipitation_mm,snow_depth_mm"
  ++ eol.

(** Scenario B: three records, the second without average temperature. *)
Definition scenario_B : list string :=
  [ "41024,Riyadh,1983-01-01,Winter,14.5,9.0,20.1,0.0," ++ eol;
    "41024,Riyadh,1983-01-02,Winter,,9.5,21.0,0.0," ++ eol;
    "41024,Riyadh,1983-01-03,Winter,15.0,10.0,19.8,1.2," ++ eol ]%string.

(** A record whose date cannot be read, with a temperature. *)
Definition undated : string := "41024,Riyadh,n/a,Winter,14.5,9.0,20.1,0.0," ++ eol.

(** A record whose temperature field is text that is not a number. *)
Definition not_a_number : string := "41024,Riyadh,1983-01-04,Winter,abc,,,," ++ eol.

(** A record whose temperature field reads [nan]. *)
Definition nan_reading : string := "41024,Riyadh,1983-01-05,Winter,nan,,,," ++ eol.

(** What an array slot may hold before it is first written: here the
    leftovers of an earlier use. *)
Definition stale_slot : CityStats :=
  {| name := "Jeddah";
     temp_sum := double_of_Z 98765;
     temp_min := double_of_Z 11;
     temp_max := double_of_Z 47;
     precip_sum := double_of_Z 52;
     temp_count := 3650;
     precip_count := 3650;
     record_count := 3653;
     monthly_temp_sum := replicate 12 (double_of_Z 8000);
     monthly_temp_count := replicate 12 304 |}.

(** Freshly mapped memory: every byte zero. *)
Definition zeroed_slot : CityStats :=
  {| name := EmptyString;
     temp_sum := CPU.dzero; temp_min := CPU.dzero; temp_max := CPU.dzero;
     precip_sum := CPU.dzero;
     temp_count := 0; precip_count := 0; record_count := 0;
     monthly_temp_sum := replicate 12 CPU.dzero;
     monthly_temp_count := replicate 12 0 |}.
End Lines.

(** The state of the extrema of a [CityStats]. *)
Module Extrema.
(** No temperature has been seen: the extrema are the initial ones. *)
Definition sentinels (city : CityStats) : Prop :=
  temp_min city = DBL_MAX /\ temp_max city = fneg DBL_MAX.

Definition tidy (city : CityStats) : Prop :=
  is_nan (temp_min city) = false /\ is_nan (temp_max city) = false /\
  0 <= temp_count city /\ (temp_count city = 0 -> sentinels city).
End Extrema.

(** Arithmetic in which the planner and the collector are specified. *)
Module Plan.
(** The ceiling of [n / w], from the floor: the least [c] with
    [n <= w * c]. *)
Definition ceil_div (n w : Z) : Z := - ((- n) / w).

(** The exclusive prefix sum: the sum of the counts of the sources
    before source [i]. *)
Definition offset (counts : list Z) (i : nat) : Z :=
  fold_right Z.add 0 (take i counts).

Definition counts_of {A} (local_results : list (list A)) : list Z :=
  (fun l => Z.of_nat (length l)) <$> local_results.

(** How many results the sources before source [i] hold. *)
Definition start_of {A} (local_results : list (list A)) (i : nat) : nat :=
  length (concat (take i local_results)).

(** The results of the sources listed in [stored] are in place in the
    receive buffer. *)
Definition in_place {A} (local_results : list (list A)) (stored : list nat)
    (recvbuf : list A) : Prop :=
  length recvbuf = length (concat local_results) /\
  forall i l j x,
    i ∈ stored -> local_results !! i = Some l -> l !! j = Some x ->
    recvbuf !! (start_of local_results i + j)%nat = Some x.
End Plan.

(** The records the CUDA host parses from lines, line [i] into the slot
    [start + i] of the allocated array. *)
Module Host.
Definition parsed (atof : string -> double) (allocated : nat -> CUDA.WeatherRecord)
    (start : nat) (lines : list string) : list CUDA.WeatherRecord :=
  imap (fun i line => CUDA.parse_line atof (allocated (start + i)%nat) line) lines.

(** A file of [n] data lines, all alike. *)
Definition long_file (n : nat) : list string :=
  Lines.header :: replicate n Lines.undated.
End Host.

(** ** The directory scan: which entries are processed, under which name *)

Module Directory.
Import CLib.

Definition MAX_NAME : nat := 128.
Definition MAX_CITIES : Z := 2000.
Definition MAX_FILES : Z := 2000.

(** [strrchr s c]: the text from the last occurrence of [c] on. *)
Fixpoint strrchr (s : string) (c : ascii) : option string :=
  match s with
  | String d r =>
      match strrchr r c with
      | Some t => Some t
      | None => if Ascii.eqb d c then Some s else None
      end
  | EmptyString => None
  end.

(** The distance [dot - s] when [dot = strrchr s c]. *)
Fixpoint last_offset_of (s : string) (c : ascii) : option nat :=
  match s with
  | String d r =>
      match last_offset_of r c with
      | Some n => Some (S n)
      | None => if Ascii.eqb d c then Some O else None
      end
  | EmptyString => None
  end.

(** [ext && strcmp(ext, ".csv") == 0] for [ext = strrchr(d_name, '.')] *)
Definition is_csv (d_name : string) : bool :=
  match strrchr d_name "."%char with
  | Some ext => String.eqb ext ".csv"
  | None => false
  end.

(** [snprintf(filepath, 512, "%s/%s", data_dir, d_name)] *)
Definition filepath (data_dir d_name : string) : string :=
  substring 0 511 (data_dir ++ "/" ++ d_name)%string.

(** "Replace underscores with spaces": the loop over the characters of
    [city_name]. *)
Fixpoint spaces_for_underscores (s : string) : string :=
  match s with
  | String c r =>
      String (if Ascii.eqb c "_"%char then " "%char else c) (spaces_for_underscores r)
  | EmptyString => EmptyString
  end.

(** The city name of a directory entry: the first [MAX_NAME - 1]
    characters of [d_name], cut at their last dot, underscores replaced by
    spaces. *)
Definition city_name_of (d_name : string) : string :=
  let city_name := substring 0 (MAX_NAME - 1) d_name in
  let city_name :=
    match last_offset_of city_name "."%char with
    | Some dot => substring 0 dot city_name
    | None => city_name
    end in
  spaces_for_underscores city_name.

(** [collect_files] of the OpenMP and MPI programs.  [entries] are the
    names that successive [readdir] calls return; the state is the filled
    part of [file_paths] and of [city_names], [num_files] being their
    length.  The two arrays have [MAX_FILES] rows and the loop checks
    [num_files] against [max_cities] only: the lists stand for the arrays
    as long as [max_cities] is at most [MAX_FILES], beyond which the C
    program writes past their end. *)
Fixpoint collect_loop (data_dir : string) (max_cities : Z) (entries : list string)
    (file_paths city_names : list string) : list string * list string :=
  match entries with
  | [] => (file_paths, city_names)
  | d_name :: entries =>
      if Z.of_nat (length file_paths) <? max_cities then
        if is_csv d_name then
          collect_loop data_dir max_cities entries
            (file_paths ++ [filepath data_dir d_name])
            (city_names ++ [city_name_of d_name])
        else collect_loop data_dir max_cities entries file_paths city_names
      else (file_paths, city_names)
  end.

Definition collect_files (data_dir : string) (max_cities : Z) (entries : list string)
    : list string * list string :=
  collect_loop data_dir max_cities entries [] [].

(** The loop of [main] of the serial and of the CUDA program:
    [while ((entry = readdir(dir)) != NULL && city_count < max_cities)].
    [process] is [process_city_file] or [process_city_file_cuda] after
    [fopen]; the state is the list of the first [city_count] entries of
    [cities]. *)
Fixpoint scan_loop (process : file -> string -> list CityStats -> list CityStats)
    (fopen : string -> file) (data_dir : string) (max_cities : Z)
    (entries : list string) (cities : list CityStats) : list CityStats :=
  match entries with
  | [] => cities
  | d_name :: entries =>
      if Z.of_nat (length cities) <? max_cities then
        if is_csv d_name then
          scan_loop process fopen data_dir max_cities entries
            (process (fopen (filepath data_dir d_name)) (city_name_of d_name) cities)
        else scan_loop process fopen data_dir max_cities entries cities
      else cities
  end.

Definition serial_main (atof : string -> double) (fopen : string -> file)
    (data_dir : string) (max_cities : Z) (entries : list string) : list CityStats :=
  scan_loop (Serial.process_city_file atof) fopen data_dir max_cities entries [].


(** What iteration [i] of the OpenMP loop makes of the slot it is
    given. *)
Definition slot_after (atof : string -> double)
    (file_paths : list file) (city_names : list string)
    (i : nat) (slot : CityStats) : CityStats :=
  match file_paths !! i, city_names !! i with
  | Some fp, Some n => OpenMP.process_city_file atof fp (OpenMP.set_name slot n)
  | _, _ => slot
  end.

(** [main] of the OpenMP program up to [print_results]: the file list,
    the parallel loop over it, the copy to [cities].  [local_cities i] is
    what slot [i] of the allocated array holds. *)
Definition omp_main (atof : string -> double) (fopen : string -> file)
    (data_dir : string) (max_cities : Z) (entries : list string)
    (schedule : list nat) (local_cities : nat -> CityStats) : list CityStats :=
  let '(file_paths, city_names) := collect_files data_dir max_cities entries in
  OpenMP.parallel_for atof (fopen <$> file_paths) city_names schedule
    (local_cities <$> seq 0 (length file_paths)).

(** [main] of the MPI program up to [print_results], seen from rank 0:
    every process collects the file list, reduces the files of its
    [my_file_indices] into its [local_results], and rank 0 gathers.
    [local_results rank i] is what slot [i] of the array allocated by
    process [rank] holds.  Every process is taken to read the same
    entries from the directory, in the same order. *)
Definition mpi_local_results (atof : string -> double) (fopen : string -> file)
    (dist_mode : string) (size : Z) (file_paths city_names : list string)
    (local_results : Z -> nat -> CityStats) (rank : Z) : list CityStats :=
  let indices :=
    MPI.my_file_indices dist_mode rank size (Z.of_nat (length file_paths)) in
  MPI.local_work atof (fopen <$> file_paths) city_names indices
    (local_results rank <$> seq 0 (length indices)).

Definition mpi_main (atof : string -> double) (fopen : string -> file)
    (dist_mode : string) (size : Z)
    (data_dir : string) (max_cities : Z) (entries : list string)
    (local_results : Z -> nat -> CityStats) (arrival : list nat)
    (displacements : list Z) (all_results : list CityStats) : list CityStats :=
  let '(file_paths, city_names) := collect_files data_dir max_cities entries in
  MPI.gather arrival
    (mpi_local_results atof fopen dist_mode size file_paths city_names local_results
       <$> seqZ 0 size)
    displacements all_results.
End Directory.

(** ** The report: rankings and overall statistics of [print_results] *)

Module Report.

Definition ddiv (x y : double) : double := SFdiv 53 1024 x y.

(** [c.temp_count > 0 ? c.temp_sum / c.temp_count : -999] *)
Definition average (c : CityStats) : double :=
  if temp_count c >? 0 then ddiv (temp_sum c) (double_of_Z (temp_count c))
  else double_of_Z (-999).

(** The body of the inner loop: [cities[i]] and [cities[j]] are
    exchanged when [above cities[j] cities[i]]. *)
Definition exchange {A} (above : A -> A -> bool) (i j : nat) (cities : list A) : list A :=
  match cities !! i, cities !! j with
  | Some ci, Some cj =>
      if above cj ci then <[j := ci]> (<[i := cj]> cities) else cities
  | _, _ => cities
  end.

(** [for (int j = i + 1; j < city_count; j++)] *)
Definition inner_loop {A} (above : A -> A -> bool) (city_count i : nat)
    (cities : list A) : list A :=
  fold_left (fun cs j => exchange above i j cs)
    (seq (i + 1) (city_count - (i + 1))) cities.

(** [for (int i = 0; i < city_count - 1; i++)] *)
Definition sort_loop {A} (above : A -> A -> bool) (city_count : nat)
    (cities : list A) : list A :=
  fold_left (fun cs i => inner_loop above city_count i cs)
    (seq 0 (city_count - 1)) cities.

(** "Sort by average temperature (descending)": [avg_j > avg_i] *)
Definition sort_by_average (cities : list CityStats) : list CityStats :=
  sort_loop (fun cj ci => flt (average ci) (average cj)) (length cities) cities.

(** "Re-sort by precipitation": [cities[j].precip_sum > cities[i].precip_sum] *)
Definition sort_by_precipitation (cities : list CityStats) : list CityStats :=
  sort_loop (fun cj ci => flt (precip_sum ci) (precip_sum cj)) (length cities) cities.

(** The cities of the three tables, in the order of their rows. *)
Definition hottest (sorted : list CityStats) : list CityStats :=
  List.filter (fun c => temp_count c >? 0) (take 10 sorted).

Definition coldest (sorted : list CityStats) : list CityStats :=
  List.filter (fun c => temp_count c >? 0) (take 10 (reverse sorted)).

Definition wettest (sorted : list CityStats) : list CityStats := take 10 sorted.

(** "Overall statistics": [total_records], [global_temp_sum] and
    [global_temp_count] after the loop over the cities. *)
Definition totals (cities : list CityStats) : Z * double * Z :=
  fold_left (fun '(total_records, global_temp_sum, global_temp_count) c =>
               (total_records + record_count c,
                dadd global_temp_sum (temp_sum c),
                global_temp_count + temp_count c))
    cities (0, CPU.dzero, 0).

(** [global_temp_count > 0 ? global_temp_sum / global_temp_count : 0] *)
Definition global_average (cities : list CityStats) : double :=
  let '(_, global_temp_sum, global_temp_count) := totals cities in
  if global_temp_count >? 0 then ddiv global_temp_sum (double_of_Z global_temp_count)
  else CPU.dzero.

(** The state of the inner loop for [i] when it reaches [m], started
    from [l0]: the cities before [i] are untouched, those from [i] on are
    cities that were there at the start, and none of those between [i]
    and [m] is above the city at [i].  [P] holds of every city. *)
Definition inner_inv {A} (above : A -> A -> bool) (P : A -> Prop)
    (i m : nat) (l0 l : list A) : Prop :=
  length l = length l0 /\
  Forall P l /\
  (forall k, (k < i)%nat -> l !! k = l0 !! k) /\
  (forall b y, (i <= b)%nat -> l !! b = Some y ->
               exists b', (i <= b')%nat /\ l0 !! b' = Some y) /\
  (forall k x y, (i < k < m)%nat -> l !! i = Some x -> l !! k = Some y ->
                 above y x = false).

(** Every city before index [i] is in its final place: none of the
    cities after it is above it. *)
Definition settled {A} (above : A -> A -> bool) (i : nat) (l : list A) : Prop :=
  forall a b x y, (a < i)%nat -> (a < b)%nat ->
    l !! a = Some x -> l !! b = Some y -> above y x = false.

(** A city with the given name, temperature sum and count, and total
    precipitation. *)
Definition city (city_name : string) (sum count precip : Z) : CityStats :=
  {| name := city_name;
     temp_sum := double_of_Z sum; temp_min := CPU.dzero; temp_max := CPU.dzero;
     precip_sum := double_of_Z precip;
     temp_count := count; precip_count := count; record_count := count;
     monthly_temp_sum := replicate 12 CPU.dzero;
     monthly_temp_count := replicate 12 0 |}.

Definition abha : CityStats := city "Abha" 36 2 30.
Definition riyadh : CityStats := city "Riyadh" 52 2 10.
Definition jeddah : CityStats := city "Jeddah" 60 2 20.

(** What [print_results] reports: the three tables, then the totals,
    which are taken over the array as the second sort leaves it. *)
Definition print_results (cities : list CityStats)
    : list CityStats * list CityStats * list CityStats * (Z * double * Z) :=
  let by_average := sort_by_average cities in
  let by_precipitation := sort_by_precipitation by_average in
  (hottest by_average, coldest by_average, wettest by_precipitation,
   totals by_precipitation).
End Report.

(** ** The warp-level reductions of the CUDA program *)

Module Warp.
Definition WARP_SIZE : Z := 32.

(** Modelled from the CUDA programming guide: [__shfl_down_sync(mask,
    val, offset)] with a full mask gives lane [lane] the [val] of lane
    [lane + offset], and its own [val] when that lane is past the end of
    the warp.  [vals] holds the [val] of every lane of the warp, which
    run in lock step. *)
Definition shfl_down_sync (vals : list float) (val : float) (lane : nat)
    (offset : Z) : float :=
  match vals !! (lane + Z.to_nat offset)%nat with
  | Some other => other
  | None => val
  end.

(** One iteration of the loop, in every lane:
    [other = __shfl_down_sync(..., val, offset); val = op(val, other);] *)
Definition warp_step (op : float -> float -> float) (offset : Z)
    (vals : list float) : list float :=
  imap (fun lane val => op val (shfl_down_sync vals val lane offset)) vals.

(** [for (int offset = WARP_SIZE/2; offset > 0; offset /= 2)] *)
Fixpoint warp_loop (fuel : nat) (op : float -> float -> float) (offset : Z)
    (vals : list float) : list float :=
  match fuel with
  | O => vals
  | S fuel =>
      if offset >? 0
      then warp_loop fuel op (Z.quot offset 2) (warp_step op offset vals)
      else vals
  end.

(** The state of the lanes when the offsets down to [s] are done, for
    the warp that started with [vals]: lane [i] below [s] holds one of
    the values of [vals], which is below (in [le]) the value of every
    lane [i + k * s]. *)
Definition lanes_hold (le : float -> float -> bool) (vals : list float)
    (s : nat) (cur : list float) : Prop :=
  length cur = 32%nat /\
  forall i, (i < s)%nat ->
    exists x, cur !! i = Some x /\ x ∈ vals /\
              forall k v, vals !! (i + k * s)%nat = Some v -> le x v = true.

(** The value each lane returns. *)
Definition warp_reduce_min (vals : list float) : list float :=
  warp_loop (Z.to_nat WARP_SIZE) fminf (Z.quot WARP_SIZE 2) vals.

Definition warp_reduce_max (vals : list float) : list float :=
  warp_loop (Z.to_nat WARP_SIZE) fmaxf (Z.quot WARP_SIZE 2) vals.

Definition warp_reduce_sum (vals : list float) : list float :=
  warp_loop (Z.to_nat WARP_SIZE) fadd (Z.quot WARP_SIZE 2) vals.
End Warp.

(** ** Further definitions used to state the properties *)

Module Csv.
(** A line of text with the given fields, separated by commas. *)
Fixpoint line (fields : list string) : string :=
  match fields with
  | [] => EmptyString
  | [f] => f
  | f :: fields => (f ++ String ","%char (line fields))%string
  end.

(** The text holds neither a comma nor a line end. *)
Fixpoint plain (s : string) : bool :=
  match s with
  | String c r =>
      negb (Ascii.eqb c ","%char) && negb (Ascii.eqb c CLib.newline) && plain r
  | EmptyString => true
  end.

(** The end of a line: nothing, or the line-end character that [fgets]
    keeps. *)
Definition line_end (eol : string) : Prop :=
  eol = EmptyString \/ eol = String CLib.newline EmptyString.

(** The first fields of a record, the season left empty. *)
Definition reading : list string :=
  ["SA001"%string; "Riyadh"%string; "2020-01-15"%string; EmptyString; "14.5"%string].

(** A record without temperature. *)
Definition no_reading : string :=
  ("41024,Riyadh,1983-01-06,Winter,,,,0.4," ++ Lines.eol)%string.

(** The text holds the character [c]. *)
Fixpoint holds_char (c : ascii) (s : string) : bool :=
  match s with
  | String d r => Ascii.eqb d c || holds_char c r
  | EmptyString => false
  end.
End Csv.

(** Data that the [float] format holds. *)
Module Single.

(** The [double] [x] is a value of the [float] format: the conversion
    [(float) x] loses nothing. *)
Definition exact (x : double) : Prop := to_double (to_float x) = x.
End Single.

(** Files of one city for the record-level reduction. *)
Module Series.
(** A record of January with the temperature written [t] and no
    precipitation. *)
Definition january (t : string) : string :=
  ("41024,Riyadh,1983-01-01,Winter," ++ t ++ ",,,," ++ Lines.eol)%string.



(** The temperatures 2^24, -2^24, 1, 0, whose sum depends on the order
    of the additions. *)
Definition cancelling : list string :=
  january <$> ["16777216"; "-16777216"; "1"; "0"]%string.


(** What [malloc] returned holds, for the examples. *)
Definition allocated (i : nat) : CUDA.WeatherRecord := Scenario.temperature 0.
End Series.


(** * Properties *)

(** * Properties *)

(** ** Facts about the IEEE operations *)

Module IEEE_facts.
Import KeyOrder.

Lemma lex3_spec a b :
  match lex3 a b with
  | Lt => a.1.1 < b.1.1 \/
          (a.1.1 = b.1.1 /\ (a.1.2 < b.1.2 \/ (a.1.2 = b.1.2 /\ a.2 < b.2)))
  | Eq => a = b
  | Gt => b.1.1 < a.1.1 \/
          (a.1.1 = b.1.1 /\ (b.1.2 < a.1.2 \/ (a.1.2 = b.1.2 /\ b.2 < a.2)))
  end.
Proof.
  destruct a as [[a1 a2] a3], b as [[b1 b2] b3]; unfold lex3; simpl.
  destruct (Z.compare_spec a1 b1); try lia.
  destruct (Z.compare_spec a2 b2); try lia.
  destruct (Z.compare_spec a3 b3); try lia.
  congruence.
Qed.

(** [SFcompare] is the lexicographic comparison of the keys. *)
Lemma SFcompare_nkey x y :
  is_nan x = false -> is_nan y = false ->
  SFcompare x y = Some (lex3 (nkey x) (nkey y)).
Proof.
  destruct x as [[]|[]| |[] m1 e1], y as [[]|[]| |[] m2 e2]; simpl;
    try discriminate; intros _ _; try reflexivity; unfold lex3; simpl.
  rewrite Z.compare_opp, (Z.compare_antisym e1 e2).
  destruct (e1 ?= e2); reflexivity.
Qed.

Lemma nkey_zrank_inj x y : nkey x = nkey y -> zrank x = zrank y -> x = y.
Proof.
  destruct x as [[]|[]| |[] m1 e1], y as [[]|[]| |[] m2 e2]; simpl; intros H1 H2;
    try discriminate; try reflexivity; inversion H1; subst; try reflexivity.
  f_equal; lia.
Qed.

Lemma max_key_zrank_inj x y : max_key x = max_key y -> zrank x = zrank y -> x = y.
Proof.
  destruct x as [[]|[]| |[] m1 e1], y as [[]|[]| |[] m2 e2]; simpl; intros H1 H2;
    try discriminate; try reflexivity; inversion H1; subst; try reflexivity.
  f_equal; lia.
Qed.

(** [fminf] picks the lesser argument in the order [min_le]. *)
Lemma fminf_min_le x y : fminf x y = if min_le x y then x else y.
Proof.
  unfold fminf, min_le.
  destruct (is_nan x) eqn:Hx.
  { destruct x; try discriminate. destruct y as [[]|[]| |[] ? ?]; reflexivity. }
  destruct (is_nan y) eqn:Hy.
  { destruct y; try discriminate.
    destruct x as [[]|[]| |[] ? ?]; try discriminate; reflexivity. }
  rewrite (SFcompare_nkey x y Hx Hy).
  pose proof (lex3_spec (nkey x) (nkey y)) as H.
  destruct (lex3 (nkey x) (nkey y)); try reflexivity.
  destruct (Z.leb_spec (zrank x) (zrank y)) as [Hz|Hz];
    destruct x as [[]|[]| |[] m1 e1], y as [[]|[]| |[] m2 e2]; simpl in *;
    try discriminate; try reflexivity; try lia; inversion H; subst;
    try reflexivity; f_equal; lia.
Qed.

(** [fmaxf] picks the greater argument in the order [max_le]. *)
Lemma fmaxf_max_le x y : fmaxf x y = if max_le x y then y else x.
Proof.
  unfold fmaxf, max_le.
  destruct (is_nan x) eqn:Hx.
  { destruct x; try discriminate. destruct y as [[]|[]| |[] ? ?]; reflexivity. }
  destruct (is_nan y) eqn:Hy.
  { destruct y; try discriminate.
    destruct x as [[]|[]| |[] ? ?]; try discriminate; reflexivity. }
  rewrite (SFcompare_nkey x y Hx Hy).
  replace (max_key x) with (nkey x) by (destruct x; try discriminate; reflexivity).
  replace (max_key y) with (nkey y) by (destruct y; try discriminate; reflexivity).
  pose proof (lex3_spec (nkey x) (nkey y)) as H.
  destruct (lex3 (nkey x) (nkey y)); try reflexivity.
  destruct (Z.leb_spec (zrank x) (zrank y)) as [Hz|Hz];
    destruct x as [[]|[]| |[] m1 e1], y as [[]|[]| |[] m2 e2]; simpl in *;
    try discriminate; try reflexivity; try lia; inversion H; subst;
    try reflexivity; f_equal; lia.
Qed.

Section Keys.
Context {A : Type} (k : A -> Z * Z * Z) (r : A -> Z).
Hypothesis k_inj : forall x y, k x = k y -> r x = r y -> x = y.

Lemma kle_spec x y : kle k r x y = true <-> kleP k r x y.
Proof.
  unfold kle, kleP. pose proof (lex3_spec (k x) (k y)) as H.
  destruct (lex3 (k x) (k y)).
  - rewrite H, Z.leb_le. lia.
  - split; [lia|reflexivity].
  - split; [discriminate|lia].
Qed.

Lemma kle_false x y : kle k r x y = false -> kleP k r y x.
Proof.
  intros H. destruct (kle k r y x) eqn:E; [now apply kle_spec|].
  exfalso.
  assert (~ kleP k r x y) by (rewrite <- kle_spec; congruence).
  assert (~ kleP k r y x) by (rewrite <- kle_spec; congruence).
  unfold kleP in *. lia.
Qed.

Lemma kle_antisym x y : kleP k r x y -> kleP k r y x -> x = y.
Proof.
  unfold kleP. intros H1 H2. apply k_inj; [|lia].
  destruct (k x) as [[a1 a2] a3], (k y) as [[b1 b2] b3]; simpl in *.
  f_equal; [f_equal|]; lia.
Qed.

Lemma kle_trans x y z : kleP k r x y -> kleP k r y z -> kleP k r x z.
Proof. unfold kleP. lia. Qed.

Lemma kle_refl x : kle k r x x = true.
Proof. apply kle_spec. unfold kleP. lia. Qed.

Ltac to_props :=
  repeat match goal with
         | H : kle _ _ _ _ = true |- _ => apply kle_spec in H
         | H : kle _ _ _ _ = false |- _ => apply kle_false in H
         end.

Lemma kmin_comm x y : kmin k r x y = kmin k r y x.
Proof.
  unfold kmin. destruct (kle k r x y) eqn:E1, (kle k r y x) eqn:E2;
    to_props; auto using kle_antisym.
Qed.

Lemma kmin_assoc x y z : kmin k r x (kmin k r y z) = kmin k r (kmin k r x y) z.
Proof.
  unfold kmin.
  destruct (kle k r y z) eqn:Eyz; destruct (kle k r x y) eqn:Exy;
    rewrite ?Eyz, ?Exy; try reflexivity.
  all: destruct (kle k r x z) eqn:Exz; try reflexivity.
  all: to_props; eauto using kle_antisym, kle_trans.
Qed.

Lemma kmin_idem x : kmin k r x x = x.
Proof. unfold kmin. destruct (kle k r x x); reflexivity. Qed.

Lemma kmax_comm x y : kmax k r x y = kmax k r y x.
Proof.
  unfold kmax. destruct (kle k r x y) eqn:E1, (kle k r y x) eqn:E2;
    to_props; auto using kle_antisym.
Qed.

Lemma kmax_assoc x y z : kmax k r x (kmax k r y z) = kmax k r (kmax k r x y) z.
Proof.
  unfold kmax.
  destruct (kle k r y z) eqn:Eyz; destruct (kle k r x y) eqn:Exy;
    rewrite ?Eyz, ?Exy; try reflexivity.
  all: destruct (kle k r x z) eqn:Exz; try reflexivity.
  all: to_props; eauto using kle_antisym, kle_trans.
Qed.

Lemma kmax_idem x : kmax k r x x = x.
Proof. unfold kmax. destruct (kle k r x x); reflexivity. Qed.

Lemma kle_trans_b x y z :
  kle k r x y = true -> kle k r y z = true -> kle k r x z = true.
Proof. rewrite !kle_spec. apply kle_trans. Qed.

Lemma kle_total x y : kle k r x y = true \/ kle k r y x = true.
Proof.
  destruct (kle k r x y) eqn:E; [now left|right].
  apply kle_spec. now apply kle_false.
Qed.

Lemma kle_antisym_b x y : kle k r x y = true -> kle k r y x = true -> x = y.
Proof. rewrite !kle_spec. apply kle_antisym. Qed.
End Keys.

Lemma fminf_kmin x y : fminf x y = kmin nkey zrank x y.
Proof. apply fminf_min_le. Qed.

Lemma fmaxf_kmax x y : fmaxf x y = kmax max_key zrank x y.
Proof. apply fmaxf_max_le. Qed.

Lemma fminf_comm x y : fminf x y = fminf y x.
Proof. rewrite !fminf_kmin. apply kmin_comm, nkey_zrank_inj. Qed.

Lemma fminf_assoc x y z : fminf x (fminf y z) = fminf (fminf x y) z.
Proof. rewrite !fminf_kmin. apply kmin_assoc, nkey_zrank_inj. Qed.

Lemma fminf_idem x : fminf x x = x.
Proof. rewrite fminf_kmin. apply kmin_idem. Qed.

Lemma fmaxf_comm x y : fmaxf x y = fmaxf y x.
Proof. rewrite !fmaxf_kmax. apply kmax_comm, max_key_zrank_inj. Qed.

Lemma fmaxf_assoc x y z : fmaxf x (fmaxf y z) = fmaxf (fmaxf x y) z.
Proof. rewrite !fmaxf_kmax. apply kmax_assoc, max_key_zrank_inj. Qed.

Lemma fmaxf_idem x : fmaxf x x = x.
Proof. rewrite fmaxf_kmax. apply kmax_idem. Qed.

Lemma fminf_choice x y : fminf x y = x \/ fminf x y = y.
Proof. rewrite fminf_min_le. destruct (min_le x y); auto. Qed.

Lemma fmaxf_choice x y : fmaxf x y = x \/ fmaxf x y = y.
Proof. rewrite fmaxf_max_le. destruct (max_le x y); auto. Qed.

Lemma min_le_trans x y z : min_le x y = true -> min_le y z = true -> min_le x z = true.
Proof. apply (kle_trans_b nkey zrank). Qed.

Lemma max_le_trans x y z : max_le x y = true -> max_le y z = true -> max_le x z = true.
Proof. apply (kle_trans_b max_key zrank). Qed.

Lemma min_le_fminf_l x y : min_le (fminf x y) x = true.
Proof.
  rewrite fminf_min_le. destruct (min_le x y) eqn:E.
  - apply (kle_refl nkey zrank).
  - destruct (kle_total nkey zrank x y) as [H|H]; [|exact H].
    unfold min_le in E. unfold kle in H. congruence.
Qed.

Lemma max_le_fmaxf_l x y : max_le x (fmaxf x y) = true.
Proof.
  rewrite fmaxf_max_le. destruct (max_le x y) eqn:E; [exact E|].
  apply (kle_refl max_key zrank).
Qed.

Lemma fminf_absorb x y : min_le x y = true -> fminf x y = x.
Proof. intros H. rewrite fminf_min_le, H. reflexivity. Qed.

Lemma fmaxf_absorb x y : max_le y x = true -> fmaxf x y = x.
Proof.
  intros H. rewrite fmaxf_max_le. destruct (max_le x y) eqn:E; [|reflexivity].
  apply (kle_antisym_b max_key zrank max_key_zrank_inj); assumption.
Qed.

(** The orders of [fminf] and [fmaxf] refine [<=] on non-NaN data. *)
Lemma fle_nkey x y :
  is_nan x = false -> is_nan y = false ->
  fle x y = match lex3 (nkey x) (nkey y) with Gt => false | _ => true end.
Proof.
  intros Hx Hy. unfold fle, SFleb. rewrite (SFcompare_nkey x y Hx Hy).
  destruct (lex3 (nkey x) (nkey y)); reflexivity.
Qed.

Lemma flt_nkey x y :
  is_nan x = false -> is_nan y = false ->
  flt x y = match lex3 (nkey x) (nkey y) with Lt => true | _ => false end.
Proof.
  intros Hx Hy. unfold flt, SFltb. rewrite (SFcompare_nkey x y Hx Hy).
  destruct (lex3 (nkey x) (nkey y)); reflexivity.
Qed.

Lemma flt_nan_l y : flt S754_nan y = false.
Proof. reflexivity. Qed.

Lemma flt_nan_r x : flt x S754_nan = false.
Proof. destruct x; reflexivity. Qed.

Lemma fle_refl x : is_nan x = false -> fle x x = true.
Proof.
  intros Hx. rewrite fle_nkey by assumption.
  pose proof (lex3_spec (nkey x) (nkey x)) as H.
  destruct (lex3 (nkey x) (nkey x)); try reflexivity. lia.
Qed.

Lemma fle_trans x y z : fle x y = true -> fle y z = true -> fle x z = true.
Proof.
  intros H1 H2.
  assert (is_nan x = false /\ is_nan y = false /\ is_nan z = false) as (Hx & Hy & Hz).
  { destruct x, y, z; try discriminate; auto. }
  rewrite fle_nkey in * by assumption.
  pose proof (lex3_spec (nkey x) (nkey y)).
  pose proof (lex3_spec (nkey y) (nkey z)).
  pose proof (lex3_spec (nkey x) (nkey z)).
  destruct (lex3 (nkey x) (nkey y)), (lex3 (nkey y) (nkey z)), (lex3 (nkey x) (nkey z));
    try discriminate; try reflexivity; exfalso;
    destruct (nkey x) as [[? ?] ?], (nkey y) as [[? ?] ?], (nkey z) as [[? ?] ?];
    simpl in *; try lia;
    repeat match goal with H : (_, _) = (_, _) |- _ => inversion H; clear H; subst end; lia.
Qed.

Lemma not_flt_fle x y :
  is_nan x = false -> is_nan y = false -> flt x y = false -> fle y x = true.
Proof.
  intros Hx Hy. rewrite flt_nkey, fle_nkey by assumption.
  pose proof (lex3_spec (nkey x) (nkey y)).
  pose proof (lex3_spec (nkey y) (nkey x)).
  destruct (lex3 (nkey x) (nkey y)), (lex3 (nkey y) (nkey x));
    try discriminate; try reflexivity; intros _; exfalso;
    destruct (nkey x) as [[? ?] ?], (nkey y) as [[? ?] ?]; simpl in *; try lia;
    repeat match goal with H : (_, _) = (_, _) |- _ => inversion H; clear H; subst end; lia.
Qed.

Lemma flt_fle x y : flt x y = true -> fle x y = true.
Proof. unfold flt, fle, SFltb, SFleb. destruct (SFcompare x y) as [[]|]; auto. Qed.

Lemma flt_not_nan x y : flt x y = true -> is_nan x = false /\ is_nan y = false.
Proof. destruct x, y; try discriminate; auto. Qed.

Lemma fle_not_nan x y : fle x y = true -> is_nan x = false /\ is_nan y = false.
Proof. destruct x, y; try discriminate; auto. Qed.

Lemma min_le_fle x y :
  is_nan x = false -> is_nan y = false -> min_le x y = true -> fle x y = true.
Proof.
  intros Hx Hy. rewrite fle_nkey by assumption. unfold min_le.
  destruct (lex3 (nkey x) (nkey y)); auto.
Qed.

Lemma max_le_fle x y :
  is_nan x = false -> is_nan y = false -> max_le x y = true -> fle x y = true.
Proof.
  intros Hx Hy. rewrite fle_nkey by assumption. unfold max_le.
  replace (max_key x) with (nkey x) by (destruct x; try discriminate; reflexivity).
  replace (max_key y) with (nkey y) by (destruct y; try discriminate; reflexivity).
  destruct (lex3 (nkey x) (nkey y)); auto.
Qed.
End IEEE_facts.

(** ** Widening a [float] to [double] and back loses nothing *)

Module Conversion_facts.

Lemma iter_pos_nat {A} (f : A -> A) p x :
  SpecFloat.iter_pos f p x = Nat.iter (Pos.to_nat p) f x.
Proof.
  revert x. induction p as [p IH|p IH|]; intros x; cbn [SpecFloat.iter_pos].
  - rewrite !IH, Pos2Nat.inj_xI.
    replace (S (2 * Pos.to_nat p)) with (Pos.to_nat p + S (Pos.to_nat p))%nat by lia.
    rewrite Nat.iter_add, Nat.iter_succ_r. reflexivity.
  - rewrite !IH, Pos2Nat.inj_xO.
    replace (2 * Pos.to_nat p)%nat with (Pos.to_nat p + Pos.to_nat p)%nat by lia.
    rewrite Nat.iter_add. reflexivity.
  - reflexivity.
Qed.

Lemma shift_digits n m :
  Zpos (digits2_pos (Nat.iter n xO m)) = Zpos (digits2_pos m) + Z.of_nat n.
Proof.
  induction n as [|n IH]; [simpl; lia|].
  cbn [Nat.iter nat_rect]. change (Nat.iter n xO m) with (nat_rect _ m (fun _ => xO) n) in IH.
  simpl digits2_pos. lia.
Qed.

Lemma shr_shifted n m :
  Nat.iter n shr_1 {| shr_m := Zpos (Nat.iter n xO m); shr_r := false; shr_s := false |}
  = {| shr_m := Zpos m; shr_r := false; shr_s := false |}.
Proof.
  induction n as [|n IH]; [reflexivity|].
  rewrite Nat.iter_succ_r. simpl. exact IH.
Qed.

Lemma to_float_to_double x : is_float x = true -> to_float (to_double x) = x.
Proof.
  destruct x as [s|s| |s m e]; try reflexivity.
  unfold is_float, valid_binary, bounded, canonical_mantissa.
  rewrite andb_true_iff, Z.eqb_eq, Z.leb_le. intros [Hc He].
  set (d := Zpos (digits2_pos m)) in *.
  assert (Hd : 1 <= d) by (unfold d; lia).
  assert (Hf : fexp 24 128 (d + e) = e) by exact Hc.
  unfold fexp, emin in Hc.
  assert (Hd24 : d <= 24) by lia.
  assert (He149 : -149 <= e) by lia.
  unfold to_double, binary_round.
  set (e2 := fexp 53 1024 (d + e)).
  assert (He2 : e2 = Z.max (d + e - 53) (-1074)) by reflexivity.
  assert (Hlt : e2 < e) by lia.
  unfold shl_align. fold d. fold e2.
  destruct (e2 - e) as [|q|q] eqn:Hq; try lia.
  rewrite Pos2Nat.inj_iter.
  change (nat_rect (fun _ : nat => positive) m (fun _ : nat => xO) (Pos.to_nat q))
    with (Nat.iter (Pos.to_nat q) xO m).
  set (n := Pos.to_nat q).
  assert (Hn : Z.of_nat n = e - e2) by (unfold n; lia).
  set (mz := Nat.iter n xO m).
  assert (Hdz : Zpos (digits2_pos mz) = d + Z.of_nat n) by apply shift_digits.
  assert (Hde : Zpos (digits2_pos mz) + e2 = d + e) by lia.
  (* the widening is exact *)
  assert (Hw : binary_round_aux 53 1024 s (Zpos mz) e2 loc_Exact = S754_finite s mz e2).
  { unfold binary_round_aux, shr_fexp. simpl Zdigits2. rewrite Hde.
    fold e2. rewrite Z.sub_diag. simpl shr.
    simpl. rewrite Hde.
    fold e2. rewrite Z.sub_diag. simpl.
    destruct (Z.leb_spec e2 (1024 - 53)); [reflexivity|lia]. }
  rewrite Hw. unfold to_float, binary_round.
  rewrite Hde, Hf. unfold shl_align.
  destruct (e - e2) as [|q'|q'] eqn:Hq'; try lia.
  unfold binary_round_aux, shr_fexp. simpl Zdigits2. rewrite Hde, Hf, Hq'.
  unfold shr. rewrite iter_pos_nat.
  replace (Pos.to_nat q') with n by lia.
  simpl shr_record_of_loc. unfold mz. rewrite shr_shifted.
  simpl. fold d.
  replace (e2 + Zpos q') with e by lia.
  rewrite Hf, Z.sub_diag. simpl.
  destruct (Z.leb_spec e (128 - 24)); [reflexivity|lia].
Qed.
End Conversion_facts.

(** ** The strided loop [for (i = start; i < n; i += stride)]

    It is the cyclic assignment of the MPI program and the record loop of
    each CUDA thread. *)

Module Loop_facts.
Import MPI.

Lemma cyclic_loop_acc fuel i n stride acc :
  cyclic_loop fuel i n stride acc = acc ++ cyclic_loop fuel i n stride [].
Proof.
  revert i acc. induction fuel as [|fuel IH]; intros i acc; simpl.
  - now rewrite app_nil_r.
  - destruct (i <? n); [|now rewrite app_nil_r].
    rewrite (IH _ (acc ++ [i])), (IH _ ([] ++ [i])).
    now rewrite <- app_assoc.
Qed.

Lemma cyclic_loop_unfold fuel i n stride :
  cyclic_loop (S fuel) i n stride [] =
  if i <? n then i :: cyclic_loop fuel (i + stride) n stride [] else [].
Proof.
  simpl. destruct (i <? n); [|reflexivity].
  now rewrite cyclic_loop_acc.
Qed.

(** With enough fuel the loop stops on its own test, and it visits
    exactly the indices [i, i + stride, i + 2 stride, ...] below [n]. *)
Lemma elem_of_cyclic_loop fuel i n stride x :
  1 <= stride -> n - i <= Z.of_nat fuel ->
  x ∈ cyclic_loop fuel i n stride [] <->
  i <= x < n /\ (x - i) mod stride = 0.
Proof.
  intros Hs. revert i. induction fuel as [|fuel IH]; intros i Hf.
  - simpl. split; [intros H; inversion H|lia].
  - rewrite cyclic_loop_unfold. destruct (Z.ltb_spec i n) as [Hin|Hin].
    + rewrite elem_of_cons, IH by lia. split.
      * intros [->|[[H1 H2] H3]].
        { rewrite Z.sub_diag, Z.mod_0_l by lia. lia. }
        split; [lia|].
        replace (x - i) with ((x - (i + stride)) + 1 * stride) by lia.
        rewrite Z.mod_add by lia. exact H3.
      * intros [[H1 H2] H3].
        destruct (Z.eq_dec x i) as [->|Hne]; [now left|right].
        assert (stride <= x - i).
        { apply Z.mod_divide in H3; [|lia]. destruct H3 as [q Hq].
          assert (0 < q) by nia. nia. }
        split; [lia|].
        replace (x - (i + stride)) with ((x - i) + (-1) * stride) by lia.
        rewrite Z.mod_add by lia. exact H3.
    + split; [intros H; inversion H|lia].
Qed.

Lemma cyclic_loop_lower fuel i n stride x :
  1 <= stride -> x ∈ cyclic_loop fuel i n stride [] -> i <= x.
Proof.
  intros Hs. revert i. induction fuel as [|fuel IH]; intros i.
  - simpl. intros H; inversion H.
  - rewrite cyclic_loop_unfold. destruct (i <? n); [|intros H; inversion H].
    rewrite elem_of_cons. intros [->|H]; [lia|]. apply IH in H. lia.
Qed.

Lemma NoDup_cyclic_loop fuel i n stride :
  1 <= stride -> NoDup (cyclic_loop fuel i n stride []).
Proof.
  intros Hs. revert i. induction fuel as [|fuel IH]; intros i.
  - constructor.
  - rewrite cyclic_loop_unfold. destruct (i <? n); [|constructor].
    constructor; [|apply IH].
    intros H. apply cyclic_loop_lower in H; lia.
Qed.

(** The loops started at [0, 1, ..., stride - 1], taken in any order,
    visit every index below [n] exactly once. *)
Lemma cyclic_loops_permutation starts n stride :
  0 <= n -> 1 <= stride -> starts ≡ₚ seqZ 0 stride ->
  (starts ≫= fun g => cyclic_loop (Z.to_nat n) g n stride []) ≡ₚ seqZ 0 n.
Proof.
  intros Hn Hs Hp.
  assert (Hstarts : forall g, g ∈ starts <-> 0 <= g < stride).
  { intros g. rewrite Hp, elem_of_seqZ. lia. }
  assert (Hin : forall g x, g ∈ starts ->
            (x ∈ cyclic_loop (Z.to_nat n) g n stride [] <->
             g <= x < n /\ (x - g) mod stride = 0)).
  { intros g x Hg. apply Hstarts in Hg. apply elem_of_cyclic_loop; lia. }
  apply NoDup_Permutation.
  - apply NoDup_bind.
    + intros g1 g2 x Hg1 Hg2 H1 H2.
      apply Hin in H1, H2; try assumption.
      apply Hstarts in Hg1, Hg2.
      destruct H1 as [H1 H1'], H2 as [H2 H2'].
      apply Z.mod_divide in H1', H2'; try lia.
      destruct H1' as [q1 Hq1], H2' as [q2 Hq2].
      assert (g1 - g2 = (q2 - q1) * stride) by lia.
      assert (q2 - q1 = 0) by nia. lia.
    + intros g _. apply NoDup_cyclic_loop; lia.
    + rewrite Hp. apply NoDup_seqZ.
  - apply NoDup_seqZ.
  - intros x. rewrite list_elem_of_bind, elem_of_seqZ. split.
    + intros (g & Hx & Hg). apply Hin in Hx; [|assumption].
      apply Hstarts in Hg. lia.
    + intros Hx. exists (x mod stride).
      assert (0 <= x mod stride < stride) by (apply Z.mod_pos_bound; lia).
      assert (Hg : x mod stride ∈ starts) by now apply Hstarts.
      split; [|assumption]. apply Hin; [assumption|].
      split.
      * pose proof (Z.mod_le x stride). lia.
      * rewrite Zminus_mod, Zmod_mod, Z.sub_diag. apply Z.mod_0_l. lia.
Qed.
End Loop_facts.

(** ** The algebra of the exact fields *)

Module Exact_facts.
Import CUDA Exact IEEE_facts.

Lemma zip_add_comm (l k : list Z) : zip_with Z.add l k = zip_with Z.add k l.
Proof.
  revert k. induction l as [|x l IH]; intros [|y k]; simpl; try reflexivity.
  rewrite IH. f_equal. lia.
Qed.

Lemma zip_add_assoc (l k j : list Z) :
  zip_with Z.add l (zip_with Z.add k j) = zip_with Z.add (zip_with Z.add l k) j.
Proof.
  revert k j. induction l as [|x l IH]; intros [|y k] [|z j]; simpl; try reflexivity.
  rewrite IH. f_equal. lia.
Qed.

Lemma zip_add_zeros (l : list Z) n :
  length l = n -> zip_with Z.add l (replicate n 0) = l.
Proof.
  revert n. induction l as [|x l IH]; intros [|n] H; simpl in *; try discriminate;
    try reflexivity.
  rewrite IH by lia. f_equal. lia.
Qed.

Lemma zip_add_unit (l : list Z) n m :
  length l = n ->
  zip_with Z.add l (<[m := 1]> (replicate n 0)) = alter (fun c => c + 1) m l.
Proof.
  revert n m. induction l as [|x l IH]; intros [|n] m H; simpl in *;
    try discriminate; try reflexivity.
  destruct m as [|m]; simpl.
  - rewrite zip_add_zeros by lia. reflexivity.
  - rewrite IH by lia. f_equal. lia.
Qed.

Lemma join_comm a b : join a b = join b a.
Proof.
  unfold join. f_equal; try lia.
  - apply fminf_comm.
  - apply fmaxf_comm.
  - apply zip_add_comm.
Qed.

Lemma join_assoc a b c : join a (join b c) = join (join a b) c.
Proof.
  unfold join; simpl. f_equal; try lia.
  - apply fminf_assoc.
  - apply fmaxf_assoc.
  - apply zip_add_assoc.
Qed.

Lemma of_slot_combine a b : of_slot (combine a b) = join (of_slot a) (of_slot b).
Proof. reflexivity. Qed.

Lemma fminf_nan_r x : fminf x S754_nan = x.
Proof. destruct x as [[]|[]| |[] ? ?]; reflexivity. Qed.

Lemma fmaxf_nan_r x : fmaxf x S754_nan = x.
Proof. destruct x as [[]|[]| |[] ? ?]; reflexivity. Qed.

Lemma of_slot_accumulate p r :
  length (sh_monthly_count p) = 12%nat ->
  of_slot (accumulate p r) = join (of_slot p) (of_record r).
Proof.
  intros Hl. unfold accumulate, of_record, join, of_slot.
  destruct (valid_temp r), (valid_precip r); cbn -[replicate];
    destruct ((0 <=? month r) && (month r <? 12)); cbn -[replicate];
    rewrite ?zip_add_unit, ?zip_add_zeros, ?fminf_nan_r, ?fmaxf_nan_r, ?Z.add_0_r
      by assumption; reflexivity.
Qed.

Lemma is_float_fminf x y : is_float x = true -> is_float y = true ->
  is_float (fminf x y) = true.
Proof. intros. destruct (fminf_choice x y) as [->| ->]; assumption. Qed.

Lemma is_float_fmaxf x y : is_float x = true -> is_float y = true ->
  is_float (fmaxf x y) = true.
Proof. intros. destruct (fmaxf_choice x y) as [->| ->]; assumption. Qed.

Lemma wf_init : wf init_slot.
Proof. repeat split. Qed.

Lemma wf_accumulate p r : float_temp r -> wf p -> wf (accumulate p r).
Proof.
  intros Hr (Hl & Hmin & Hmax). unfold wf, accumulate, float_temp in *.
  destruct (valid_temp r), (valid_precip r); simpl;
    try destruct ((0 <=? month r) && (month r <? 12)); simpl;
    rewrite ?length_alter; repeat split;
    auto using is_float_fminf, is_float_fmaxf.
Qed.

Lemma wf_combine a b : wf a -> wf b -> wf (combine a b).
Proof.
  intros (Hl & Hmin & Hmax) (Hl' & Hmin' & Hmax'). unfold wf; simpl.
  rewrite length_zip_with. repeat split;
    auto using is_float_fminf, is_float_fmaxf. lia.
Qed.

Lemma join_init_init : join (of_slot init_slot) (of_slot init_slot) = of_slot init_slot.
Proof. reflexivity. Qed.

Lemma fold_join_shift e x rs :
  fold_left (fun e r => join e (of_record r)) rs (join x e)
  = join x (fold_left (fun e r => join e (of_record r)) rs e).
Proof.
  revert e. induction rs as [|r rs IH]; intros e; simpl; [reflexivity|].
  rewrite <- join_assoc. apply IH.
Qed.

Lemma of_records_app r1 r2 :
  of_records (r1 ++ r2) = join (of_records r1) (of_records r2).
Proof.
  unfold of_records. rewrite fold_left_app.
  rewrite <- fold_join_shift. f_equal.
  rewrite join_comm, <- fold_join_shift, join_init_init. reflexivity.
Qed.

Lemma of_records_perm r1 r2 : r1 ≡ₚ r2 -> of_records r1 = of_records r2.
Proof.
  intros Hp. unfold of_records. generalize (of_slot init_slot).
  induction Hp as [|x l l' _ IH|x y l|l l' l'' _ IH1 _ IH2]; intros e; simpl.
  - reflexivity.
  - apply IH.
  - f_equal. rewrite <- !join_assoc. f_equal. apply join_comm.
  - now rewrite IH1.
Qed.

Lemma holds_init : holds init_slot [].
Proof. split; [apply wf_init|reflexivity]. Qed.

Lemma holds_accumulate p rs r :
  float_temp r -> holds p rs -> holds (accumulate p r) (rs ++ [r]).
Proof.
  intros Hr [Hwf He]. split; [now apply wf_accumulate|].
  rewrite of_slot_accumulate by apply Hwf.
  unfold of_records in *. rewrite fold_left_app. simpl. now rewrite He.
Qed.

Lemma holds_fold p rs rs' :
  Forall float_temp rs' -> holds p rs ->
  holds (fold_left accumulate rs' p) (rs ++ rs').
Proof.
  intros Hf. revert p rs. induction Hf as [|r rs' Hr _ IH]; intros p rs Hp; simpl.
  - now rewrite app_nil_r.
  - replace (rs ++ r :: rs') with ((rs ++ [r]) ++ rs') by now rewrite <- app_assoc.
    apply IH. now apply holds_accumulate.
Qed.

Lemma holds_combine a b ra rb :
  holds a ra -> holds b rb -> holds (combine a b) (ra ++ rb).
Proof.
  intros [Hwa Ha] [Hwb Hb]. split; [now apply wf_combine|].
  now rewrite of_slot_combine, of_records_app, Ha, Hb.
Qed.

Lemma holds_perm p rs rs' : rs ≡ₚ rs' -> holds p rs -> holds p rs'.
Proof. intros Hp [Hw He]. split; [assumption|]. now rewrite <- (of_records_perm _ _ Hp). Qed.
End Exact_facts.

(** ** The kernel: threads, tree reduction, final writes *)

Module Kernel_facts.
Import CUDA Exact Visit IEEE_facts Exact_facts Loop_facts Conversion_facts.

Lemma thread_loop_fold fuel records n idx stride p :
  thread_loop fuel records n idx stride p
  = fold_left accumulate
      (visited records (MPI.cyclic_loop fuel idx n stride [])) p.
Proof.
  revert idx p. induction fuel as [|fuel IH]; intros idx p; [reflexivity|].
  rewrite cyclic_loop_unfold. cbn [thread_loop].
  destruct (idx <? n); [|reflexivity].
  rewrite IH. unfold visited. cbn [omap list_omap].
  destruct (records !! Z.to_nat idx); reflexivity.
Qed.

Lemma visited_app records l k :
  visited records (l ++ k) = visited records l ++ visited records k.
Proof. apply omap_app. Qed.

Lemma visited_bind {A} records (f : A -> list Z) l :
  visited records (l ≫= f) = l ≫= (fun x => visited records (f x)).
Proof.
  induction l as [|x l IH]; [reflexivity|].
  rewrite !bind_cons, visited_app, IH. reflexivity.
Qed.

Lemma visited_from pre rs :
  visited (pre ++ rs) (seqZ (Z.of_nat (length pre)) (Z.of_nat (length rs))) = rs.
Proof.
  revert pre. induction rs as [|r rs IH]; intros pre; [reflexivity|].
  rewrite seqZ_cons by (simpl; lia).
  unfold visited. cbn [omap list_omap]. rewrite Nat2Z.id.
  rewrite list_lookup_middle by reflexivity. f_equal.
  specialize (IH (pre ++ [r])). rewrite <- app_assoc in IH. simpl in IH.
  rewrite length_app in IH. simpl length in IH.
  replace (Z.succ (Z.of_nat (length pre))) with (Z.of_nat (length pre + 1)) by lia.
  replace (Z.pred (Z.of_nat (length (r :: rs)))) with (Z.of_nat (length rs))
    by (simpl length; lia).
  exact IH.
Qed.

Lemma visited_all records :
  visited records (seqZ 0 (Z.of_nat (length records))) = records.
Proof. apply (visited_from [] records). Qed.

Lemma visited_perm records l k : l ≡ₚ k -> visited records l ≡ₚ visited records k.
Proof. intros H. unfold visited. now rewrite H. Qed.

Lemma Forall_visited (P : WeatherRecord -> Prop) records l :
  Forall P records -> Forall P (visited records l).
Proof.
  intros H. unfold visited. apply Forall_forall. intros r Hr.
  apply list_elem_of_omap in Hr as (i & _ & Hi).
  rewrite Forall_forall in H. apply H. eapply list_elem_of_lookup_2, Hi.
Qed.

(** Each thread's slot holds the exact fields of the records it visits. *)
Lemma holds_thread_partial gridDim blockDim records n b tid :
  Forall float_temp records ->
  holds (thread_partial gridDim blockDim records n b tid)
        (visited records (thread_indices gridDim blockDim n b tid)).
Proof.
  intros Hf. unfold thread_partial, thread_indices. rewrite thread_loop_fold.
  apply (holds_fold init_slot []); [|apply holds_init].
  now apply Forall_visited.
Qed.

(** *** The tree reduction of a block *)

Lemma reduce_step_low s sh i a b :
  Z.of_nat i < s -> sh !! i = Some a -> sh !! (i + Z.to_nat s)%nat = Some b ->
  reduce_step s sh !! i = Some (combine a b).
Proof.
  intros Hi Ha Hb. unfold reduce_step. rewrite list_lookup_imap, Ha. simpl.
  destruct (Z.ltb_spec (Z.of_nat i) s); [|lia]. now rewrite Hb.
Qed.

Lemma bind_split {A B} (f g : A -> list B) l :
  (l ≫= fun i => f i ++ g i) ≡ₚ (l ≫= f) ++ (l ≫= g).
Proof.
  induction l as [|x l IH]; [reflexivity|].
  rewrite !bind_cons, IH.
  rewrite <- !app_assoc. apply Permutation_app_head.
  rewrite !app_assoc. apply Permutation_app_tail, Permutation_app_comm.
Qed.

Lemma pow2_nat j : Z.to_nat (2 ^ Z.of_nat j) = (2 ^ j)%nat.
Proof.
  rewrite <- (Nat2Z.id (2 ^ j)). f_equal.
  rewrite Nat2Z.inj_pow. reflexivity.
Qed.

Lemma reduce_loop_zero fuel sh : reduce_loop fuel 0 sh = sh.
Proof. destruct fuel; reflexivity. Qed.

(** A round with stride [2^j] turns slots that hold the record lists
    [L 0 .. L (2^(j+1) - 1)] into slots that hold the lists
    [L i ++ L (i + 2^j)], for [i < 2^j]. *)
Lemma tree_reduce j : forall fuel sh (L : nat -> list WeatherRecord),
  (j < fuel)%nat ->
  (forall i, (i < 2 ^ S j)%nat -> exists p, sh !! i = Some p /\ holds p (L i)) ->
  exists p0, reduce_loop fuel (2 ^ Z.of_nat j) sh !! 0%nat = Some p0 /\
             holds p0 (seq 0 (2 ^ S j) ≫= L).
Proof.
  induction j as [|j IH]; intros fuel sh L Hfuel Hsh.
  - destruct fuel as [|fuel]; [lia|]. cbn [reduce_loop].
    change (2 ^ Z.of_nat 0) with 1. change (1 >? 0) with true. cbv iota.
    change (Z.shiftr 1 1) with 0. rewrite reduce_loop_zero.
    destruct (Hsh 0%nat) as (a & Ha & Hha); [simpl; lia|].
    destruct (Hsh 1%nat) as (b & Hb & Hhb); [simpl; lia|].
    exists (combine a b). split.
    + apply reduce_step_low; [lia|assumption|exact Hb].
    + change (seq 0 (2 ^ 1)) with [0%nat; 1%nat].
      rewrite bind_cons, bind_singleton. now apply holds_combine.
  - destruct fuel as [|fuel]; [lia|]. cbn [reduce_loop].
    set (s := 2 ^ Z.of_nat (S j)).
    assert (Hs : s = 2 * 2 ^ Z.of_nat j).
    { unfold s. rewrite Nat2Z.inj_succ, Z.pow_succ_r by lia. reflexivity. }
    assert (Hpos : 0 < 2 ^ Z.of_nat j) by (apply Z.pow_pos_nonneg; lia).
    destruct (Z.gtb_spec s 0) as [_|]; [|lia].
    assert (Hhalf : Z.shiftr s 1 = 2 ^ Z.of_nat j).
    { rewrite Z.shiftr_div_pow2 by lia. rewrite Hs.
      change (2 ^ 1) with 2. rewrite Z.mul_comm, Z.div_mul by lia. reflexivity. }
    rewrite Hhalf.
    assert (Hsn : Z.to_nat s = (2 ^ S j)%nat) by apply pow2_nat.
    destruct (IH fuel (reduce_step s sh) (fun i => L i ++ L (i + 2 ^ S j)%nat))
      as (p0 & Hp0 & Hh); [lia| |].
    + intros i Hi.
      destruct (Hsh i) as (a & Ha & Hha).
      { change (2 ^ S (S j))%nat with (2 * 2 ^ S j)%nat. lia. }
      destruct (Hsh (i + 2 ^ S j)%nat) as (b & Hb & Hhb).
      { change (2 ^ S (S j))%nat with (2 * 2 ^ S j)%nat. lia. }
      exists (combine a b). split; [|now apply holds_combine].
      apply reduce_step_low; [|assumption|now rewrite Hsn].
      apply Nat2Z.inj_lt in Hi. rewrite <- Hsn in Hi. rewrite Z2Nat.id in Hi; lia.
    + exists p0. split; [assumption|].
      eapply holds_perm; [|exact Hh].
      rewrite bind_split.
      change (2 ^ S (S j))%nat with (2 * 2 ^ S j)%nat.
      replace (2 * 2 ^ S j)%nat with (2 ^ S j + 2 ^ S j)%nat by lia.
      rewrite seq_app, bind_app. apply Permutation_app_head.
      replace (seq (0 + 2 ^ S j) (2 ^ S j))
        with (Nat.add (2 ^ S j) <$> seq 0 (2 ^ S j))
        by (rewrite fmap_add_seq; f_equal; lia).
      rewrite list_fmap_bind.
      erewrite list_bind_ext; [reflexivity| |reflexivity].
      intros i. simpl. f_equal. lia.
Qed.

(** Slot 0 of a block of [2^k] threads ends up holding the exact fields
    of all the records the block's threads visited. *)
Lemma holds_block gridDim k records n b :
  Forall float_temp records ->
  exists p,
    block_shared gridDim (2 ^ Z.of_nat k) records n b !! 0%nat = Some p /\
    holds p (visited records (block_indices gridDim (2 ^ Z.of_nat k) n b)).
Proof.
  intros Hf. unfold block_shared, block_indices, block_reduce.
  rewrite visited_bind, pow2_nat.
  set (B := 2 ^ Z.of_nat k).
  set (sh := thread_partial gridDim B records n b <$> seqZ 0 B).
  assert (Hsh : forall i, (i < 2 ^ k)%nat ->
            exists p, sh !! i = Some p /\
              holds p (visited records (thread_indices gridDim B n b (Z.of_nat i)))).
  { intros i Hi. exists (thread_partial gridDim B records n b (Z.of_nat i)). split.
    - unfold sh. rewrite list_lookup_fmap, lookup_seqZ_lt; [reflexivity|].
      unfold B. rewrite <- (Z2Nat.id (2 ^ Z.of_nat k)), pow2_nat by lia. lia.
    - now apply holds_thread_partial. }
  destruct k as [|j].
  - change (Z.quot B 2) with 0. rewrite reduce_loop_zero.
    destruct (Hsh 0%nat) as (p & Hp & Hh); [simpl; lia|].
    exists p. split; [assumption|].
    change (seq 0 (2 ^ 0)) with [0%nat]. now rewrite bind_singleton.
  - assert (Hq : Z.quot B 2 = 2 ^ Z.of_nat j).
    { unfold B. rewrite Nat2Z.inj_succ, Z.pow_succ_r by lia.
      rewrite Z.mul_comm, Z.quot_mul by lia. reflexivity. }
    rewrite Hq. apply tree_reduce; [|exact Hsh].
    clear. induction j as [|j IH]; [simpl; lia|].
    change (2 ^ S (S j))%nat with (2 * 2 ^ S j)%nat. lia.
Qed.

(** *** The final writes, block after block *)

Lemma to_float_DBL_MAX : to_float DBL_MAX = S754_infinity false.
Proof. reflexivity. Qed.

Lemma to_float_neg_DBL_MAX : to_float (fneg DBL_MAX) = S754_infinity true.
Proof. reflexivity. Qed.

Lemma merge_first p :
  wf p -> of_outputs (merge init_outputs p) = publish (of_slot p).
Proof.
  intros (Hl & _ & _). unfold of_outputs, publish, of_slot, merge. cbn -[replicate].
  f_equal.
  rewrite zip_add_comm. now apply zip_add_zeros.
Qed.

Lemma merge_next out q p :
  wf q -> wf p -> of_outputs out = publish (of_slot q) ->
  of_outputs (merge out p) = publish (of_slot (combine q p)).
Proof.
  intros (Hlq & Hminq & Hmaxq) (Hlp & Hminp & Hmaxp) Ho.
  unfold of_outputs, publish, of_slot in *. simpl in *.
  injection Ho as Hc Hmin Hmax Hpc Hmc.
  rewrite Hc, Hmin, Hmax, Hpc, Hmc.
  rewrite !to_float_to_double.
  - now rewrite <- fminf_assoc, <- fmaxf_assoc.
  - apply is_float_fmaxf; [reflexivity|assumption].
  - apply is_float_fminf; [reflexivity|assumption].
Qed.

Lemma merge_blocks gridDim k records n order : forall out q rs,
  Forall float_temp records ->
  holds q rs -> of_outputs out = publish (of_slot q) ->
  exists q',
    of_outputs (process_weather_records gridDim (2 ^ Z.of_nat k) order records n out)
    = publish (of_slot q') /\
    holds q' (rs ++ visited records
                      (order ≫= block_indices gridDim (2 ^ Z.of_nat k) n)).
Proof.
  induction order as [|b order IH]; intros out q rs Hf Hq Ho.
  - exists q. simpl. rewrite app_nil_r. auto.
  - unfold process_weather_records. cbn [fold_left].
    destruct (holds_block gridDim k records n b Hf) as (p & Hp & Hh).
    rewrite Hp.
    destruct (IH (merge out p) (combine q p)
                (rs ++ visited records (block_indices gridDim (2 ^ Z.of_nat k) n b)))
      as (q' & Hq' & Hh'); [assumption|now apply holds_combine| |].
    { apply merge_next; [apply Hq|apply Hh|assumption]. }
    exists q'. split; [exact Hq'|].
    rewrite bind_cons, visited_app, app_assoc. exact Hh'.
Qed.

(** *** Every record is visited exactly once *)

Lemma bind_bind {A B C} (f : A -> list B) (g : B -> list C) l :
  (l ≫= fun x => f x ≫= g) = (l ≫= f) ≫= g.
Proof.
  induction l as [|x l IH]; [reflexivity|].
  now rewrite !bind_cons, bind_app, IH.
Qed.

Lemma thread_starts_permutation gridDim blockDim order :
  0 < blockDim -> 0 <= gridDim -> order ≡ₚ seqZ 0 gridDim ->
  (order ≫= fun b => (fun tid => b * blockDim + Z.of_nat tid)
                       <$> seq 0 (Z.to_nat blockDim))
  ≡ₚ seqZ 0 (blockDim * gridDim).
Proof.
  intros HB HG Hp.
  assert (Ho : forall b, b ∈ order <-> 0 <= b < gridDim).
  { intros b. rewrite Hp, elem_of_seqZ. lia. }
  assert (Hin : forall b g,
            g ∈ (fun tid => b * blockDim + Z.of_nat tid) <$> seq 0 (Z.to_nat blockDim)
            <-> b * blockDim <= g < b * blockDim + blockDim).
  { intros b g. rewrite list_elem_of_fmap. split.
    - intros (tid & -> & Ht). apply elem_of_seq in Ht. lia.
    - intros Hg. exists (Z.to_nat (g - b * blockDim)). split; [lia|].
      apply elem_of_seq. lia. }
  apply NoDup_Permutation.
  - apply NoDup_bind.
    + intros b1 b2 g _ _ H1 H2. apply Hin in H1, H2. nia.
    + intros b _. apply NoDup_fmap_2; [|apply NoDup_seq].
      intros t1 t2 Ht. lia.
    + rewrite Hp. apply NoDup_seqZ.
  - apply NoDup_seqZ.
  - intros g. rewrite list_elem_of_bind, elem_of_seqZ. split.
    + intros (b & Hg & Hb). apply Hin in Hg. apply Ho in Hb. nia.
    + intros Hg. exists (g / blockDim).
      pose proof (Z.div_mod g blockDim ltac:(lia)) as Hdm.
      pose proof (Z.mod_pos_bound g blockDim HB) as Hm.
      assert (0 <= g / blockDim) by (apply Z.div_pos; lia).
      assert (g / blockDim < gridDim).
      { apply Z.div_lt_upper_bound; lia. }
      split; [apply Hin; nia|apply Ho; lia].
Qed.

Lemma all_indices_permutation gridDim blockDim n order :
  0 < blockDim -> 1 <= gridDim -> 0 <= n -> order ≡ₚ seqZ 0 gridDim ->
  (order ≫= block_indices gridDim blockDim n) ≡ₚ seqZ 0 n.
Proof.
  intros HB HG Hn Hp.
  rewrite <- (cyclic_loops_permutation
                (order ≫= fun b => (fun tid => b * blockDim + Z.of_nat tid)
                                     <$> seq 0 (Z.to_nat blockDim))
                n (blockDim * gridDim)); [|lia|nia|].
  - rewrite <- bind_bind.
    erewrite list_bind_ext; [reflexivity| |reflexivity].
    intros b. unfold block_indices, thread_indices.
    now rewrite list_fmap_bind.
  - now apply thread_starts_permutation; try lia.
Qed.

Lemma cyclic_loop_stride_1 fuel i n :
  n - i <= Z.of_nat fuel -> MPI.cyclic_loop fuel i n 1 [] = seqZ i (n - i).
Proof.
  revert i. induction fuel as [|fuel IH]; intros i Hf.
  - simpl. unfold seqZ. replace (Z.to_nat (n - i)) with 0%nat by lia. reflexivity.
  - rewrite cyclic_loop_unfold. destruct (Z.ltb_spec i n).
    + rewrite IH by lia. rewrite (seqZ_cons i) by lia.
      f_equal. f_equal; lia.
    + unfold seqZ. replace (Z.to_nat (n - i)) with 0%nat by lia. reflexivity.
Qed.

(** The launch [<<<1, 1>>>] is the single-threaded left fold over the
    records in their order, followed by the final writes. *)
Lemma single_thread_is_fold records :
  process_weather_records 1 1 [0] records (Z.of_nat (length records)) init_outputs
  = merge init_outputs (fold_left accumulate records init_slot).
Proof.
  unfold process_weather_records, block_shared, block_reduce. cbn [fold_left].
  change (Z.quot 1 2) with 0. rewrite reduce_loop_zero.
  change (seqZ 0 1) with [0]. cbn [fmap list_fmap lookup list_lookup].
  unfold thread_partial. rewrite thread_loop_fold.
  change (0 * 1 + 0) with 0. change (1 * 1) with 1.
  rewrite cyclic_loop_stride_1 by lia.
  now rewrite Z.sub_0_r, visited_all.
Qed.

(** For any number of blocks of [2^k] threads, finishing in any order
    without interfering, the counts and the extrema are those of the
    single-threaded left fold. *)
Lemma exact_fields_agree records gridDim k finish_order :
  1 <= gridDim -> finish_order ≡ₚ seqZ 0 gridDim ->
  Forall float_temp records ->
  of_outputs (process_weather_records gridDim (2 ^ Z.of_nat k) finish_order
                records (Z.of_nat (length records)) init_outputs)
  = of_outputs (merge init_outputs (fold_left accumulate records init_slot)).
Proof.
  intros HG Hp Hf.
  set (n := Z.of_nat (length records)).
  assert (HB : 0 < 2 ^ Z.of_nat k) by (apply Z.pow_pos_nonneg; lia).
  pose proof (holds_fold init_slot [] records Hf holds_init) as [Hwf Hfold].
  rewrite (merge_first _ Hwf).
  destruct finish_order as [|b order].
  { apply Permutation_length in Hp. rewrite length_seqZ in Hp. simpl in Hp. lia. }
  pose proof (all_indices_permutation gridDim (2 ^ Z.of_nat k) n (b :: order)
                HB HG ltac:(lia) Hp) as Hall.
  unfold process_weather_records. cbn [fold_left].
  destruct (holds_block gridDim k records n b Hf) as (p & Hpb & Hh).
  rewrite Hpb.
  destruct (merge_blocks gridDim k records n order (merge init_outputs p) p _ Hf Hh)
    as (q & Hq & Hhq).
  { apply merge_first, Hh. }
  unfold process_weather_records in Hq. rewrite Hq. f_equal.
  rewrite <- visited_app, <- bind_cons in Hhq.
  apply (holds_perm _ _ records) in Hhq.
  - destruct Hhq as [_ ->]. now rewrite Hfold.
  - rewrite (visited_perm _ _ _ Hall). unfold n. now rewrite visited_all.
Qed.
End Kernel_facts.

(** ** The combine operation (claims C1 and C7) *)

Module Combine.
Import CUDA Exact Scenario IEEE_facts Exact_facts.

Lemma fminf_is_least x y :
  is_nan x = false -> is_nan y = false ->
  (fminf x y = x \/ fminf x y = y) /\
  fle (fminf x y) x = true /\ fle (fminf x y) y = true.
Proof.
  intros Hx Hy. split; [apply fminf_choice|].
  assert (Hn : is_nan (fminf x y) = false)
    by (destruct (fminf_choice x y) as [->| ->]; assumption).
  split; apply min_le_fle; try assumption.
  - apply min_le_fminf_l.
  - rewrite fminf_comm. apply min_le_fminf_l.
Qed.

Lemma fmaxf_is_greatest x y :
  is_nan x = false -> is_nan y = false ->
  (fmaxf x y = x \/ fmaxf x y = y) /\
  fle x (fmaxf x y) = true /\ fle y (fmaxf x y) = true.
Proof.
  intros Hx Hy. split; [apply fmaxf_choice|].
  assert (Hn : is_nan (fmaxf x y) = false)
    by (destruct (fmaxf_choice x y) as [->| ->]; assumption).
  split; apply max_le_fle; try assumption.
  - apply max_le_fmaxf_l.
  - rewrite fmaxf_comm. apply max_le_fmaxf_l.
Qed.

(** C1.  [combine a b] adds the counts and the sums, takes the lesser
    minimum and the greater maximum ([fminf] and [fmaxf] return one of
    their arguments, below resp. above both, when neither is a NaN), and
    does the same in each of the monthly buckets.  In scenario A, the
    slot of a worker that folded [10] combined with the slot of a worker
    that folded [20; 30] has count 3, sum 60, minimum 10, maximum 30. *)
Theorem combine_contract :
  (forall a b : Slot,
     let c := combine a b in
     sh_temp_count c = sh_temp_count a + sh_temp_count b /\
     sh_temp_sum c = fadd (sh_temp_sum a) (sh_temp_sum b) /\
     sh_temp_min c = fminf (sh_temp_min a) (sh_temp_min b) /\
     sh_temp_max c = fmaxf (sh_temp_max a) (sh_temp_max b) /\
     sh_precip_sum c = fadd (sh_precip_sum a) (sh_precip_sum b) /\
     sh_precip_count c = sh_precip_count a + sh_precip_count b /\
     (forall (m : nat) x y,
        sh_monthly_temp a !! m = Some x -> sh_monthly_temp b !! m = Some y ->
        sh_monthly_temp c !! m = Some (fadd x y)) /\
     (forall (m : nat) x y,
        sh_monthly_count a !! m = Some x -> sh_monthly_count b !! m = Some y ->
        sh_monthly_count c !! m = Some (x + y))) /\
  (forall x y : float,
     is_nan x = false -> is_nan y = false ->
     ((fminf x y = x \/ fminf x y = y) /\
      fle (fminf x y) x = true /\ fle (fminf x y) y = true) /\
     ((fmaxf x y = x \/ fmaxf x y = y) /\
      fle x (fmaxf x y) = true /\ fle y (fmaxf x y) = true)) /\
  (let c := combine worker_1 worker_2 in
   sh_temp_count c = 3 /\
   sh_temp_sum c = float_of_Z 60 /\
   sh_temp_min c = float_of_Z 10 /\
   sh_temp_max c = float_of_Z 30 /\
   sh_monthly_count c !! 0%nat = Some 3 /\
   sh_monthly_temp c !! 0%nat = Some (float_of_Z 60)).
Proof.
  split; [|split].
  - intros a b c. repeat split.
    + intros m x y Ha Hb. unfold c, combine. cbn [sh_monthly_temp].
      rewrite lookup_zip_with, Ha, Hb. reflexivity.
    + intros m x y Ha Hb. unfold c, combine. cbn [sh_monthly_count].
      rewrite lookup_zip_with, Ha, Hb. reflexivity.
  - intros x y Hx Hy. split.
    + now apply fminf_is_least.
    + now apply fmaxf_is_greatest.
  - vm_compute. repeat split.
Qed.

(** In the tree reduction, a round with stride [s] installs
    [combine sh[tid] sh[tid + s]] in every slot [tid < s]. *)
Lemma reduce_step_combines s sh (tid : nat) a b :
  Z.of_nat tid < s -> sh !! tid = Some a -> sh !! (tid + Z.to_nat s)%nat = Some b ->
  reduce_step s sh !! tid = Some (combine a b).
Proof. apply Kernel_facts.reduce_step_low. Qed.

(** C7, as stated, fails: the initial slot has the minimum [FLT_MAX],
    so combining it with a slot whose minimum is plus infinity changes
    that minimum. *)
Lemma combine_identity_counterexample :
  sh_temp_min init_slot = FLT_MAX /\
  sh_temp_min init_slot <> S754_infinity false /\
  combine slot_with_infinite_min init_slot <> slot_with_infinite_min.
Proof.
  split; [reflexivity|]. split; [discriminate|].
  intros H. apply (f_equal sh_temp_min) in H. vm_compute in H. discriminate.
Qed.

Lemma idle_thread gridDim blockDim records n blockIdx tid :
  n <= blockIdx * blockDim + tid ->
  thread_partial gridDim blockDim records n blockIdx tid = init_slot.
Proof.
  intros H. unfold thread_partial.
  destruct (Z.to_nat n) as [|fuel]; [reflexivity|]. cbn [thread_loop].
  destruct (Z.ltb_spec (blockIdx * blockDim + tid) n); [lia|reflexivity].
Qed.

Lemma fadd_zero_r x : Produced.up_to_zero_sign (fadd x fzero) x.
Proof.
  destruct x as [s|s| |s m e]; try (left; reflexivity).
  right. unfold fadd, fzero. destruct s; simpl; eauto.
Qed.

Lemma fadd_zero_l x : Produced.up_to_zero_sign (fadd fzero x) x.
Proof.
  destruct x as [s|s| |s m e]; try (left; reflexivity).
  right. unfold fadd, fzero. destruct s; simpl; eauto.
Qed.

Lemma fadd_zero_r_eq x : Produced.not_negative_zero x -> fadd x fzero = x.
Proof. destruct x as [[]|s| |s m e]; try reflexivity. intros H. now destruct H. Qed.

Lemma fadd_zero_l_eq x : Produced.not_negative_zero x -> fadd fzero x = x.
Proof. destruct x as [[]|s| |s m e]; try reflexivity. intros H. now destruct H. Qed.

Lemma zip_fadd_zeros_r (l : list float) n :
  length l = n ->
  Forall2 Produced.up_to_zero_sign (zip_with fadd l (replicate n fzero)) l.
Proof.
  revert n. induction l as [|x l IH]; intros [|n] H;
    cbn [zip_with replicate length] in *; try discriminate;
    constructor; [apply fadd_zero_r|apply IH; lia].
Qed.

Lemma zip_fadd_zeros_l (l : list float) n :
  length l = n ->
  Forall2 Produced.up_to_zero_sign (zip_with fadd (replicate n fzero) l) l.
Proof.
  revert n. induction l as [|x l IH]; intros [|n] H;
    cbn [zip_with replicate length] in *; try discriminate;
    constructor; [apply fadd_zero_l|apply IH; lia].
Qed.

Lemma zip_fadd_zeros_r_eq (l : list float) n :
  length l = n -> Forall Produced.not_negative_zero l ->
  zip_with fadd l (replicate n fzero) = l.
Proof.
  intros Hl Hf. revert n Hl. induction Hf as [|x l Hx _ IH]; intros [|n] Hl;
    cbn [zip_with replicate length] in *; try discriminate; try reflexivity.
  rewrite fadd_zero_r_eq by assumption. f_equal. apply IH. lia.
Qed.

Lemma zip_fadd_zeros_l_eq (l : list float) n :
  length l = n -> Forall Produced.not_negative_zero l ->
  zip_with fadd (replicate n fzero) l = l.
Proof.
  intros Hl Hf. revert n Hl. induction Hf as [|x l Hx _ IH]; intros [|n] Hl;
    cbn [zip_with replicate length] in *; try discriminate; try reflexivity.
  rewrite fadd_zero_l_eq by assumption. f_equal. apply IH. lia.
Qed.

Lemma of_slot_combine_init a :
  Produced.bounded_slot a -> of_slot (combine a init_slot) = of_slot a.
Proof.
  intros (_ & Hl & Hmin & Hmax). unfold of_slot, combine, init_slot.
  cbn -[replicate FLT_MAX]. f_equal; try lia.
  - now apply fminf_absorb.
  - now apply fmaxf_absorb.
  - now apply zip_add_zeros.
Qed.

Lemma slot_eq p q :
  of_slot p = of_slot q ->
  sh_temp_sum p = sh_temp_sum q ->
  sh_precip_sum p = sh_precip_sum q ->
  sh_monthly_temp p = sh_monthly_temp q ->
  p = q.
Proof.
  destruct p, q. unfold of_slot. simpl. intros H. injection H. intros. subst.
  reflexivity.
Qed.

Lemma produced_bounded p rs : Produced.produced p rs -> Produced.bounded_slot p.
Proof.
  induction 1 as [|p rs r _ (Hl1 & Hl2 & Hmin & Hmax)
                  |a ra b rb _ (Ha1 & Ha2 & Hamin & Hamax) _ (Hb1 & Hb2 & Hbmin & Hbmax)].
  - repeat split.
  - unfold Produced.bounded_slot, accumulate.
    destruct (valid_temp r), (valid_precip r); cbn -[FLT_MAX];
      try destruct ((0 <=? month r) && (month r <? 12)); cbn -[FLT_MAX];
      rewrite ?length_alter; repeat split; try assumption.
    all: first [ eapply min_le_trans; [apply min_le_fminf_l|assumption]
               | eapply max_le_trans; [eassumption|apply max_le_fmaxf_l] ].
  - unfold Produced.bounded_slot, combine. cbn -[FLT_MAX].
    rewrite !length_zip_with. repeat split; try lia.
    + eapply min_le_trans; [apply min_le_fminf_l|exact Hamin].
    + eapply max_le_trans; [exact Hamax|apply max_le_fmaxf_l].
Qed.

(** C7, amended.  [combine] is commutative and associative on the
    counts and the extrema.  The initial slot, which is also the slot of
    a thread that visits no record, has the extrema [FLT_MAX] and
    [-FLT_MAX]; combined on either side with a slot [a] that has twelve
    buckets, a minimum at most [FLT_MAX] and a maximum at least
    [-FLT_MAX], it gives back the counts and the extrema of [a], and its
    sums up to the sign of a zero sum, hence [a] itself when no sum of
    [a] is the negative zero.  Every slot built from the initial one by
    [accumulate] and [combine] meets these conditions. *)
Theorem combine_algebra (a b c : Slot) (gridDim blockDim : Z)
    (records : list WeatherRecord) (n blockIdx tid : Z) :
  Produced.bounded_slot a ->
  n <= blockIdx * blockDim + tid ->
  let idle := thread_partial gridDim blockDim records n blockIdx tid in
  of_slot (combine a b) = of_slot (combine b a) /\
  of_slot (combine a (combine b c)) = of_slot (combine (combine a b) c) /\
  idle = init_slot /\
  sh_temp_min init_slot = FLT_MAX /\ sh_temp_max init_slot = fneg FLT_MAX /\
  of_slot (combine a idle) = of_slot a /\
  of_slot (combine idle a) = of_slot a /\
  Produced.sums_agree (combine a idle) a /\
  Produced.sums_agree (combine idle a) a /\
  (Produced.no_negative_zero_sum a -> combine a idle = a /\ combine idle a = a) /\
  (forall p rs, Produced.produced p rs -> Produced.bounded_slot p).
Proof.
  intros Ha Hidle idle.
  assert (Hi : idle = init_slot) by now apply idle_thread.
  rewrite Hi.
  assert (He : of_slot (combine a init_slot) = of_slot a) by now apply of_slot_combine_init.
  assert (He' : of_slot (combine init_slot a) = of_slot a)
    by (rewrite of_slot_combine, join_comm, <- of_slot_combine; exact He).
  destruct Ha as (Hl1 & Hl2 & Hmin & Hmax).
  split_and!.
  - rewrite !of_slot_combine. apply join_comm.
  - rewrite !of_slot_combine. apply join_assoc.
  - reflexivity.
  - reflexivity.
  - reflexivity.
  - exact He.
  - exact He'.
  - split_and!; [apply fadd_zero_r|apply fadd_zero_r|now apply zip_fadd_zeros_r].
  - split_and!; [apply fadd_zero_l|apply fadd_zero_l|now apply zip_fadd_zeros_l].
  - intros (H1 & H2 & H3). split.
    + apply slot_eq; [exact He|now apply fadd_zero_r_eq|now apply fadd_zero_r_eq|].
      now apply zip_fadd_zeros_r_eq.
    + apply slot_eq; [exact He'|now apply fadd_zero_l_eq|now apply fadd_zero_l_eq|].
      now apply zip_fadd_zeros_l_eq.
  - apply produced_bounded.
Qed.

Lemma worker_2_bounded : Produced.bounded_slot worker_2.
Proof. repeat split. Qed.

Lemma combine_algebra_witness :
  of_slot (combine worker_2 worker_1) = of_slot (combine worker_1 worker_2) /\
  combine worker_2 (thread_partial 1 256 [temperature 10] 1 0 5) = worker_2.
Proof.
  pose proof (combine_algebra worker_2 worker_1 init_slot 1 256 [temperature 10] 1 0 5
                worker_2_bounded ltac:(lia)) as H.
  cbv zeta in H.
  destruct H as (H1 & _ & _ & _ & _ & _ & _ & _ & _ & H10 & _).
  split; [exact H1|].
  apply H10. repeat split; try discriminate.
  vm_compute. repeat constructor; discriminate.
Defined.
End Combine.

(** ** The final writes of concurrent blocks (claim C2) *)

Module Race.
Import CUDA Scenario.

(** The accesses of one thread 0, run without interruption, amount to
    [merge]. *)
Lemma uninterrupted_is_merge out p :
  length (monthly_temp_sum_out out) = 12%nat ->
  length (monthly_temp_count_out out) = 12%nat ->
  length (sh_monthly_temp p) = 12%nat ->
  length (sh_monthly_count p) = 12%nat ->
  (interleave (replicate 32 0%nat) [start p] out).2 = merge out p.
Proof.
  destruct out as [s mn mx c ps pc ms mc], p as [qs qmn qmx qc qps qpc qms qmc].
  cbn [monthly_temp_sum_out monthly_temp_count_out sh_monthly_temp sh_monthly_count].
  intros H1 H2 H3 H4.
  do 13 (destruct ms as [|? ms]; try discriminate).
  do 13 (destruct mc as [|? mc]; try discriminate).
  do 13 (destruct qms as [|? qms]; try discriminate).
  do 13 (destruct qmc as [|? qmc]; try discriminate).
  reflexivity.
Qed.

(** C2.  The kernel does not update the global minimum atomically.  With
    two blocks whose minima are 5 and 3, there is an interleaving of the
    two thread 0s after which every access is done and the global
    minimum is 5, although either order of uninterrupted final writes
    gives 3; the count, which is updated by [atomicAdd], is 2 as it
    should be. *)
Theorem plain_minimum_update_loses_a_write :
  let '(threads, out) :=
    interleave racy_schedule [start block_of_5; start block_of_3] init_outputs in
  finished threads = true /\
  temp_min_out out = double_of_Z 5 /\
  temp_count_out out = 2 /\
  temp_min_out (merge (merge init_outputs block_of_5) block_of_3) = double_of_Z 3 /\
  temp_min_out (merge (merge init_outputs block_of_3) block_of_5) = double_of_Z 3.
Proof. vm_compute. repeat split. Qed.
End Race.

(** ** The local reduction of the CPU programs (claims C5, C8, C9) *)

Module Local_reduction.
Import CPU Lines IEEE_facts.

Section Atof.
Variable atof : string -> double.
Variable month_of : string -> Z.

Lemma process_line_record_count city line :
  record_count (process_line atof month_of city line) = record_count city + 1.
Proof.
  unfold process_line.
  destruct (Parse.present (Parse.get_field line 4 64)),
           (Parse.present (Parse.get_field line 7 64)); reflexivity.
Qed.

Lemma process_line_temp_count city line :
  temp_count (process_line atof month_of city line)
  = temp_count city + (if has_temp line then 1 else 0).
Proof.
  unfold process_line, has_temp, temp_field.
  destruct (Parse.present (Parse.get_field line 4 64)),
           (Parse.present (Parse.get_field line 7 64)); simpl; lia.
Qed.

Lemma process_line_precip_count city line :
  precip_count (process_line atof month_of city line)
  = precip_count city + (if has_precip line then 1 else 0).
Proof.
  unfold process_line, has_precip, precip_field.
  destruct (Parse.present (Parse.get_field line 4 64)),
           (Parse.present (Parse.get_field line 7 64)); simpl; lia.
Qed.

Lemma reduce_lines_counts city lines :
  let after := reduce_lines atof month_of city lines in
  record_count after = record_count city + Z.of_nat (length lines) /\
  temp_count after
  = temp_count city + Z.of_nat (length (List.filter has_temp lines)) /\
  precip_count after
  = precip_count city + Z.of_nat (length (List.filter has_precip lines)).
Proof.
  revert city. induction lines as [|line lines IH]; intros city; simpl.
  - repeat split; lia.
  - specialize (IH (process_line atof month_of city line)).
    fold (reduce_lines atof month_of (process_line atof month_of city line) lines).
    destruct IH as (H1 & H2 & H3).
    rewrite H1, H2, H3, process_line_record_count, process_line_temp_count,
      process_line_precip_count.
    destruct (has_temp line), (has_precip line); simpl length; repeat split; lia.
Qed.

(** What one record does to the temperature statistics. *)
Lemma process_line_without_temp city line :
  has_temp line = false ->
  let after := process_line atof month_of city line in
  temp_count after = temp_count city /\
  temp_sum after = temp_sum city /\
  temp_min after = temp_min city /\
  temp_max after = temp_max city /\
  monthly_temp_sum after = monthly_temp_sum city /\
  monthly_temp_count after = monthly_temp_count city.
Proof.
  unfold has_temp, temp_field, process_line. intros ->.
  destruct (Parse.present (Parse.get_field line 7 64)); repeat split.
Qed.

Lemma process_line_with_temp city line :
  has_temp line = true ->
  let t := atof (temp_field line) in
  let month := month_of (date_field line) in
  let after := process_line atof month_of city line in
  temp_count after = temp_count city + 1 /\
  temp_sum after = dadd (temp_sum city) t /\
  temp_min after = (if flt t (temp_min city) then t else temp_min city) /\
  temp_max after = (if flt (temp_max city) t then t else temp_max city) /\
  (in_year month = false ->
   monthly_temp_sum after = monthly_temp_sum city /\
   monthly_temp_count after = monthly_temp_count city) /\
  (in_year month = true ->
   monthly_temp_sum after
   = alter (fun s => dadd s t) (Z.to_nat month) (monthly_temp_sum city) /\
   monthly_temp_count after
   = alter (fun c => c + 1) (Z.to_nat month) (monthly_temp_count city)).
Proof.
  unfold has_temp, temp_field, date_field, process_line, in_year. intros ->.
  destruct (Parse.present (Parse.get_field line 7 64)); cbn;
    destruct ((0 <=? month_of (Parse.get_field line 2 32))
              && (month_of (Parse.get_field line 2 32) <? 12));
    repeat split; intros; try discriminate; reflexivity.
Qed.

(** *** The extrema *)

Lemma tidy_reset slot : Extrema.tidy (reset slot).
Proof. repeat split; discriminate. Qed.

Lemma process_line_tidy city line :
  Extrema.tidy city -> Extrema.tidy (process_line atof month_of city line).
Proof.
  intros (Hmin & Hmax & Hc & Hs).
  destruct (has_temp line) eqn:Ht.
  - destruct (process_line_with_temp city line Ht) as (H1 & _ & H3 & H4 & _).
    unfold Extrema.tidy. rewrite H1, H3, H4. split_and!.
    + destruct (flt _ (temp_min city)) eqn:E; [|assumption].
      now apply flt_not_nan in E.
    + destruct (flt (temp_max city) _) eqn:E; [|assumption].
      now apply flt_not_nan in E.
    + lia.
    + lia.
  - destruct (process_line_without_temp city line Ht) as (H1 & _ & H3 & H4 & _).
    unfold Extrema.tidy, Extrema.sentinels. rewrite H1, H3, H4. auto.
Qed.

Lemma process_line_ordered city line :
  Extrema.tidy city ->
  fle (temp_min city) (temp_max city) = true \/ has_number atof line ->
  let after := process_line atof month_of city line in
  fle (temp_min after) (temp_max after) = true.
Proof.
  intros (Hmin & Hmax & _ & _) H after. unfold after.
  destruct (has_temp line) eqn:Ht.
  - destruct (process_line_with_temp city line Ht) as (_ & _ & H3 & H4 & _).
    rewrite H3, H4. set (t := atof (temp_field line)) in *.
    assert (Hlow : is_nan t = false ->
              fle (if flt t (temp_min city) then t else temp_min city) t = true).
    { intros Hn. destruct (flt t (temp_min city)) eqn:E.
      - now apply fle_refl.
      - now apply not_flt_fle. }
    assert (Hhigh : is_nan t = false ->
              fle t (if flt (temp_max city) t then t else temp_max city) = true).
    { intros Hn. destruct (flt (temp_max city) t) eqn:E.
      - now apply fle_refl.
      - now apply not_flt_fle. }
    destruct H as [H|[_ Hn]].
    + apply (fle_trans _ (temp_min city)).
      { destruct (flt t (temp_min city)) eqn:E; [now apply flt_fle|now apply fle_refl]. }
      apply (fle_trans _ (temp_max city)); [exact H|].
      destruct (flt (temp_max city) t) eqn:E; [now apply flt_fle|now apply fle_refl].
    + apply (fle_trans _ t); auto.
  - destruct (process_line_without_temp city line Ht) as (_ & _ & H3 & H4 & _).
    rewrite H3, H4. destruct H as [H|[H _]]; [exact H|congruence].
Qed.

Lemma reduce_lines_tidy city lines :
  Extrema.tidy city -> Extrema.tidy (reduce_lines atof month_of city lines).
Proof.
  revert city. induction lines as [|line lines IH]; intros city H; [exact H|].
  apply IH, process_line_tidy, H.
Qed.

Lemma reduce_lines_ordered city lines :
  Extrema.tidy city ->
  fle (temp_min city) (temp_max city) = true \/ Exists (has_number atof) lines ->
  let after := reduce_lines atof month_of city lines in
  fle (temp_min after) (temp_max after) = true.
Proof.
  revert city. induction lines as [|line lines IH]; intros city Ht H.
  - destruct H as [H|H]; [exact H|inversion H].
  - apply IH; [now apply process_line_tidy|].
    destruct H as [H|H].
    + left. apply process_line_ordered; auto.
    + inversion H; subst; [left|now right].
      apply process_line_ordered; auto.
Qed.

Lemma has_number_counts lines :
  Exists (has_number atof) lines ->
  (0 < length (List.filter has_temp lines))%nat.
Proof.
  induction 1 as [line lines [H _]|line lines _ IH]; simpl.
  - rewrite H. simpl. lia.
  - destruct (has_temp line); simpl; lia.
Qed.
End Atof.
End Local_reduction.

(** ** The extrema of the kernel's slots (claim C8) *)

Module Slot_extrema.
Import CUDA Produced IEEE_facts Exact_facts.

Lemma fle_fminf_l x y : is_nan x = false -> fle (fminf x y) x = true.
Proof.
  intros Hx. destruct (is_nan y) eqn:Hy.
  - destruct y; try discriminate. rewrite fminf_nan_r. now apply fle_refl.
  - now apply Combine.fminf_is_least.
Qed.

Lemma fle_fminf_r x y : is_nan y = false -> fle (fminf x y) y = true.
Proof. intros. rewrite fminf_comm. now apply fle_fminf_l. Qed.

Lemma fle_fmaxf_l x y : is_nan x = false -> fle x (fmaxf x y) = true.
Proof.
  intros Hx. destruct (is_nan y) eqn:Hy.
  - destruct y; try discriminate. rewrite fmaxf_nan_r. now apply fle_refl.
  - now apply Combine.fmaxf_is_greatest.
Qed.

Lemma fle_fmaxf_r x y : is_nan y = false -> fle y (fmaxf x y) = true.
Proof. intros. rewrite fmaxf_comm. now apply fle_fmaxf_l. Qed.

Lemma fle_widen m M x y :
  fle m M = true -> fle (fminf m x) (fmaxf M y) = true.
Proof.
  intros H. destruct (fle_not_nan _ _ H) as [Hm HM].
  apply (fle_trans _ m); [now apply fle_fminf_l|].
  apply (fle_trans _ M); [exact H|now apply fle_fmaxf_l].
Qed.

Lemma produced_count p rs :
  produced p rs ->
  sh_temp_count p = Z.of_nat (length (List.filter valid_temp rs)).
Proof.
  induction 1 as [|p rs r _ IH|a ra b rb _ IHa _ IHb].
  - reflexivity.
  - rewrite List.filter_app, length_app, Nat2Z.inj_add, <- IH.
    unfold accumulate. cbn [List.filter].
    destruct (valid_temp r), (valid_precip r); cbn; lia.
  - rewrite List.filter_app, length_app, Nat2Z.inj_add, <- IHa, <- IHb.
    reflexivity.
Qed.

Lemma produced_sentinels p rs :
  produced p rs -> sh_temp_count p = 0 ->
  sh_temp_min p = FLT_MAX /\ sh_temp_max p = fneg FLT_MAX.
Proof.
  induction 1 as [|p rs r Hp IH|a ra b rb Ha IHa Hb IHb]; intros Hc.
  - split; reflexivity.
  - assert (0 <= sh_temp_count p) by (rewrite (produced_count _ _ Hp); lia).
    unfold accumulate in *.
    destruct (valid_temp r), (valid_precip r); cbn in Hc |- *; try lia; auto.
  - assert (0 <= sh_temp_count a) by (rewrite (produced_count _ _ Ha); lia).
    assert (0 <= sh_temp_count b) by (rewrite (produced_count _ _ Hb); lia).
    cbn in Hc |- *. destruct IHa as [-> ->]; [lia|]. destruct IHb as [-> ->]; [lia|].
    split; reflexivity.
Qed.

Lemma produced_ordered p rs :
  produced p rs -> Exists has_number rs ->
  fle (sh_temp_min p) (sh_temp_max p) = true.
Proof.
  induction 1 as [|p rs r Hp IH|a ra b rb Ha IHa Hb IHb]; intros He.
  - inversion He.
  - apply Exists_app in He as [He|He].
    + specialize (IH He). unfold accumulate.
      destruct (valid_temp r), (valid_precip r); simpl; auto using fle_widen.
    + apply Exists_cons in He as [[Hv Hn]|He]; [|inversion He].
      unfold accumulate. rewrite Hv.
      destruct (valid_precip r); simpl;
        (apply (fle_trans _ (avg_temp r)); [now apply fle_fminf_r|now apply fle_fmaxf_r]).
  - apply Exists_app in He as [He|He].
    + simpl. now apply fle_widen, IHa.
    + simpl. rewrite fminf_comm, fmaxf_comm. now apply fle_widen, IHb.
Qed.

Lemma has_number_valid rs :
  Exists has_number rs -> (0 < length (List.filter valid_temp rs))%nat.
Proof.
  induction 1 as [r rs [H _]|r rs _ IH]; simpl.
  - rewrite H. simpl. lia.
  - destruct (valid_temp r); simpl; lia.
Qed.
End Slot_extrema.

(** ** Claims C5, C8, C9 on the CPU programs *)

Module Reducer.
Import CPU Lines Local_reduction.

(** C5, as stated, fails: a temperature field that holds text that is
    not a number is not treated as absent.  The file with the one record
    [not_a_number] ends with one temperature counted, of value zero. *)
Lemma text_counts_as_temperature :
  has_temp not_a_number = true /\
  match Serial.process_city_file CLib.atof (Some [header; not_a_number]) "Riyadh" [] with
  | [city] =>
      record_count city = 1 /\ temp_count city = 1 /\
      temp_sum city = dzero /\ temp_min city = dzero /\ temp_max city = dzero
  | _ => False
  end.
Proof. vm_compute. repeat split. Qed.

(** C5, amended.  After the local reduction of a file's records,
    [record_count] is the number of records, [temp_count] the number of
    records whose temperature field is not empty and [precip_count] the
    number of those whose precipitation field is not empty.  A record
    with an empty temperature field adds one to [record_count] and
    leaves the temperature statistics as they are; a record with a
    non-empty one is counted, with the value [atof] gives its text,
    whatever the text; when its month is outside 0..11 (a date shorter
    than seven characters gives -1) the monthly buckets stay as they
    are and count, sum, minimum and maximum are updated all the same.
    The reduction is a total function: no input makes it fail.  In
    scenario B the counts are 3 and 2. *)
Theorem local_reduction_policy (atof : string -> double) (month_of : string -> Z)
    (slot city : CityStats) (lines : list string) (line date : string) :
  let after_all := reduce_lines atof month_of (reset slot) lines in
  let after := process_line atof month_of city line in
  let t := atof (temp_field line) in
  (record_count after_all = Z.of_nat (length lines) /\
   temp_count after_all = Z.of_nat (length (List.filter has_temp lines)) /\
   precip_count after_all = Z.of_nat (length (List.filter has_precip lines))) /\
  record_count after = record_count city + 1 /\
  (has_temp line = false ->
   temp_count after = temp_count city /\
   temp_sum after = temp_sum city /\
   temp_min after = temp_min city /\
   temp_max after = temp_max city /\
   monthly_temp_sum after = monthly_temp_sum city /\
   monthly_temp_count after = monthly_temp_count city) /\
  (has_temp line = true ->
   temp_count after = temp_count city + 1 /\
   temp_sum after = dadd (temp_sum city) t /\
   temp_min after = (if flt t (temp_min city) then t else temp_min city) /\
   temp_max after = (if flt (temp_max city) t then t else temp_max city) /\
   (in_year (month_of (date_field line)) = false ->
    monthly_temp_sum after = monthly_temp_sum city /\
    monthly_temp_count after = monthly_temp_count city)) /\
  ((String.length date < 7)%nat ->
   Parse.get_month date = -1 /\ Parse.get_month_mpi date = -1) /\
  in_year (Parse.get_month (date_field undated)) = false /\
  match Serial.process_city_file atof (Some (header :: scenario_B)) "Riyadh" [] with
  | [b] => record_count b = 3 /\ temp_count b = 2
  | _ => False
  end.
Proof.
  intros after_all after t. split_and!.
  - destruct (reduce_lines_counts atof month_of (reset slot) lines) as (H & _ & _).
    exact H.
  - destruct (reduce_lines_counts atof month_of (reset slot) lines) as (_ & H & _).
    exact H.
  - destruct (reduce_lines_counts atof month_of (reset slot) lines) as (_ & _ & H).
    exact H.
  - apply process_line_record_count.
  - apply process_line_without_temp.
  - intros Ht.
    destruct (process_line_with_temp atof month_of city line Ht)
      as (H1 & H2 & H3 & H4 & H5 & _).
    auto.
  - intros Hd. unfold Parse.get_month, Parse.get_month_mpi.
    destruct (Nat.ltb_spec (String.length date) 7); [auto|lia].
  - reflexivity.
  - unfold Serial.process_city_file. simpl app.
    destruct (reduce_lines_counts atof Parse.get_month
                (reset (Serial.blank "Riyadh")) scenario_B) as (H1 & H2 & _).
    split; [exact H1|exact H2].
Qed.

(** C8, as stated, fails twice.  With no record the extrema are
    [DBL_MAX] and [-DBL_MAX], not the infinities; and after the one
    record [nan_reading] the count is 1 while the extrema are still
    those, so that the minimum is above the maximum.  The same holds for
    a kernel slot after a record whose temperature is a NaN. *)
Lemma extrema_counterexample :
  match Serial.process_city_file CLib.atof (Some [header]) "Riyadh" [] with
  | [city] =>
      temp_count city = 0 /\ temp_min city = DBL_MAX /\
      temp_min city <> S754_infinity false
  | _ => False
  end /\
  match Serial.process_city_file CLib.atof (Some [header; nan_reading]) "Riyadh" [] with
  | [city] =>
      temp_count city = 1 /\ temp_min city = DBL_MAX /\
      temp_max city = fneg DBL_MAX /\ fle (temp_min city) (temp_max city) = false
  | _ => False
  end /\
  (let p := CUDA.accumulate CUDA.init_slot
              (CUDA.parse_line CLib.atof (Scenario.temperature 0) nan_reading) in
   CUDA.sh_temp_count p = 1 /\
   fle (CUDA.sh_temp_min p) (CUDA.sh_temp_max p) = false).
Proof. vm_compute. repeat split; discriminate. Qed.

(** C8, amended.  In a [CityStats] produced by the local reduction and
    in a kernel slot produced by [accumulate] and [combine]: when the
    count is 0, the minimum and the maximum are the largest finite value
    of the type and its opposite ([DBL_MAX], [FLT_MAX]), not the
    infinities; when at least one record brought a temperature that is
    not a NaN, the count is positive and the minimum is at most the
    maximum. *)
Theorem extrema_invariant (atof : string -> double) (month_of : string -> Z)
    (slot : CityStats) (lines : list string)
    (p : CUDA.Slot) (rs : list CUDA.WeatherRecord) :
  Produced.produced p rs ->
  let city := reduce_lines atof month_of (reset slot) lines in
  (temp_count city = 0 ->
   temp_min city = DBL_MAX /\ temp_max city = fneg DBL_MAX) /\
  (Exists (has_number atof) lines ->
   0 < temp_count city /\ fle (temp_min city) (temp_max city) = true) /\
  (CUDA.sh_temp_count p = 0 ->
   CUDA.sh_temp_min p = FLT_MAX /\ CUDA.sh_temp_max p = fneg FLT_MAX) /\
  (Exists Produced.has_number rs ->
   0 < CUDA.sh_temp_count p /\ fle (CUDA.sh_temp_min p) (CUDA.sh_temp_max p) = true).
Proof.
  intros Hp city. split_and!.
  - apply (reduce_lines_tidy atof month_of (reset slot) lines (tidy_reset slot)).
  - intros He. split.
    + destruct (reduce_lines_counts atof month_of (reset slot) lines) as (_ & H & _).
      unfold city. rewrite H. pose proof (has_number_counts atof lines He).
      cbn [temp_count reset]. lia.
    + apply reduce_lines_ordered; [apply tidy_reset|now right].
  - now apply Slot_extrema.produced_sentinels with rs.
  - intros He. split.
    + rewrite (Slot_extrema.produced_count p rs Hp).
      pose proof (Slot_extrema.has_number_valid rs He). lia.
    + now apply Slot_extrema.produced_ordered with rs.
Qed.

Lemma worker_2_produced :
  Produced.produced Scenario.worker_2
    ([] ++ [Scenario.temperature 20] ++ [Scenario.temperature 30]).
Proof.
  rewrite app_assoc.
  apply (Produced.produced_accumulate _ ([] ++ [Scenario.temperature 20])).
  apply (Produced.produced_accumulate _ []).
  apply Produced.produced_init.
Qed.

Lemma extrema_invariant_witness :
  (let city := reduce_lines CLib.atof Parse.get_month (reset zeroed_slot) scenario_B in
   0 < temp_count city /\ fle (temp_min city) (temp_max city) = true) /\
  0 < CUDA.sh_temp_count Scenario.worker_2 /\
  fle (CUDA.sh_temp_min Scenario.worker_2) (CUDA.sh_temp_max Scenario.worker_2) = true.
Proof.
  pose proof (extrema_invariant CLib.atof Parse.get_month zeroed_slot scenario_B
                Scenario.worker_2 _ worker_2_produced) as H.
  cbv zeta in H. destruct H as (_ & H2 & _ & H4).
  split.
  - apply H2. apply Exists_cons_hd. split; vm_compute; reflexivity.
  - apply H4. apply Exists_cons_hd. split; vm_compute; reflexivity.
Defined.

(** C9.  When [fopen] fails, [process_city_file] of the OpenMP and MPI
    programs returns before it writes anything: the slot keeps whatever
    it held, be it the leftovers of an earlier use or zero bytes, and is
    not the empty aggregate that a file without lines gives.  The other
    slots are computed as if the failure had not happened. *)
Theorem unopened_file_leaves_slot_unwritten :
  OpenMP.process_city_file CLib.atof None stale_slot = stale_slot /\
  MPI.process_city_file CLib.atof None stale_slot = stale_slot /\
  record_count (OpenMP.process_city_file CLib.atof None stale_slot) = 3653 /\
  temp_min (OpenMP.process_city_file CLib.atof None zeroed_slot) = dzero /\
  OpenMP.process_city_file CLib.atof (Some []) stale_slot = reset stale_slot /\
  record_count (reset stale_slot) = 0 /\ temp_min (reset stale_slot) = DBL_MAX /\
  Serial.process_city_file CLib.atof None "Riyadh" [] = [] /\
  (let files := [None; Some (header :: scenario_B)] in
   let names := ["Jeddah"; "Riyadh"]%string in
   let slots := [stale_slot; zeroed_slot] in
   OpenMP.parallel_for CLib.atof files names [1; 0]%nat slots !! 1%nat
   = Some (OpenMP.process_city_file CLib.atof (Some (header :: scenario_B))
             (OpenMP.set_name zeroed_slot "Riyadh")) /\
   OpenMP.parallel_for CLib.atof files names [1; 0]%nat slots !! 0%nat
   = Some stale_slot).
Proof. vm_compute. repeat split. Qed.

(** Whatever the slot holds, an unopened file leaves it as it is. *)
Lemma process_city_file_unopened atof month_of slot :
  process_city_file atof month_of None slot = slot.
Proof. reflexivity. Qed.
End Reducer.

(** ** The record limit of the CUDA host (claim C10) *)

Module Record_limit.
Import CUDA Host.

Lemma read_records_spec atof allocated lines : forall num_records h_records,
  0 <= num_records <= MAX_RECORDS_PER_FILE ->
  read_records atof allocated lines num_records h_records
  = (h_records ++ parsed atof allocated (Z.to_nat num_records)
                    (take (Z.to_nat (MAX_RECORDS_PER_FILE - num_records)) lines),
     num_records + Z.min (Z.of_nat (length lines)) (MAX_RECORDS_PER_FILE - num_records)).
Proof.
  induction lines as [|line lines IH]; intros k h Hk; cbn [read_records].
  - rewrite take_nil. unfold parsed. cbn. rewrite app_nil_r. f_equal. lia.
  - destruct (Z.ltb_spec k MAX_RECORDS_PER_FILE) as [Hlt|Hge].
    + rewrite IH by lia. f_equal.
      * replace (Z.to_nat (MAX_RECORDS_PER_FILE - k))
          with (S (Z.to_nat (MAX_RECORDS_PER_FILE - (k + 1)))) by lia.
        cbn [take]. unfold parsed. rewrite imap_cons, <- app_assoc. cbn [app].
        rewrite Nat.add_0_r. do 2 f_equal.
        apply imap_ext. intros i x _. cbn. do 2 f_equal. lia.
      * cbn [length]. lia.
    + replace (MAX_RECORDS_PER_FILE - k) with 0 by lia.
      cbn [Z.to_nat take]. unfold parsed. cbn [imap]. rewrite app_nil_r.
      f_equal. cbn [length]. lia.
Qed.

(** C10.  The CUDA host parses the first 50000 data lines of a file and
    no more; the [record_count] it reports is the number of records it
    parsed, at most 50000.  The serial, OpenMP and MPI programs count
    every data line.  On a file with more than 50000 data lines the
    counts therefore differ.  (A file without data lines gets no entry
    at all from the CUDA host.) *)
Theorem cuda_record_limit (atof : string -> double)
    (allocated : nat -> WeatherRecord) (finish_order : Z -> list Z)
    (header : string) (lines : list string) (city_name : string)
    (cities : list CityStats) (slot : CityStats) :
  let h_records := (read_records atof allocated lines 0 []).1 in
  let num_records := (read_records atof allocated lines 0 []).2 in
  let cuda :=
    process_city_file_cuda atof allocated finish_order
      (Some (header :: lines)) city_name cities in
  let serial :=
    Serial.process_city_file atof (Some (header :: lines)) city_name cities in
  num_records = Z.min (Z.of_nat (length lines)) MAX_RECORDS_PER_FILE /\
  num_records <= 50000 /\
  h_records = parsed atof allocated 0 (take (Z.to_nat MAX_RECORDS_PER_FILE) lines) /\
  Z.of_nat (length h_records) = num_records /\
  (lines <> [] -> record_count <$> last cuda = Some num_records) /\
  (lines = [] -> cuda = cities) /\
  record_count <$> last serial = Some (Z.of_nat (length lines)) /\
  record_count (OpenMP.process_city_file atof (Some (header :: lines)) slot)
  = Z.of_nat (length lines) /\
  record_count (MPI.process_city_file atof (Some (header :: lines)) slot)
  = Z.of_nat (length lines) /\
  (50000 < Z.of_nat (length lines) ->
   record_count <$> last cuda = Some 50000 /\
   record_count <$> last serial <> record_count <$> last cuda).
Proof.
  intros h_records num_records cuda serial.
  assert (Hrd : read_records atof allocated lines 0 []
                = (parsed atof allocated 0 (take (Z.to_nat MAX_RECORDS_PER_FILE) lines),
                   Z.min (Z.of_nat (length lines)) MAX_RECORDS_PER_FILE)).
  { rewrite read_records_spec by (unfold MAX_RECORDS_PER_FILE; lia).
    cbn [app]. f_equal. }
  assert (Hn : num_records = Z.min (Z.of_nat (length lines)) MAX_RECORDS_PER_FILE)
    by (unfold num_records; now rewrite Hrd).
  assert (Hh : h_records = parsed atof allocated 0 (take (Z.to_nat MAX_RECORDS_PER_FILE) lines))
    by (unfold h_records; now rewrite Hrd).
  assert (Hserial : record_count <$> last serial = Some (Z.of_nat (length lines))).
  { unfold serial, Serial.process_city_file. rewrite last_snoc. cbn [fmap option_fmap option_map].
    f_equal.
    destruct (Local_reduction.reduce_lines_counts atof Parse.get_month
                (CPU.reset (Serial.blank (copied_name city_name))) lines) as (H & _).
    rewrite H. reflexivity. }
  assert (Hcuda : lines <> [] -> record_count <$> last cuda = Some num_records).
  { intros Hne. unfold cuda, process_city_file_cuda.
    fold num_records. fold h_records.
    destruct (read_records atof allocated lines 0 []) as [h n] eqn:E.
    unfold num_records, h_records in *. cbn [fst snd] in *.
    destruct (Z.eqb_spec n 0) as [H0|_].
    - exfalso. destruct lines; [congruence|]. subst n.
      unfold MAX_RECORDS_PER_FILE in H0. cbn [length] in H0. lia.
    - rewrite last_snoc. reflexivity. }
  split_and!; try assumption.
  - rewrite Hn. unfold MAX_RECORDS_PER_FILE. lia.
  - rewrite Hh, Hn. unfold parsed. rewrite length_imap, length_take.
    unfold MAX_RECORDS_PER_FILE. lia.
  - intros ->. reflexivity.
  - unfold OpenMP.process_city_file, CPU.process_city_file.
    destruct (Local_reduction.reduce_lines_counts atof Parse.get_month
                (CPU.reset slot) lines) as (H & _).
    rewrite H. reflexivity.
  - unfold MPI.process_city_file, CPU.process_city_file.
    destruct (Local_reduction.reduce_lines_counts atof Parse.get_month_mpi
                (CPU.reset slot) lines) as (H & _).
    rewrite H. reflexivity.
  - intros Hlong.
    assert (Hne : lines <> []) by (intros ->; cbn in Hlong; lia).
    rewrite Hserial, (Hcuda Hne), Hn. unfold MAX_RECORDS_PER_FILE.
    rewrite Z.min_r by lia. split; [reflexivity|].
    intros H. injection H. lia.
Qed.

Lemma cuda_record_limit_witness :
  let lines := replicate (Z.to_nat 50001) Lines.undated in
  record_count <$> last (process_city_file_cuda CLib.atof (fun _ => Scenario.temperature 0)
                           (seqZ 0) (Some (Lines.header :: lines)) "Riyadh" [])
  = Some 50000 /\
  record_count <$> last (Serial.process_city_file CLib.atof
                           (Some (Lines.header :: lines)) "Riyadh" [])
  = Some 50001.
Proof.
  intros lines.
  pose proof (cuda_record_limit CLib.atof (fun _ => Scenario.temperature 0) (seqZ 0)
                Lines.header lines "Riyadh" [] Lines.zeroed_slot) as H.
  cbv zeta in H.
  destruct H as (_ & _ & _ & _ & _ & _ & Hs & _ & _ & Hl).
  assert (Hlen : Z.of_nat (length lines) = 50001)
    by (unfold lines; rewrite length_replicate; lia).
  split.
  - apply Hl. lia.
  - rewrite Hs, Hlen. reflexivity.
Defined.
End Record_limit.

(** ** The assignment of files to processes (claim C6) *)

Module Planner.
Import MPI Plan Loop_facts.

Lemma ceil_div_code n w :
  0 <= n -> 1 <= w -> Z.quot (n + w - 1) w = ceil_div n w.
Proof.
  intros Hn Hw. rewrite Z.quot_div_nonneg by lia. unfold ceil_div.
  symmetry. apply Z.opp_inj. rewrite Z.opp_involutive.
  pose proof (Z.div_mod (n + w - 1) w ltac:(lia)).
  pose proof (Z.mod_pos_bound (n + w - 1) w ltac:(lia)).
  symmetry. apply (Z.div_unique _ _ _ (w * ((n + w - 1) / w) - n)); lia.
Qed.

Lemma ceil_div_bounds n w :
  0 <= n -> 1 <= w ->
  n <= w * ceil_div n w /\ w * (ceil_div n w - 1) < n /\ 0 <= ceil_div n w.
Proof.
  intros Hn Hw. rewrite <- ceil_div_code, Z.quot_div_nonneg by lia.
  pose proof (Z.div_mod (n + w - 1) w ltac:(lia)).
  pose proof (Z.mod_pos_bound (n + w - 1) w ltac:(lia)).
  assert (0 <= (n + w - 1) / w) by (apply Z.div_pos; lia).
  lia.
Qed.

Lemma block_loop_acc fuel i my_end n acc :
  block_loop fuel i my_end n acc = acc ++ block_loop fuel i my_end n [].
Proof.
  revert i acc. induction fuel as [|fuel IH]; intros i acc; simpl.
  - now rewrite app_nil_r.
  - destruct ((i <? my_end) && (i <? n)); [|now rewrite app_nil_r].
    rewrite (IH _ (acc ++ [i])), (IH _ ([] ++ [i])).
    now rewrite <- app_assoc.
Qed.

(** With enough fuel the block loop stops on its own test, having
    listed the indices from [i] up to the lesser bound. *)
Lemma block_loop_spec fuel i my_end n :
  Z.min my_end n - i <= Z.of_nat fuel ->
  block_loop fuel i my_end n [] = seqZ i (Z.min my_end n - i).
Proof.
  revert i. induction fuel as [|fuel IH]; intros i Hf.
  - simpl. unfold seqZ. replace (Z.to_nat (Z.min my_end n - i)) with 0%nat by lia.
    reflexivity.
  - cbn [block_loop].
    destruct (Z.ltb_spec i my_end), (Z.ltb_spec i n); cbn [andb].
    2-4: unfold seqZ; replace (Z.to_nat (Z.min my_end n - i)) with 0%nat by lia;
         reflexivity.
    rewrite block_loop_acc, IH by lia. cbn [app].
    rewrite (seqZ_cons i) by lia. f_equal. f_equal; lia.
Qed.

Lemma block_indices_spec r w n :
  0 <= n -> 1 <= w -> 0 <= r ->
  my_file_indices "block" r w n
  = seqZ (r * ceil_div n w) (Z.min ((r + 1) * ceil_div n w) n - r * ceil_div n w).
Proof.
  intros Hn Hw Hr. unfold my_file_indices. cbn [String.eqb Ascii.eqb Bool.eqb].
  rewrite ceil_div_code by assumption.
  pose proof (ceil_div_bounds n w Hn Hw) as (H1 & H2 & H3).
  set (c := ceil_div n w) in *.
  destruct (Z.gtb_spec (r * c + c) n).
  - rewrite block_loop_spec by nia. f_equal. nia.
  - rewrite block_loop_spec by nia. f_equal. nia.
Qed.

Lemma elem_of_block_indices r w n i :
  0 <= n -> 1 <= w -> 0 <= r ->
  i ∈ my_file_indices "block" r w n <->
  r * ceil_div n w <= i < Z.min ((r + 1) * ceil_div n w) n.
Proof.
  intros. rewrite block_indices_spec, elem_of_seqZ by assumption. lia.
Qed.

Lemma elem_of_cyclic_indices r w n i :
  0 <= n -> 1 <= w -> 0 <= r ->
  i ∈ my_file_indices "cyclic" r w n <->
  0 <= i < n /\ exists k, 0 <= k /\ i = r + k * w.
Proof.
  intros Hn Hw Hr. unfold my_file_indices. cbn [String.eqb Ascii.eqb Bool.eqb].
  rewrite elem_of_cyclic_loop by lia. split.
  - intros [H1 H2]. split; [lia|].
    apply Z.mod_divide in H2; [|lia]. destruct H2 as [k Hk].
    exists k. split; [nia|lia].
  - intros [H1 (k & Hk & ->)]. split; [nia|].
    replace (r + k * w - r) with (k * w) by lia. apply Z.mod_mul. lia.
Qed.

Lemma other_mode_is_block mode r w n :
  String.eqb mode "cyclic" = false ->
  my_file_indices mode r w n = my_file_indices "block" r w n.
Proof. intros H. unfold my_file_indices. now rewrite H. Qed.

Lemma mode_cases mode :
  mode = "cyclic"%string \/
  (forall r w n, my_file_indices mode r w n = my_file_indices "block" r w n).
Proof.
  destruct (String.eqb mode "cyclic") eqn:E.
  - left. now apply String.eqb_eq.
  - right. intros. now apply other_mode_is_block.
Qed.

(** C6.  With [c] the ceiling of [N / W], process [r] of [W] owns, under
    the block policy (the default), the indices from [r c] up to
    [min ((r + 1) c, N)] in increasing order, possibly none; under the
    cyclic policy it owns the indices [r, r + W, r + 2 W, ...] below
    [N].  Under either policy the sets owned by the processes [0 .. W-1]
    are pairwise disjoint and cover exactly the indices [0 .. N-1].  The
    assignment is a function of the policy, [r], [W] and [N] alone. *)
Theorem planner_ownership (n w r : Z) :
  0 <= n -> 1 <= w -> 0 <= r < w ->
  let c := ceil_div n w in
  let owned := fun mode r => my_file_indices mode r w n in
  (n <= w * c /\ w * (c - 1) < n) /\
  owned "block"%string r = seqZ (r * c) (Z.min ((r + 1) * c) n - r * c) /\
  (forall i, i ∈ owned "block"%string r <-> r * c <= i < Z.min ((r + 1) * c) n) /\
  (forall i, i ∈ owned "cyclic"%string r <->
             0 <= i < n /\ exists k, 0 <= k /\ i = r + k * w) /\
  NoDup (owned "cyclic"%string r) /\
  (forall mode i, 0 <= i < n -> exists r', 0 <= r' < w /\ i ∈ owned mode r') /\
  (forall mode r1 r2 i,
     0 <= r1 < w -> 0 <= r2 < w ->
     i ∈ owned mode r1 -> i ∈ owned mode r2 -> r1 = r2) /\
  (forall mode r' i, 0 <= r' < w -> i ∈ owned mode r' -> 0 <= i < n) /\
  my_file_indices "block" 3 4 5 = [].
Proof.
  intros Hn Hw Hr c owned.
  pose proof (ceil_div_bounds n w Hn Hw) as (Hc1 & Hc2 & Hc3). fold c in Hc1, Hc2, Hc3.
  split_and!.
  - exact Hc1.
  - exact Hc2.
  - apply block_indices_spec; lia.
  - intros i. apply elem_of_block_indices; lia.
  - intros i. apply elem_of_cyclic_indices; lia.
  - unfold owned, my_file_indices. cbn [String.eqb Ascii.eqb Bool.eqb].
    apply NoDup_cyclic_loop. lia.
  - intros mode i Hi. unfold owned.
    destruct (mode_cases mode) as [->|Hb].
    + exists (i mod w).
      pose proof (Z.mod_pos_bound i w ltac:(lia)).
      split; [lia|]. apply elem_of_cyclic_indices; try lia.
      split; [lia|]. exists (i / w). split; [apply Z.div_pos; lia|].
      pose proof (Z.div_mod i w ltac:(lia)). lia.
    + exists (i / c). rewrite Hb.
      assert (1 <= c) by nia.
      pose proof (Z.div_mod i c ltac:(lia)).
      pose proof (Z.mod_pos_bound i c ltac:(lia)).
      assert (0 <= i / c) by (apply Z.div_pos; lia).
      assert (i / c < w) by (apply Z.div_lt_upper_bound; nia).
      split; [lia|]. apply elem_of_block_indices; first [lia|nia].
  - intros mode r1 r2 i H1 H2. unfold owned.
    destruct (mode_cases mode) as [->|Hb].
    + rewrite !elem_of_cyclic_indices by lia.
      intros [_ (k1 & _ & E1)] [_ (k2 & _ & E2)].
      assert (r1 - r2 = (k2 - k1) * w) by lia.
      assert (k2 - k1 = 0) by nia. lia.
    + rewrite !Hb, !elem_of_block_indices by lia. intros. nia.
  - intros mode r' i H'. unfold owned.
    destruct (mode_cases mode) as [->|Hb].
    + rewrite elem_of_cyclic_indices by lia. tauto.
    + rewrite Hb, elem_of_block_indices by lia. intros. nia.
  - reflexivity.
Qed.

Lemma planner_ownership_witness :
  my_file_indices "block" 1 4 10 = seqZ 3 3 /\
  (7 ∈ my_file_indices "cyclic" 3 4 10 <->
   0 <= 7 < 10 /\ exists k, 0 <= k /\ 7 = 3 + k * 4).
Proof.
  pose proof (planner_ownership 10 4 1 ltac:(lia) ltac:(lia) ltac:(lia)) as H1.
  pose proof (planner_ownership 10 4 3 ltac:(lia) ltac:(lia) ltac:(lia)) as H3.
  cbv zeta in H1, H3.
  destruct H1 as (_ & H1 & _). destruct H3 as (_ & _ & _ & H3 & _).
  split; [exact H1|apply H3].
Defined.
End Planner.

(** ** The gather of the per-process results (claim C4) *)

Module Collector.
Import MPI Plan.

Lemma offset_0 counts : offset counts 0 = 0.
Proof. reflexivity. Qed.

Lemma fold_right_add_app (l k : list Z) :
  fold_right Z.add 0 (l ++ k) = fold_right Z.add 0 l + fold_right Z.add 0 k.
Proof. induction l as [|x l IH]; simpl; lia. Qed.

Lemma offset_S counts i c :
  counts !! i = Some c -> offset counts (S i) = offset counts i + c.
Proof.
  intros H. unfold offset. rewrite (take_S_r _ _ _ H), fold_right_add_app.
  simpl. lia.
Qed.

Lemma total_cities_sum counts acc :
  fold_left Z.add counts acc = acc + fold_right Z.add 0 counts.
Proof.
  revert acc. induction counts as [|c counts IH]; intros acc; simpl; [lia|].
  rewrite IH. lia.
Qed.

Lemma offset_length {A} (local_results : list (list A)) i :
  offset (counts_of local_results) i
  = Z.of_nat (length (concat (take i local_results))).
Proof.
  unfold offset, counts_of. rewrite <- fmap_take.
  induction (take i local_results) as [|l ls IH]; [reflexivity|].
  cbn [fmap list_fmap fold_right concat]. rewrite length_app, Nat2Z.inj_add.
  fold (fmap (M := list) (fun l : list A => Z.of_nat (length l)) ls). lia.
Qed.

(** The displacement loop computes the exclusive prefix sums. *)
Lemma displacements_loop_spec size counts : forall fuel i displacements,
  length counts = size -> length displacements = size ->
  (1 <= i)%nat -> (size - i <= fuel)%nat ->
  (forall j, (j < i)%nat -> (j < size)%nat ->
             displacements !! j = Some (offset counts j)) ->
  forall j, (j < size)%nat ->
    displacements_loop fuel (Z.of_nat i) (Z.of_nat size) counts displacements !! j
    = Some (offset counts j).
Proof.
  induction fuel as [|fuel IH]; intros i d Hc Hd Hi Hf Hinv j Hj.
  - simpl. apply Hinv; lia.
  - cbn [displacements_loop]. destruct (Z.ltb_spec (Z.of_nat i) (Z.of_nat size)).
    + replace (Z.of_nat i + 1) with (Z.of_nat (S i)) by lia.
      apply IH; try lia.
      * now rewrite length_insert.
      * intros j' Hj' Hj'2.
        replace (Z.to_nat (Z.of_nat i - 1)) with (i - 1)%nat by lia.
        rewrite Nat2Z.id.
        destruct (decide (j' = i)) as [->|Hne].
        -- rewrite list_lookup_insert_eq by lia. f_equal.
           destruct (lookup_lt_is_Some_2 counts (i - 1)) as [c Hc']; [lia|].
           rewrite (list_lookup_total_correct counts (i - 1) c Hc').
           rewrite (list_lookup_total_correct d (i - 1) _
                      (Hinv (i - 1)%nat ltac:(lia) ltac:(lia))).
           rewrite <- (offset_S _ _ _ Hc'). f_equal. lia.
        -- rewrite list_lookup_insert_ne by lia. apply Hinv; lia.
    + apply Hinv; lia.
Qed.

Lemma compute_displacements_spec size counts displacements j :
  length counts = size -> length displacements = size -> (j < size)%nat ->
  compute_displacements (Z.of_nat size) counts displacements !! j
  = Some (offset counts j).
Proof.
  intros Hc Hd Hj. unfold compute_displacements. rewrite Nat2Z.id.
  apply (displacements_loop_spec size counts size 1%nat); try lia.
  - now rewrite length_insert.
  - intros j' Hj' _. replace j' with 0%nat by lia.
    rewrite list_lookup_insert_eq by lia. reflexivity.
Qed.

(** *** Where the results of a source lie in the concatenation *)

Section Results.
Context {A : Type}.
Implicit Types (locals : list (list A)) (buf : list A).

Lemma offset_start_of locals i :
  offset (counts_of locals) i = Z.of_nat (start_of locals i).
Proof. apply offset_length. Qed.

Lemma start_of_S locals i l :
  locals !! i = Some l ->
  start_of locals (S i) = (start_of locals i + length l)%nat.
Proof.
  intros H. unfold start_of. rewrite (take_S_r _ _ _ H), concat_app, length_app.
  simpl. rewrite app_nil_r. reflexivity.
Qed.

Lemma start_of_mono locals i k :
  (i <= k)%nat -> (start_of locals i <= start_of locals k)%nat.
Proof.
  intros H. unfold start_of. replace k with (i + (k - i))%nat by lia.
  rewrite <- take_take_drop, concat_app, length_app. lia.
Qed.

Lemma start_of_all locals i :
  (length locals <= i)%nat -> start_of locals i = length (concat locals).
Proof. intros H. unfold start_of. now rewrite take_ge. Qed.

Lemma source_fits locals i l :
  locals !! i = Some l ->
  (start_of locals i + length l <= length (concat locals))%nat.
Proof.
  intros H. rewrite <- (start_of_S _ _ _ H), <- (start_of_all locals (length locals))
    by lia.
  apply start_of_mono. apply lookup_lt_Some in H. lia.
Qed.

Lemma lookup_concat locals i l j x :
  locals !! i = Some l -> l !! j = Some x ->
  concat locals !! (start_of locals i + j)%nat = Some x.
Proof.
  intros Hi Hj.
  assert (concat locals = concat (take i locals) ++ l ++ concat (drop (S i) locals))
    as -> by (now rewrite <- (take_drop_middle _ _ _ Hi) at 1; rewrite concat_app).
  unfold start_of.
  rewrite lookup_app_r by lia.
  replace (length (concat (take i locals)) + j - length (concat (take i locals)))%nat
    with j by lia.
  simpl. rewrite lookup_app_l by (apply lookup_lt_Some in Hj; lia). exact Hj.
Qed.

Lemma concat_position locals p :
  (p < length (concat locals))%nat ->
  exists i l j, locals !! i = Some l /\ (j < length l)%nat /\
                p = (start_of locals i + j)%nat.
Proof.
  revert p. induction locals as [|l0 rest IH]; intros p Hp; simpl in Hp; [lia|].
  rewrite length_app in Hp.
  destruct (decide (p < length l0)%nat) as [Hlt|Hge].
  - exists 0%nat, l0, p. repeat split; auto.
  - destruct (IH (p - length l0)%nat) as (i & l & j & Hi & Hj & Hpos); [lia|].
    exists (S i), l, j. repeat split; auto.
    unfold start_of in *. cbn [take concat]. rewrite length_app. lia.
Qed.

(** Storing one message puts the results of its source in place and
    leaves those of the other sources in place. *)
Lemma store_message_in_place locals stored buf src l :
  locals !! src = Some l ->
  in_place locals stored buf ->
  in_place locals (src :: stored)
    (store_message buf (offset (counts_of locals) src) (Z.of_nat (length l)) l).
Proof.
  intros Hsrc [Hlen Hin]. unfold store_message.
  rewrite offset_start_of, !Nat2Z.id, take_ge by lia.
  pose proof (source_fits _ _ _ Hsrc) as Hfit.
  split; [now rewrite length_inserts|].
  intros i k j x Hi Hk Hj.
  pose proof (lookup_lt_Some _ _ _ Hj) as Hjl.
  destruct (decide (i = src)) as [->|Hne].
  - assert (k = l) by congruence. subst k.
    rewrite list_lookup_inserts by lia.
    replace (start_of locals src + j - start_of locals src)%nat with j by lia.
    exact Hj.
  - apply elem_of_cons in Hi as [Hi|Hi]; [congruence|].
    pose proof (start_of_S _ _ _ Hk) as HSi.
    pose proof (start_of_S _ _ _ Hsrc) as HSs.
    destruct (decide (i < src)%nat).
    + pose proof (start_of_mono locals (S i) src ltac:(lia)).
      rewrite list_lookup_inserts_lt by lia. now apply (Hin i k).
    + pose proof (start_of_mono locals (S src) i ltac:(lia)).
      rewrite list_lookup_inserts_ge by lia. now apply (Hin i k).
Qed.

Lemma gatherv_in_place locals displs arrival : forall stored buf,
  (forall i, (i < length locals)%nat ->
             displs !! i = Some (offset (counts_of locals) i)) ->
  in_place locals stored buf ->
  in_place locals (reverse arrival ++ stored)
    (MPI_Gatherv arrival locals (counts_of locals) displs buf).
Proof.
  induction arrival as [|src arrival IH]; intros stored buf Hd Hin; [exact Hin|].
  cbn [MPI_Gatherv fold_left]. rewrite reverse_cons, <- app_assoc. cbn [app].
  apply IH; [exact Hd|].
  destruct (locals !! src) as [l|] eqn:Hsrc.
  - unfold counts_of. rewrite list_lookup_fmap, Hsrc. cbn [fmap option_fmap option_map].
    rewrite Hd by (now apply lookup_lt_Some in Hsrc).
    now apply store_message_in_place.
  - destruct Hin as [Hlen Hin]. split; [exact Hlen|].
    intros i l j x Hi. apply elem_of_cons in Hi as [->|Hi]; [congruence|].
    now apply Hin.
Qed.

(** When every source has been stored, the buffer is the
    concatenation of the local results, source after source. *)
Lemma in_place_all locals stored buf :
  (forall i, (i < length locals)%nat -> i ∈ stored) ->
  in_place locals stored buf -> buf = concat locals.
Proof.
  intros Hall [Hlen Hin].
  apply (list_eq_same_length _ _ (length (concat locals))); auto.
  intros p x y Hp Hx Hy.
  destruct (concat_position locals p Hp) as (i & l & j & Hi & Hj & ->).
  destruct (lookup_lt_is_Some_2 l j Hj) as [z Hz].
  rewrite (lookup_concat _ _ _ _ _ Hi Hz) in Hy.
  rewrite (Hin i l j z) in Hx; auto.
  - congruence.
  - apply Hall. now apply lookup_lt_Some in Hi.
Qed.
End Results.

Lemma total_cities_length {A} (local_results : list (list A)) :
  total_cities (counts_of local_results)
  = Z.of_nat (length (concat local_results)).
Proof.
  unfold total_cities. rewrite total_cities_sum.
  rewrite <- (firstn_all (counts_of local_results)).
  change (fold_right Z.add 0 (firstn (length (counts_of local_results))
                                     (counts_of local_results)))
    with (offset (counts_of local_results) (length (counts_of local_results))).
  rewrite offset_length. unfold counts_of. rewrite length_fmap, firstn_all. lia.
Qed.

(** C4.  Rank 0 gathers the per-process results of [local_results]
    (process [i] sends [local_results !! i]) into [all_results],
    allocated with [total_cities] entries; [arrival] is any order in
    which the messages of the processes are stored.  Then:
    [total_cities] is the number of all results; the displacement the
    code computes for process [i] is [offset counts i], the sum of the
    counts of the processes before [i], which is 0 for process 0 and
    [offset counts i + c] for the process after a process with [c]
    results, hence unchanged after a process with no result; the
    [j]-th result of process [i] is at position [offset counts i + j]
    of the gathered array; the gathered array is the concatenation of
    the local results in rank order, whatever the arrival order; and
    for the counts 0, 5, 3, 0 the displacements are 0, 0, 5, 8. *)
Theorem collector_order {A} (local_results : list (list A)) (arrival : list nat)
    (displacements : list Z) (all_results : list A) :
  arrival ≡ₚ seq 0 (length local_results) ->
  length displacements = length local_results ->
  length all_results = Z.to_nat (total_cities (counts_of local_results)) ->
  let counts := counts_of local_results in
  let size := Z.of_nat (length local_results) in
  let displs := compute_displacements size counts displacements in
  let gathered := gather arrival local_results displacements all_results in
  total_cities counts = Z.of_nat (length (concat local_results)) /\
  (forall i, (i < length local_results)%nat ->
             displs !! i = Some (offset counts i)) /\
  offset counts 0 = 0 /\
  (forall i c, counts !! i = Some c ->
               offset counts (S i) = offset counts i + c) /\
  (forall i, counts !! i = Some 0 -> offset counts (S i) = offset counts i) /\
  (forall i l j x,
      local_results !! i = Some l -> l !! j = Some x ->
      gathered !! (Z.to_nat (offset counts i) + j)%nat = Some x) /\
  gathered = concat local_results /\
  (forall d0 d1 d2 d3,
      compute_displacements 4 [0; 5; 3; 0] [d0; d1; d2; d3] = [0; 0; 5; 8]).
Proof.
  intros Harr Hd Hres counts size displs gathered.
  assert (Hdispls : forall i, (i < length local_results)%nat ->
                              displs !! i = Some (offset counts i)).
  { intros i Hi. apply compute_displacements_spec; auto.
    unfold counts, counts_of. now rewrite length_fmap. }
  assert (Hg : gathered = concat local_results).
  { unfold gathered, gather. fold (counts_of local_results). fold counts size displs.
    apply (in_place_all local_results (reverse arrival ++ [])).
    - intros i Hi. rewrite app_nil_r, elem_of_reverse, Harr.
      apply elem_of_seq. lia.
    - apply gatherv_in_place; [exact Hdispls|].
      split.
      + rewrite Hres, total_cities_length. lia.
      + intros i l j x Hi. inversion Hi. }
  split_and!.
  - apply total_cities_length.
  - exact Hdispls.
  - reflexivity.
  - intros i c. apply offset_S.
  - intros i Hi. rewrite (offset_S _ _ _ Hi). lia.
  - intros i l j x Hi Hj. rewrite Hg. unfold counts.
    rewrite offset_start_of, Nat2Z.id. exact (lookup_concat _ _ _ _ _ Hi Hj).
  - exact Hg.
  - reflexivity.
Qed.

Lemma collector_order_witness :
  let local_results := [[]; [1; 2; 3; 4; 5]; [6; 7; 8]; []] in
  gather [2; 0; 3; 1]%nat local_results [7; 7; 7; 7] (replicate 8 0)
  = [1; 2; 3; 4; 5; 6; 7; 8] /\
  compute_displacements 4 (counts_of local_results) [7; 7; 7; 7] !! 2%nat
  = Some 5.
Proof.
  intros local_results.
  assert (Harr : [2; 0; 3; 1]%nat ≡ₚ seq 0 (length local_results)).
  { unfold local_results. cbn [length seq]. solve_Permutation. }
  pose proof (collector_order local_results [2; 0; 3; 1]%nat [7; 7; 7; 7]
                (replicate 8 0) Harr eq_refl eq_refl) as H.
  cbv zeta in H. destruct H as (_ & Hd & _ & _ & _ & _ & Hg & _).
  split; [exact Hg|]. apply (Hd 2%nat). unfold local_results. cbn [length]. lia.
Defined.
End Collector.

(** ** Texts: prefixes, searches from the left and from the right *)

Module Text_facts.
Import CLib Directory Csv.

Lemma append_empty_r (s : string) : (s ++ EmptyString)%string = s.
Proof. induction s as [|c s IH]; simpl; congruence. Qed.

Lemma append_assoc' (s t u : string) : ((s ++ t) ++ u)%string = (s ++ (t ++ u))%string.
Proof. induction s as [|c s IH]; simpl; congruence. Qed.

Lemma length_append' (s t : string) :
  String.length (s ++ t) = (String.length s + String.length t)%nat.
Proof. induction s as [|c s IH]; simpl; congruence. Qed.

Lemma substring_0_0 (s : string) : substring 0 0 s = EmptyString.
Proof. destruct s; reflexivity. Qed.

Lemma length_substring_0 (n : nat) (s : string) :
  String.length (substring 0 n s) = Nat.min n (String.length s).
Proof.
  revert n. induction s as [|c s IH]; intros [|n]; simpl; auto.
Qed.

Lemma substring_0_all (n : nat) (s : string) :
  (String.length s <= n)%nat -> substring 0 n s = s.
Proof.
  revert n. induction s as [|c s IH]; intros [|n] H; simpl in *; try reflexivity; try lia.
  f_equal. apply IH. lia.
Qed.

Lemma substring_0_append (n : nat) (s t : string) :
  substring 0 (String.length s + n) (s ++ t) = (s ++ substring 0 n t)%string.
Proof. induction s as [|c s IH]; simpl; congruence. Qed.

Lemma substring_0_append_exact (s t : string) :
  substring 0 (String.length s) (s ++ t) = s.
Proof.
  rewrite <- (Nat.add_0_r (String.length s)), substring_0_append, substring_0_0.
  apply append_empty_r.
Qed.

Lemma substring_0_twice (n m : nat) (s : string) :
  (n <= m)%nat -> substring 0 n (substring 0 m s) = substring 0 n s.
Proof.
  revert n m. induction s as [|c s IH]; intros [|n] [|m] H; simpl; try reflexivity; try lia.
  f_equal. apply IH. lia.
Qed.

Lemma holds_char_append (c : ascii) (s t : string) :
  holds_char c (s ++ t) = holds_char c s || holds_char c t.
Proof. induction s as [|d s IH]; simpl; [reflexivity|]. rewrite IH. apply orb_assoc. Qed.

Lemma holds_char_substring (c : ascii) (n : nat) (s : string) :
  holds_char c s = false -> holds_char c (substring 0 n s) = false.
Proof.
  revert n. induction s as [|d s IH]; intros [|n] H; simpl in *; try reflexivity.
  apply orb_false_iff in H as [H1 H2]. rewrite H1. simpl. auto.
Qed.

(** *** [strchr] and the offset of its result *)

Lemma strchr_none (s : string) (c : ascii) :
  strchr s c = None <-> holds_char c s = false.
Proof.
  induction s as [|d s IH]; simpl; [tauto|].
  destruct (Ascii.eqb d c); simpl; [split; discriminate|exact IH].
Qed.

Lemma offset_of_none (s : string) (c : ascii) :
  offset_of s c = None <-> holds_char c s = false.
Proof.
  induction s as [|d s IH]; simpl; [tauto|].
  destruct (Ascii.eqb d c); simpl; [split; discriminate|].
  rewrite <- IH. destruct (offset_of s c); simpl; split; congruence.
Qed.

Lemma strchr_append (s t : string) (c : ascii) :
  holds_char c s = false ->
  strchr (s ++ String c t) c = Some (String c t).
Proof.
  induction s as [|d s IH]; simpl; intros H.
  - now rewrite Ascii.eqb_refl.
  - apply orb_false_iff in H as [H1 H2]. rewrite H1. auto.
Qed.

Lemma offset_of_append (s t : string) (c : ascii) :
  holds_char c s = false ->
  offset_of (s ++ String c t) c = Some (String.length s).
Proof.
  induction s as [|d s IH]; simpl; intros H.
  - now rewrite Ascii.eqb_refl.
  - apply orb_false_iff in H as [H1 H2]. rewrite H1, IH by assumption. reflexivity.
Qed.

Lemma offset_of_bound (s : string) (c : ascii) (n : nat) :
  offset_of s c = Some n ->
  (n < String.length s)%nat /\ holds_char c (substring 0 n s) = false.
Proof.
  revert n. induction s as [|d s IH]; simpl; intros n H; [discriminate|].
  destruct (Ascii.eqb d c) eqn:E.
  - inversion H; subst. simpl. split; [lia|reflexivity].
  - destruct (offset_of s c) as [k|]; [|discriminate]. inversion H; subst.
    destruct (IH k eq_refl) as [H1 H2]. simpl. rewrite E, H2. split; [lia|reflexivity].
Qed.

(** *** [strrchr] *)

Lemma strrchr_none (s : string) (c : ascii) :
  strrchr s c = None <-> holds_char c s = false.
Proof.
  induction s as [|d s IH]; simpl; [tauto|].
  destruct (strrchr s c) as [t|].
  - split; [discriminate|]. intros H. apply orb_false_iff in H as [_ H].
    apply IH in H. discriminate.
  - destruct IH as [IH _]. rewrite (IH eq_refl), orb_false_r.
    destruct (Ascii.eqb d c); split; congruence.
Qed.

Lemma last_offset_of_none (s : string) (c : ascii) :
  last_offset_of s c = None <-> holds_char c s = false.
Proof.
  induction s as [|d s IH]; simpl; [tauto|].
  destruct (last_offset_of s c) as [t|].
  - split; [discriminate|]. intros H. apply orb_false_iff in H as [_ H].
    apply IH in H. discriminate.
  - destruct IH as [IH _]. rewrite (IH eq_refl), orb_false_r.
    destruct (Ascii.eqb d c); split; congruence.
Qed.

Lemma strrchr_append (s t : string) (c : ascii) :
  holds_char c t = false ->
  strrchr (s ++ String c t) c = Some (String c t).
Proof.
  intros H. induction s as [|d s IH]; simpl.
  - apply strrchr_none in H. rewrite H, Ascii.eqb_refl. reflexivity.
  - now rewrite IH.
Qed.

Lemma last_offset_of_append (s t : string) (c : ascii) :
  holds_char c t = false ->
  last_offset_of (s ++ String c t) c = Some (String.length s).
Proof.
  intros H. induction s as [|d s IH]; simpl.
  - apply last_offset_of_none in H. rewrite H, Ascii.eqb_refl. reflexivity.
  - now rewrite IH.
Qed.

Lemma strrchr_suffix (s t : string) (c : ascii) :
  strrchr s c = Some t -> exists pre, s = (pre ++ t)%string.
Proof.
  revert t. induction s as [|d s IH]; simpl; intros t H; [discriminate|].
  destruct (strrchr s c) as [u|].
  - inversion H; subst. destruct (IH t eq_refl) as [pre ->].
    exists (String d pre). reflexivity.
  - destruct (Ascii.eqb d c); [|discriminate]. inversion H; subst.
    exists EmptyString. reflexivity.
Qed.
End Text_facts.

(** ** The field parser [get_field] and the month of a date *)

Module Parse_facts.
Import CLib Parse Csv Text_facts.

Lemma substring_0_append_short (n : nat) (s t : string) :
  (n <= String.length s)%nat -> substring 0 n (s ++ t) = substring 0 n s.
Proof.
  revert n. induction s as [|c s IH]; intros [|n] H; simpl in *;
    try reflexivity; try lia.
  - apply substring_0_0.
  - f_equal. apply IH. lia.
Qed.

Lemma plain_no_comma (s : string) : plain s = true -> holds_char ","%char s = false.
Proof.
  induction s as [|c s IH]; simpl; [reflexivity|]. intros H.
  apply andb_true_iff in H as [H1 H3]. apply andb_true_iff in H1 as [H1 H2].
  apply negb_true_iff in H1. rewrite H1. simpl. auto.
Qed.

Lemma plain_no_newline (s : string) : plain s = true -> holds_char newline s = false.
Proof.
  induction s as [|c s IH]; simpl; [reflexivity|]. intros H.
  apply andb_true_iff in H as [H1 H3]. apply andb_true_iff in H1 as [H1 H2].
  apply negb_true_iff in H2. rewrite H2. simpl. auto.
Qed.

Lemma line_end_no_comma eol : line_end eol -> holds_char ","%char eol = false.
Proof. intros [->| ->]; reflexivity. Qed.

Lemma line_cons (f g : string) (fields : list string) :
  line (f :: g :: fields) = (f ++ String ","%char (line (g :: fields)))%string.
Proof. reflexivity. Qed.

Lemma skip_fields_line (eol : string) : forall k fields,
  Forall (fun f => plain f = true) fields -> (k < length fields)%nat ->
  skip_fields k (line fields ++ eol) = Some (line (drop k fields) ++ eol)%string.
Proof.
  induction k as [|k IH]; intros fields Hp Hk; [reflexivity|].
  destruct fields as [|f [|g fields]]; simpl in Hk; try lia.
  rewrite line_cons, append_assoc'. cbn [skip_fields append].
  inversion Hp as [|? ? Hf Hrest]; subst.
  rewrite (strchr_append f _ _ (plain_no_comma f Hf)).
  rewrite IH by (simpl; auto; lia). reflexivity.
Qed.

Lemma skip_fields_short (eol : string) : forall k fields,
  Forall (fun f => plain f = true) fields -> line_end eol ->
  (length fields <= k)%nat -> (1 <= k)%nat ->
  skip_fields k (line fields ++ eol) = None.
Proof.
  induction k as [|k IH]; intros fields Hp He Hk H1; [lia|].
  cbn [skip_fields].
  destruct fields as [|f [|g fields]].
  - simpl. apply line_end_no_comma, strchr_none in He. now rewrite He.
  - cbn [line]. inversion Hp as [|? ? Hf _]; subst.
    assert (H : strchr (f ++ eol) ","%char = None).
    { apply strchr_none. rewrite holds_char_append, (plain_no_comma f Hf).
      now apply line_end_no_comma. }
    now rewrite H.
  - rewrite line_cons, append_assoc'. cbn [append].
    inversion Hp as [|? ? Hf Hrest]; subst.
    rewrite (strchr_append f _ _ (plain_no_comma f Hf)).
    simpl in Hk. apply IH; auto; simpl; lia.
Qed.

(** The length [get_field] copies when the field is [f], before the
    cut to the buffer. *)
Lemma field_length (f eol : string) (rest : list string) :
  plain f = true -> line_end eol ->
  let start := (line (f :: rest) ++ eol)%string in
  match offset_of start ","%char with
  | Some n => n
  | None =>
      match offset_of start newline with
      | Some n => n
      | None => String.length start
      end
  end = String.length f.
Proof.
  intros Hf He start. unfold start. destruct rest as [|g rest].
  - cbn [line].
    assert (H : offset_of (f ++ eol) ","%char = None).
    { apply offset_of_none. rewrite holds_char_append, (plain_no_comma f Hf).
      now apply line_end_no_comma. }
    rewrite H. destruct He as [->| ->].
    + rewrite append_empty_r.
      assert (H' : offset_of f newline = None)
        by now apply offset_of_none, plain_no_newline.
      now rewrite H'.
    + now rewrite (offset_of_append f _ _ (plain_no_newline f Hf)).
  - rewrite line_cons, append_assoc'. cbn [append].
    now rewrite (offset_of_append f _ _ (plain_no_comma f Hf)).
Qed.

Lemma get_month_mpi_clamp (date : string) :
  get_month_mpi date
  = (let month := get_month date in
     if (month <? 0) || (month >? 11) then -1 else month).
Proof.
  unfold get_month_mpi, get_month.
  destruct (String.length date <? 7)%nat; [reflexivity|].
  destruct (get 5 date), (get 6 date); reflexivity.
Qed.

(** X1.  [get_field] never overruns its buffer: with a buffer of at
    least one character, the text it stores is shorter than the buffer
    (so that the terminating zero fits), whatever the line and the field
    number; and the text never holds a comma. *)
Theorem get_field_fits_buffer (line : string) (field_num buf_size : nat) :
  (1 <= buf_size)%nat ->
  (String.length (get_field line field_num buf_size) < buf_size)%nat /\
  holds_char ","%char (get_field line field_num buf_size) = false.
Proof.
  intros Hb. unfold get_field.
  destruct (skip_fields field_num line) as [start|]; [|simpl; split; [lia|reflexivity]].
  set (len := match offset_of start ","%char with
              | Some n => n
              | None => match offset_of start newline with
                        | Some n => n
                        | None => String.length start
                        end
              end).
  set (len' := if (buf_size <=? len)%nat then (buf_size - 1)%nat else len).
  assert (Hlen' : (len' <= len)%nat /\ (len' < buf_size)%nat).
  { unfold len'. destruct (Nat.leb_spec buf_size len); lia. }
  split.
  - rewrite length_substring_0. lia.
  - destruct (offset_of start ","%char) as [n|] eqn:E.
    + destruct (offset_of_bound _ _ _ E) as [_ H].
      rewrite <- (substring_0_twice len' n) by (unfold len in Hlen'; lia).
      now apply holds_char_substring.
    + apply holds_char_substring. now apply offset_of_none.
Qed.

Lemma get_field_fits_buffer_witness :
  (String.length (get_field "SA001,Riyadh,2020-01-15,winter,14.5" 2 8) < 8)%nat /\
  get_field "SA001,Riyadh,2020-01-15,winter,14.5" 2 8 = "2020-01"%string.
Proof.
  split.
  - apply (get_field_fits_buffer "SA001,Riyadh,2020-01-15,winter,14.5" 2 8). lia.
  - reflexivity.
Defined.

(** X2.  Reading back a line written with commas: when no field holds a
    comma or a line end, [get_field] on the line (with or without its
    final line end) gives field [k] as it was written, cut to the first
    [buf_size - 1] characters when it does not fit the buffer; and it
    gives the empty text for every field number past the last field. *)
Theorem get_field_reads_back (fields : list string) (eol : string)
    (k buf_size : nat) :
  Forall (fun f => plain f = true) fields ->
  line_end eol ->
  (1 <= buf_size)%nat ->
  (forall f, fields !! k = Some f ->
     get_field (Csv.line fields ++ eol) k buf_size
     = if (buf_size <=? String.length f)%nat then substring 0 (buf_size - 1) f else f) /\
  ((length fields <= k)%nat ->
   get_field (Csv.line fields ++ eol) k buf_size = EmptyString).
Proof.
  intros Hp He Hb. split.
  - intros f Hk.
    assert (Hlt : (k < length fields)%nat) by (eapply lookup_lt_Some, Hk).
    unfold get_field. rewrite (skip_fields_line eol k fields Hp Hlt).
    destruct (drop k fields) as [|f' rest] eqn:Hd.
    { apply (f_equal length) in Hd. rewrite length_drop in Hd. simpl in Hd. lia. }
    assert (f' = f).
    { pose proof (lookup_drop fields k 0) as H. rewrite Hd, Nat.add_0_r, Hk in H.
      simpl in H. congruence. }
    subst f'.
    assert (Hf : plain f = true).
    { rewrite Forall_forall in Hp. apply Hp. eapply list_elem_of_lookup_2, Hk. }
    pose proof (field_length f eol rest Hf He) as Hl. cbv zeta in Hl. rewrite Hl.
    assert (Hs : exists t, (Csv.line (f :: rest) ++ eol)%string = (f ++ t)%string).
    { destruct rest as [|g rest]; [now exists eol|].
      rewrite line_cons, append_assoc'. eauto. }
    destruct Hs as [t ->].
    destruct (Nat.leb_spec buf_size (String.length f)).
    + apply substring_0_append_short. lia.
    + apply substring_0_append_exact.
  - intros Hk. unfold get_field.
    destruct k as [|k].
    + destruct fields; [|simpl in Hk; lia]. cbn [skip_fields Csv.line append].
      destruct buf_size as [|b]; [lia|].
      destruct He as [->| ->]; reflexivity.
    + rewrite skip_fields_short; auto. lia.
Qed.

Lemma get_field_reads_back_witness :
  get_field (Csv.line reading ++ String newline EmptyString) 4 64 = "14.5"%string /\
  get_field (Csv.line reading ++ String newline EmptyString) 7 64 = EmptyString.
Proof.
  assert (Hp : Forall (fun f => plain f = true) reading) by (repeat constructor).
  assert (He : line_end (String newline EmptyString)) by (now right).
  split.
  - destruct (get_field_reads_back _ _ 4 64 Hp He ltac:(lia)) as [H _].
    apply (H "14.5"%string). reflexivity.
  - destruct (get_field_reads_back _ _ 7 64 Hp He ltac:(lia)) as [_ H].
    apply H. simpl. lia.
Defined.
End Parse_facts.

(** ** The month of a date *)

Module Month_facts.
Import CLib Parse Text_facts Parse_facts.

Lemma atoi_two_digits (d1 d2 : ascii) (v1 v2 : Z) :
  digit_of d1 = Some v1 -> digit_of d2 = Some v2 ->
  atoi (String d1 (String d2 EmptyString)) = 10 * v1 + v2.
Proof.
  intros H1 H2.
  destruct d1 as [[] [] [] [] [] [] [] []]; try discriminate H1;
    destruct d2 as [[] [] [] [] [] [] [] []]; try discriminate H2;
    vm_compute in H1, H2; inversion H1; inversion H2; reflexivity.
Qed.

Lemma digit_of_range (c : ascii) (v : Z) : digit_of c = Some v -> 0 <= v <= 9.
Proof.
  unfold digit_of.
  destruct (Z.leb_spec 48 (code c)), (Z.leb_spec (code c) 57); simpl;
    intros Hv; inversion Hv; lia.
Qed.

Lemma get_after (year s : string) (n : nat) :
  get (String.length year + n) (year ++ s) = get n s.
Proof. induction year as [|c year IH]; simpl; auto. Qed.

(** X3.  The month of a date written [YYYY-MM-...]: when the characters
    at positions 5 and 6 are the digits [d1] and [d2], [get_month] gives
    the number they write, less one.  The MPI program's [get_month]
    gives the same for the months 01 to 12 and -1 otherwise; it is
    always between -1 and 11, and a date shorter than seven characters
    gives -1 in both. *)
Theorem month_of_date (year rest : string) (d1 d2 : ascii) (v1 v2 : Z) :
  String.length year = 5%nat ->
  digit_of d1 = Some v1 -> digit_of d2 = Some v2 ->
  let date := (year ++ String d1 (String d2 rest))%string in
  get_month date = 10 * v1 + v2 - 1 /\
  -1 <= get_month date <= 98 /\
  (1 <= 10 * v1 + v2 <= 12 -> get_month_mpi date = 10 * v1 + v2 - 1) /\
  (12 < 10 * v1 + v2 -> get_month_mpi date = -1) /\
  (forall text, -1 <= get_month_mpi text <= 11) /\
  (forall text, (String.length text < 7)%nat ->
                get_month text = -1 /\ get_month_mpi text = -1).
Proof.
  intros Hy H1 H2 date.
  pose proof (digit_of_range _ _ H1). pose proof (digit_of_range _ _ H2).
  assert (Hm : get_month date = 10 * v1 + v2 - 1).
  { unfold get_month, date. rewrite length_append'. cbn [String.length].
    destruct (Nat.ltb_spec (String.length year + S (S (String.length rest))) 7); [lia|].
    rewrite <- Hy at 1. rewrite <- (Nat.add_0_r (String.length year)), get_after.
    replace 6%nat with (String.length year + 1)%nat by lia. rewrite get_after.
    cbn [get]. now rewrite (atoi_two_digits d1 d2 v1 v2). }
  split_and!.
  - exact Hm.
  - lia.
  - lia.
  - intros Hr. rewrite get_month_mpi_clamp, Hm. cbv zeta.
    destruct (Z.ltb_spec (10 * v1 + v2 - 1) 0), (Z.gtb_spec (10 * v1 + v2 - 1) 11);
      simpl; lia.
  - intros Hr. rewrite get_month_mpi_clamp, Hm. cbv zeta.
    destruct (Z.ltb_spec (10 * v1 + v2 - 1) 0), (Z.gtb_spec (10 * v1 + v2 - 1) 11);
      simpl; lia.
  - intros text. rewrite get_month_mpi_clamp. cbv zeta.
    destruct (Z.ltb_spec (get_month text) 0), (Z.gtb_spec (get_month text) 11);
      simpl; lia.
  - intros text Ht. unfold get_month, get_month_mpi.
    destruct (Nat.ltb_spec (String.length text) 7); [auto|lia].
Qed.

Lemma month_of_date_witness :
  get_month "1983-07-21" = 6 /\ get_month_mpi "1983-07-21" = 6 /\
  get_month_mpi "1983-13-01" = -1.
Proof.
  destruct (month_of_date "1983-" "-21" "0" "7" 0 7 eq_refl eq_refl eq_refl)
    as (H1 & _ & H2 & _).
  destruct (month_of_date "1983-" "-01" "1" "3" 1 3 eq_refl eq_refl eq_refl)
    as (_ & _ & _ & H3 & _).
  split; [exact H1|]. split; [apply H2; lia|apply H3; lia].
Defined.
End Month_facts.

(** ** The reduction of a file by the OpenMP and MPI programs *)

Module Reduce_facts.
Import CPU Lines Parse Local_reduction Parse_facts.

Lemma add_temp_out_of_year city month temp :
  in_year month = false -> add_temp city (-1) temp = add_temp city month temp.
Proof. unfold add_temp, in_year. intros ->. reflexivity. Qed.

Lemma process_line_mpi atof city line :
  process_line atof get_month_mpi city line = process_line atof get_month city line.
Proof.
  unfold process_line. rewrite get_month_mpi_clamp. cbv zeta.
  set (m := get_month (get_field line 2 32)).
  destruct (Z.ltb_spec m 0) as [H0|H0]; simpl.
  - rewrite (add_temp_out_of_year _ m); [reflexivity|].
    unfold in_year. destruct (Z.leb_spec 0 m); [lia|reflexivity].
  - destruct (Z.gtb_spec m 11) as [H1|H1]; [|reflexivity].
    rewrite (add_temp_out_of_year _ m); [reflexivity|].
    unfold in_year. destruct (Z.ltb_spec m 12); [lia|]. apply andb_false_r.
Qed.

Lemma reduce_lines_mpi atof lines : forall city,
  reduce_lines atof get_month_mpi city lines = reduce_lines atof get_month city lines.
Proof.
  induction lines as [|line lines IH]; intros city; [reflexivity|].
  unfold reduce_lines in *. cbn [fold_left]. now rewrite process_line_mpi, IH.
Qed.

Lemma reset_set_name slot n : reset (OpenMP.set_name slot n) = reset (Serial.blank n).
Proof. reflexivity. Qed.

Lemma process_city_file_mpi atof fp slot :
  MPI.process_city_file atof fp slot = OpenMP.process_city_file atof fp slot.
Proof.
  destruct fp as [[|h rs]|]; try reflexivity.
  unfold MPI.process_city_file, OpenMP.process_city_file, process_city_file.
  apply reduce_lines_mpi.
Qed.

(** X4.  The MPI program reduces a file as the OpenMP program does.
    The two [process_city_file] differ in [get_month] only: the MPI one
    gives -1 for a month outside 0 to 11, where the other gives the
    month as read (12 for the date [1983-13-04]).  The monthly fields
    are updated for the months 0 to 11 only, so that every line changes
    a slot alike under either [get_month], and the two functions give
    the same aggregate for every file and every slot. *)
Theorem mpi_reduces_as_openmp (atof : string -> double) (fp : file)
    (slot : CityStats) (line : string) :
  get_month_mpi "1983-13-04" = -1 /\
  get_month "1983-13-04" = 12 /\
  process_line atof get_month_mpi slot line = process_line atof get_month slot line /\
  MPI.process_city_file atof fp slot = OpenMP.process_city_file atof fp slot.
Proof.
  split_and!.
  - reflexivity.
  - reflexivity.
  - apply process_line_mpi.
  - apply process_city_file_mpi.
Qed.

Section Shape.
Variable atof : string -> double.
Variable month_of : string -> Z.

Lemma process_line_name city line :
  name (process_line atof month_of city line) = name city.
Proof.
  unfold process_line.
  destruct (present (get_field line 4 64)), (present (get_field line 7 64)); reflexivity.
Qed.

Lemma reduce_lines_name lines : forall city,
  name (reduce_lines atof month_of city lines) = name city.
Proof.
  induction lines as [|line lines IH]; intros city; [reflexivity|].
  unfold reduce_lines in *. cbn [fold_left]. now rewrite IH, process_line_name.
Qed.

Lemma process_line_monthly_count city line :
  monthly_temp_count (process_line atof month_of city line)
  = if has_temp line && in_year (month_of (date_field line))
    then alter (fun c => c + 1) (Z.to_nat (month_of (date_field line)))
           (monthly_temp_count city)
    else monthly_temp_count city.
Proof.
  unfold process_line, has_temp, temp_field, date_field, in_year.
  destruct (present (get_field line 4 64)), (present (get_field line 7 64));
    reflexivity.
Qed.

Lemma process_line_monthly_sum_length city line :
  length (monthly_temp_sum (process_line atof month_of city line))
  = length (monthly_temp_sum city).
Proof.
  unfold process_line, add_temp.
  destruct (present (get_field line 4 64)), (present (get_field line 7 64)); cbn;
    try reflexivity;
    destruct ((0 <=? month_of (get_field line 2 32))
              && (month_of (get_field line 2 32) <? 12));
    try reflexivity; apply length_alter.
Qed.

Lemma sum_alter_succ (l : list Z) : forall i,
  (i < length l)%nat ->
  fold_right Z.add 0 (alter (fun c => c + 1) i l) = fold_right Z.add 0 l + 1.
Proof.
  induction l as [|x l IH]; intros [|i] H; simpl in H; try lia.
  - simpl. lia.
  - assert (Hi : (i < length l)%nat) by lia.
    specialize (IH i Hi). unfold alter in IH. simpl. lia.
Qed.

Lemma reduce_lines_shape lines : forall city,
  length (monthly_temp_count city) = 12%nat ->
  let after := reduce_lines atof month_of city lines in
  length (monthly_temp_sum after) = length (monthly_temp_sum city) /\
  length (monthly_temp_count after) = 12%nat /\
  fold_right Z.add 0 (monthly_temp_count after)
  = fold_right Z.add 0 (monthly_temp_count city)
    + Z.of_nat (length (List.filter
                          (fun l => has_temp l && in_year (month_of (date_field l)))
                          lines)).
Proof.
  induction lines as [|line lines IH]; intros city Hc; cbv zeta.
  - simpl. repeat split; auto; lia.
  - unfold reduce_lines. cbn [fold_left List.filter].
    fold (reduce_lines atof month_of (process_line atof month_of city line) lines).
    assert (Hc' : length (monthly_temp_count (process_line atof month_of city line))
                  = 12%nat).
    { rewrite process_line_monthly_count.
      destruct (has_temp line && in_year (month_of (date_field line)));
        [now rewrite length_alter|assumption]. }
    destruct (IH _ Hc') as (H1 & H2 & H3).
    rewrite H1, H2, H3, process_line_monthly_sum_length, process_line_monthly_count.
    split; [reflexivity|]. split; [reflexivity|].
    destruct (has_temp line && in_year (month_of (date_field line))) eqn:E.
    + apply andb_true_iff in E as [_ E]. unfold in_year in E.
      apply andb_true_iff in E as [E1 E2].
      rewrite sum_alter_succ by lia. cbn [length]. lia.
    + lia.
Qed.

Lemma filter_length_le {A} (f g : A -> bool) (l : list A) :
  (forall x, f x = true -> g x = true) ->
  (length (List.filter f l) <= length (List.filter g l))%nat.
Proof.
  intros H. induction l as [|x l IH]; simpl; [lia|].
  destruct (f x) eqn:E.
  - rewrite (H x E). simpl. lia.
  - destruct (g x); simpl; lia.
Qed.
End Shape.

(** X5.  What [process_city_file] of the CPU programs keeps, for a file
    that opens and has a header, whatever the lines hold and whatever
    the slot held: the name of the slot; twelve monthly sums and twelve
    monthly counts (no bucket outside the arrays is written); counts
    that are not negative and not above the number of records; and
    monthly counts whose total is the number of records with a
    temperature and a month from 0 to 11, hence at most the temperature
    count. *)
Theorem reduction_keeps_its_shape (atof : string -> double) (month_of : string -> Z)
    (slot : CityStats) (header : string) (records : list string) :
  let city := process_city_file atof month_of (Some (header :: records)) slot in
  name city = name slot /\
  length (monthly_temp_sum city) = 12%nat /\
  length (monthly_temp_count city) = 12%nat /\
  0 <= temp_count city <= record_count city /\
  0 <= precip_count city <= record_count city /\
  fold_right Z.add 0 (monthly_temp_count city)
  = Z.of_nat (length (List.filter
                        (fun l => has_temp l && in_year (month_of (date_field l)))
                        records)) /\
  fold_right Z.add 0 (monthly_temp_count city) <= temp_count city.
Proof.
  intros city. unfold city, process_city_file.
  destruct (reduce_lines_counts atof month_of (reset slot) records) as (Hr & Ht & Hp).
  destruct (reduce_lines_shape atof month_of records (reset slot) eq_refl)
    as (Hs & Hc & Hm).
  cbn [record_count temp_count precip_count reset] in Hr, Ht, Hp.
  pose proof (List.filter_length_le has_temp records) as Hlt.
  pose proof (List.filter_length_le has_precip records) as Hlp.
  pose proof (filter_length_le
                (fun l => has_temp l && in_year (month_of (date_field l)))
                has_temp records) as Hlm.
  split_and!.
  - now rewrite reduce_lines_name.
  - rewrite Hs. reflexivity.
  - exact Hc.
  - lia.
  - lia.
  - lia.
  - lia.
  - rewrite Hm. reflexivity.
  - rewrite Hm, Ht. cbn [monthly_temp_count reset].
    change (fold_right Z.add 0 (replicate 12 0)) with 0.
    assert ((length (List.filter
                       (fun l => has_temp l && in_year (month_of (date_field l)))
                       records) <= length (List.filter has_temp records))%nat).
    { apply Hlm. intros x Hx. now apply andb_true_iff in Hx as [Hx _]. }
    lia.
Qed.
End Reduce_facts.

(** ** The directory scan *)

Module Scan_facts.
Import CLib Directory Csv Text_facts Reduce_facts.

Lemma length_spaces_for_underscores (s : string) :
  String.length (spaces_for_underscores s) = String.length s.
Proof. induction s as [|c s IH]; simpl; congruence. Qed.

Lemma no_underscore_left (s : string) :
  holds_char "_"%char (spaces_for_underscores s) = false.
Proof.
  induction s as [|c s IH]; simpl; [reflexivity|]. rewrite IH, orb_false_r.
  destruct (Ascii.eqb c "_"%char) eqn:E; [reflexivity|exact E].
Qed.

Lemma spaces_for_underscores_plain (s : string) :
  holds_char "_"%char s = false -> spaces_for_underscores s = s.
Proof.
  induction s as [|c s IH]; simpl; [reflexivity|]. intros H.
  apply orb_false_iff in H as [H1 H2]. rewrite H1, IH by assumption. reflexivity.
Qed.

Lemma last_offset_of_bound (s : string) (c : ascii) (n : nat) :
  last_offset_of s c = Some n -> (n < String.length s)%nat.
Proof.
  revert n. induction s as [|d s IH]; simpl; intros n H; [discriminate|].
  destruct (last_offset_of s c) as [k|].
  - inversion H; subst. specialize (IH k eq_refl). lia.
  - destruct (Ascii.eqb d c); inversion H; lia.
Qed.

(** A city name as [main] makes it is short enough to be stored whole. *)
Lemma city_name_of_length (d_name : string) :
  (String.length (city_name_of d_name) <= 127)%nat.
Proof.
  unfold city_name_of. rewrite length_spaces_for_underscores.
  change (MAX_NAME - 1)%nat with 127%nat.
  pose proof (length_substring_0 127 d_name) as Hl.
  destruct (last_offset_of (substring 0 127 d_name) "."%char) as [dot|] eqn:E.
  - rewrite length_substring_0. lia.
  - lia.
Qed.

Lemma copied_name_of (d_name : string) :
  copied_name (city_name_of d_name) = city_name_of d_name.
Proof. unfold copied_name. apply substring_0_all, city_name_of_length. Qed.

(** X6.  Which directory entries are taken: exactly those whose name
    ends in [.csv].  (The test looks at the text from the last dot of
    the name on, so that [a.csv.bak] and [csv] are left out and
    [a.b.csv] is taken.) *)
Theorem is_csv_iff_suffix (d_name : string) :
  is_csv d_name = true <-> exists base, d_name = (base ++ ".csv")%string.
Proof.
  unfold is_csv. split.
  - destruct (strrchr d_name "."%char) as [ext|] eqn:E; [|discriminate].
    intros H. apply String.eqb_eq in H. subst ext.
    apply strrchr_suffix in E as [pre ->]. now exists pre.
  - intros [base ->].
    rewrite (strrchr_append base "csv" "."%char eq_refl). reflexivity.
Qed.

(** X7.  The city name of a directory entry has at most 127 characters
    and no underscore.  For an entry [base.csv] of at most 127
    characters it is [base] with every underscore replaced by a space,
    hence [base] itself when [base] has no underscore. *)
Theorem city_name_of_entry (d_name base : string) :
  (String.length (city_name_of d_name) <= 127)%nat /\
  holds_char "_"%char (city_name_of d_name) = false /\
  ((String.length base + 4 <= 127)%nat ->
   city_name_of (base ++ ".csv") = spaces_for_underscores base /\
   (holds_char "_"%char base = false -> city_name_of (base ++ ".csv") = base)).
Proof.
  split_and!.
  - unfold city_name_of. rewrite length_spaces_for_underscores.
    change (MAX_NAME - 1)%nat with 127%nat.
    pose proof (length_substring_0 127 d_name) as Hl.
    destruct (last_offset_of (substring 0 127 d_name) "."%char) as [dot|] eqn:E.
    + rewrite length_substring_0. lia.
    + lia.
  - apply no_underscore_left.
  - intros Hb.
    assert (H : city_name_of (base ++ ".csv") = spaces_for_underscores base).
    { unfold city_name_of. change (MAX_NAME - 1)%nat with 127%nat.
      rewrite substring_0_all by (rewrite length_append'; simpl; lia).
      rewrite (last_offset_of_append base "csv" "."%char eq_refl).
      now rewrite substring_0_append_exact. }
    split; [exact H|]. intros Hu. rewrite H. now apply spaces_for_underscores_plain.
Qed.

Lemma collect_loop_spec data_dir max_cities entries : forall file_paths city_names,
  let chosen := take (Z.to_nat max_cities - length file_paths)
                  (List.filter is_csv entries) in
  collect_loop data_dir max_cities entries file_paths city_names
  = (file_paths ++ (filepath data_dir <$> chosen),
     city_names ++ (city_name_of <$> chosen)).
Proof.
  induction entries as [|d entries IH]; intros fp cn; cbv zeta.
  - cbn. now rewrite take_nil, !app_nil_r.
  - cbn [collect_loop List.filter].
    destruct (Z.ltb_spec (Z.of_nat (length fp)) max_cities) as [Hlt|Hge].
    + destruct (is_csv d).
      * rewrite IH. cbv zeta. rewrite length_app. cbn [length].
        replace (Z.to_nat max_cities - length fp)%nat
          with (S (Z.to_nat max_cities - (length fp + 1)))%nat by lia.
        cbn [take fmap list_fmap]. now rewrite <- !app_assoc.
      * apply IH.
    + replace (Z.to_nat max_cities - length fp)%nat with 0%nat by lia.
      now rewrite !take_0, !app_nil_r.
Qed.

(** X8.  With a limit [max_cities] of at most [MAX_FILES], the size of
    the arrays [file_paths] and [city_names], [collect_files] lists the
    first [max_cities] entries that end in [.csv], in the order of the
    directory, each with its path and its city name; the two arrays are
    filled to the same length, which is at most [max_cities] (nothing is
    listed when [max_cities] is not positive) and so within the arrays. *)
Theorem collect_files_lists_first_csv (data_dir : string) (max_cities : Z)
    (entries : list string) :
  max_cities <= MAX_FILES ->
  let chosen := take (Z.to_nat max_cities) (List.filter is_csv entries) in
  collect_files data_dir max_cities entries
  = (filepath data_dir <$> chosen, city_name_of <$> chosen) /\
  length (collect_files data_dir max_cities entries).1
  = length (collect_files data_dir max_cities entries).2 /\
  Z.of_nat (length (collect_files data_dir max_cities entries).1) <= Z.max 0 max_cities /\
  Z.of_nat (length (collect_files data_dir max_cities entries).1) <= MAX_FILES.
Proof.
  intros Hmax chosen.
  assert (H : collect_files data_dir max_cities entries
              = (filepath data_dir <$> chosen, city_name_of <$> chosen)).
  { unfold collect_files. rewrite collect_loop_spec. cbv zeta. cbn [length app].
    now rewrite Nat.sub_0_r. }
  rewrite H. cbn [fst snd]. rewrite !length_fmap.
  assert (Z.of_nat (length chosen) <= Z.max 0 max_cities)
    by (unfold chosen; rewrite length_take; lia).
  unfold MAX_FILES in *. split_and!; auto; lia.
Qed.

Lemma collect_files_lists_first_csv_witness :
  collect_files "data" 2 ["a_b.csv"%string; "notes.txt"%string; "c.csv"%string; "d.csv"%string]
  = (["data/a_b.csv"%string; "data/c.csv"%string], ["a b"%string; "c"%string]).
Proof.
  destruct (collect_files_lists_first_csv "data" 2
              ["a_b.csv"%string; "notes.txt"%string; "c.csv"%string; "d.csv"%string])
    as (H & _).
  - unfold MAX_FILES. lia.
  - exact H.
Defined.

(** *** The loop of the serial and of the CUDA [main] *)

Section Scan.
Variable process : file -> string -> list CityStats -> list CityStats.
Variable fopen : string -> file.
Variable data_dir : string.
Variable max_cities : Z.

(** The processing function appends at most one city. *)
Hypothesis process_appends : forall fp city_name cities,
  process fp city_name cities = cities \/
  exists city, process fp city_name cities = cities ++ [city].


Lemma scan_loop_prefix entries : forall cities,
  exists added, scan_loop process fopen data_dir max_cities entries cities
                = cities ++ added.
Proof.
  induction entries as [|d entries IH]; intros cities; cbn [scan_loop].
  - exists []. now rewrite app_nil_r.
  - destruct (Z.of_nat (length cities) <? max_cities);
      [|exists []; now rewrite app_nil_r].
    destruct (is_csv d); [|apply IH].
    destruct (process_appends (fopen (filepath data_dir d)) (city_name_of d) cities)
      as [->|[city ->]]; [apply IH|].
    destruct (IH (cities ++ [city])) as [added ->].
    exists (city :: added). now rewrite <- app_assoc.
Qed.

End Scan.





End Scan_facts.

(** ** The rankings of [print_results] *)

Module Report_facts.
Import Report IEEE_facts.

Section Sort.
Context {A : Type}.
Variable above : A -> A -> bool.

Lemma insert_middle (l2 l3 : list A) (x y : A) :
  <[length l2 := x]> (l2 ++ y :: l3) = l2 ++ x :: l3.
Proof. induction l2 as [|z l2 IH]; simpl; [reflexivity|]. f_equal. exact IH. Qed.

Lemma swap_decomposed (l1 l2 l3 : list A) (x y : A) :
  <[(length l1 + S (length l2))%nat := x]>
    (<[length l1 := y]> (l1 ++ x :: l2 ++ y :: l3))
  = l1 ++ y :: l2 ++ x :: l3.
Proof.
  induction l1 as [|z l1 IH]; simpl.
  - f_equal. apply insert_middle.
  - f_equal. exact IH.
Qed.

Lemma decompose (l : list A) (i j : nat) (ci cj : A) :
  (i < j)%nat -> l !! i = Some ci -> l !! j = Some cj ->
  exists l1 l2 l3,
    l = l1 ++ ci :: l2 ++ cj :: l3 /\ length l1 = i /\
    (length l1 + S (length l2))%nat = j.
Proof.
  intros Hij Hi Hj.
  pose proof (lookup_lt_Some _ _ _ Hi) as Hli.
  assert (Hr : drop (S i) l !! (j - S i)%nat = Some cj).
  { rewrite lookup_drop. replace (S i + (j - S i))%nat with j by lia. exact Hj. }
  pose proof (lookup_lt_Some _ _ _ Hr) as Hlr.
  exists (take i l), (take (j - S i) (drop (S i) l)),
         (drop (S (j - S i)) (drop (S i) l)).
  rewrite length_drop in Hlr. split_and!.
  - now rewrite (take_drop_middle _ _ _ Hr), (take_drop_middle _ _ _ Hi).
  - rewrite length_take. lia.
  - rewrite !length_take, length_drop. lia.
Qed.

Lemma exchange_perm (i j : nat) (l : list A) :
  (i < j)%nat -> exchange above i j l ≡ₚ l.
Proof.
  intros Hij. unfold exchange.
  destruct (l !! i) as [ci|] eqn:Hi; [|reflexivity].
  destruct (l !! j) as [cj|] eqn:Hj; [|reflexivity].
  destruct (above cj ci); [|reflexivity].
  destruct (decompose l i j ci cj Hij Hi Hj) as (l1 & l2 & l3 & -> & <- & <-).
  rewrite swap_decomposed. solve_Permutation.
Qed.

Lemma exchange_length (i j : nat) (l : list A) :
  length (exchange above i j l) = length l.
Proof.
  unfold exchange. destruct (l !! i), (l !! j); try reflexivity.
  destruct (above _ _); [|reflexivity]. now rewrite !length_insert.
Qed.

(** What the exchange leaves at each index. *)
Lemma exchange_lookup (i j : nat) (l : list A) (ci cj : A) :
  (i < j)%nat -> l !! i = Some ci -> l !! j = Some cj ->
  (above cj ci = false /\ exchange above i j l = l) \/
  (above cj ci = true /\
   exchange above i j l !! i = Some cj /\
   exchange above i j l !! j = Some ci /\
   forall k, k <> i -> k <> j -> exchange above i j l !! k = l !! k).
Proof.
  intros Hij Hi Hj. unfold exchange. rewrite Hi, Hj.
  pose proof (lookup_lt_Some _ _ _ Hi). pose proof (lookup_lt_Some _ _ _ Hj).
  destruct (above cj ci); [right|left; auto].
  split; [reflexivity|]. split_and!.
  - rewrite list_lookup_insert_ne by lia. now apply list_lookup_insert_eq.
  - apply list_lookup_insert_eq. now rewrite length_insert.
  - intros k Hki Hkj. now rewrite !list_lookup_insert_ne by lia.
Qed.

Lemma inner_loop_perm (n i : nat) (l : list A) : inner_loop above n i l ≡ₚ l.
Proof.
  unfold inner_loop.
  assert (H : forall js l, Forall (fun j => i < j)%nat js ->
                           fold_left (fun cs j => exchange above i j cs) js l ≡ₚ l).
  { induction js as [|j js IH]; intros l' Hjs; [reflexivity|].
    inversion Hjs; subst. cbn [fold_left]. rewrite IH by assumption.
    now apply exchange_perm. }
  apply H. apply Forall_forall. intros j Hj. apply elem_of_seq in Hj. lia.
Qed.

Lemma sort_loop_perm (n : nat) (l : list A) : sort_loop above n l ≡ₚ l.
Proof.
  unfold sort_loop. generalize (seq 0 (n - 1)). intros idx. revert l.
  induction idx as [|i idx IH]; intros l; [reflexivity|].
  cbn [fold_left]. rewrite IH. apply inner_loop_perm.
Qed.

(** *** The order the loops establish *)

Variable P : A -> Prop.
Hypothesis above_irrefl : forall x, P x -> above x x = false.
Hypothesis above_chain : forall x y z, P x -> P y -> P z ->
  above y x = true -> above z x = false -> above z y = false.

Lemma inner_step (i m : nat) (l0 l : list A) :
  (i < m)%nat -> inner_inv above P i m l0 l -> inner_inv above P i (S m) l0 (exchange above i m l).
Proof.
  intros Him (Hlen & HP & Hpre & Hsuf & Hord).
  destruct (l !! m) as [cm|] eqn:Hm.
  2:{ assert (He : exchange above i m l = l).
      { unfold exchange. rewrite Hm. now destruct (l !! i). }
      rewrite He. repeat split; auto.
      intros k x y Hk Hx Hy. destruct (decide (k = m)) as [->|]; [congruence|].
      apply (Hord k x y); auto. lia. }
  pose proof (lookup_lt_Some _ _ _ Hm) as Hlm.
  destruct (lookup_lt_is_Some_2 l i ltac:(lia)) as [ci Hi].
  assert (Pci : P ci) by (rewrite Forall_forall in HP; eapply HP, list_elem_of_lookup_2, Hi).
  assert (Pcm : P cm) by (rewrite Forall_forall in HP; eapply HP, list_elem_of_lookup_2, Hm).
  destruct (exchange_lookup i m l ci cm Him Hi Hm) as [[Hno ->]|(Hyes & Ei & Em & Eo)].
  - repeat split; auto.
    intros k x y Hk Hx Hy. destruct (decide (k = m)) as [->|]; [congruence|].
    apply (Hord k x y); auto. lia.
  - split_and!.
    + now rewrite exchange_length.
    + rewrite (exchange_perm i m l Him). exact HP.
    + intros k Hk. rewrite Eo by lia. now apply Hpre.
    + intros b y Hb Hy.
      destruct (decide (b = i)) as [->|Hbi].
      { rewrite Ei in Hy. inversion Hy; subst. apply (Hsuf m); auto. lia. }
      destruct (decide (b = m)) as [->|Hbm].
      { rewrite Em in Hy. inversion Hy; subst. apply (Hsuf i); auto. }
      rewrite Eo in Hy by assumption. now apply (Hsuf b).
    + intros k x y Hk Hx Hy. rewrite Ei in Hx. inversion Hx; subst x.
      destruct (decide (k = m)) as [->|Hkm].
      * rewrite Em in Hy. inversion Hy; subst y.
        apply (above_chain ci cm ci); auto.
      * rewrite Eo in Hy by lia.
        assert (Py : P y)
          by (rewrite Forall_forall in HP; eapply HP, list_elem_of_lookup_2, Hy).
        apply (above_chain ci cm y); auto. apply (Hord k ci y); auto. lia.
Qed.

Lemma inner_fold (i : nat) (l0 : list A) : forall len m l,
  (i < m)%nat -> inner_inv above P i m l0 l ->
  inner_inv above P i (m + len) l0
    (fold_left (fun cs j => exchange above i j cs) (seq m len) l).
Proof.
  induction len as [|len IH]; intros m l Him Hinv.
  - now rewrite Nat.add_0_r.
  - cbn [seq fold_left]. replace (m + S len)%nat with (S m + len)%nat by lia.
    apply IH; [lia|]. now apply inner_step.
Qed.

Lemma outer_step (i : nat) (l : list A) :
  Forall P l -> settled above i l ->
  Forall P (inner_loop above (length l) i l) /\
  settled above (S i) (inner_loop above (length l) i l).
Proof.
  intros HP Hs. unfold inner_loop.
  assert (H0 : inner_inv above P i (i + 1) l l).
  { repeat split; auto. - intros b y Hb Hy. eauto. - intros k x y Hk. lia. }
  pose proof (inner_fold i l (length l - (i + 1)) (i + 1) l ltac:(lia) H0)
    as (Hlen & HP' & Hpre & Hsuf & Hord).
  set (l' := fold_left _ _ l) in *.
  split; [exact HP'|].
  intros a b x y Ha Hab Hx Hy.
  pose proof (lookup_lt_Some _ _ _ Hy) as Hb.
  destruct (decide (a = i)) as [->|Hai].
  - apply (Hord b x y); auto. lia.
  - rewrite Hpre in Hx by lia.
    destruct (decide (b < i)%nat) as [Hbi|Hbi].
    + rewrite Hpre in Hy by lia. apply (Hs a b x y); auto. lia.
    + destruct (Hsuf b y ltac:(lia) Hy) as (b' & Hb' & Hy').
      apply (Hs a b' x y); auto; lia.
Qed.

Lemma sort_loop_settled (l : list A) :
  Forall P l -> settled above (length l - 1) (sort_loop above (length l) l).
Proof.
  intros HP. unfold sort_loop.
  assert (H : forall len l',
            length l' = length l -> Forall P l' -> settled above 0 l' ->
            let r := fold_left (fun cs i => inner_loop above (length l) i cs)
                       (seq 0 len) l' in
            length r = length l /\ Forall P r /\ settled above len r).
  { induction len as [|len IH]; intros l' Hl HP' Hs; cbv zeta.
    - auto.
    - rewrite seq_S, fold_left_app. cbn [fold_left Nat.add].
      destruct (IH l' Hl HP' Hs) as (Hl1 & HP1 & Hs1).
      set (r := fold_left _ (seq 0 len) l') in *.
      rewrite <- Hl1.
      destruct (outer_step len r HP1 Hs1) as [HP2 Hs2].
      split_and!; auto.
      now rewrite (Permutation_length (inner_loop_perm (length r) len r)). }
  apply H; auto. intros a b x y Ha. lia.
Qed.

Lemma sort_loop_sorted (l : list A) :
  Forall P l ->
  forall a b x y, (a < b)%nat ->
    sort_loop above (length l) l !! a = Some x ->
    sort_loop above (length l) l !! b = Some y ->
    above y x = false.
Proof.
  intros HP a b x y Hab Hx Hy.
  apply (sort_loop_settled l HP a b x y); auto.
  apply lookup_lt_Some in Hy.
  rewrite (Permutation_length (sort_loop_perm (length l) l)) in Hy. lia.
Qed.
End Sort.
End Report_facts.

Module Ranking_facts.
Import Report IEEE_facts Report_facts.

Lemma flt_irrefl (x : spec_float) : flt x x = false.
Proof.
  unfold flt, SFltb. destruct x as [[]|[]| |[] m e]; try reflexivity; simpl;
    rewrite ?Z.compare_refl, ?Pos.compare_refl; try reflexivity;
    unfold SFcompare; cbn; rewrite Z.compare_refl, Pos.compare_cont_refl; reflexivity.
Qed.

Lemma flt_chain (x y z : spec_float) :
  is_nan x = false -> is_nan y = false -> is_nan z = false ->
  flt x y = true -> flt x z = false -> flt y z = false.
Proof.
  intros Hx Hy Hz. rewrite !flt_nkey by assumption.
  pose proof (lex3_spec (nkey x) (nkey y)) as H1.
  pose proof (lex3_spec (nkey x) (nkey z)) as H2.
  pose proof (lex3_spec (nkey y) (nkey z)) as H3.
  destruct (nkey x) as [[x1 x2] x3], (nkey y) as [[y1 y2] y3], (nkey z) as [[z1 z2] z3].
  destruct (lex3 (x1, x2, x3) (y1, y2, y3)); try discriminate.
  destruct (lex3 (x1, x2, x3) (z1, z2, z3)); try discriminate;
    destruct (lex3 (y1, y2, y3) (z1, z2, z3)); try reflexivity;
    intros _ _; simpl in *; try (inversion H2; subst); lia.
Qed.

Section Key.
Variable key : CityStats -> double.

Lemma sorted_by_key (cities : list CityStats) :
  Forall (fun c => is_nan (key c) = false) cities ->
  let sorted := sort_loop (fun cj ci => flt (key ci) (key cj)) (length cities) cities in
  forall a b x y, (a < b)%nat -> sorted !! a = Some x -> sorted !! b = Some y ->
    fle (key y) (key x) = true.
Proof.
  intros HP sorted a b x y Hab Hx Hy.
  assert (HP' : Forall (fun c => is_nan (key c) = false) sorted).
  { unfold sorted. now rewrite sort_loop_perm. }
  rewrite Forall_forall in HP'.
  apply not_flt_fle.
  - eapply HP', list_elem_of_lookup_2, Hx.
  - eapply HP', list_elem_of_lookup_2, Hy.
  - apply (sort_loop_sorted (fun cj ci => flt (key ci) (key cj))
             (fun c => is_nan (key c) = false)) with (l := cities) (a := a) (b := b);
      auto.
    + intros c _. apply flt_irrefl.
    + intros c1 c2 c3 H1 H2 H3. now apply flt_chain.
Qed.
End Key.

Lemma totals_sums (cities : list CityStats) : forall total_records sum global_temp_count,
  let r := fold_left (fun '(total_records, global_temp_sum, global_temp_count) c =>
                        (total_records + record_count c,
                         dadd global_temp_sum (temp_sum c),
                         global_temp_count + temp_count c))
             cities (total_records, sum, global_temp_count) in
  r.1.1 = total_records + fold_right Z.add 0 (record_count <$> cities) /\
  r.2 = global_temp_count + fold_right Z.add 0 (temp_count <$> cities).
Proof.
  induction cities as [|c cities IH]; intros tr s gc; cbv zeta.
  - simpl. lia.
  - cbn [fold_left fmap list_fmap fold_right].
    destruct (IH (tr + record_count c) (dadd s (temp_sum c)) (gc + temp_count c))
      as [H1 H2].
    rewrite H1, H2. lia.
Qed.

Lemma sum_perm (l k : list Z) : l ≡ₚ k -> fold_right Z.add 0 l = fold_right Z.add 0 k.
Proof. induction 1; simpl; lia. Qed.

(** X10.  The two sorts of [print_results] only reorder the cities:
    each ranking holds every city exactly as often as the array did,
    whatever the values (a NaN included).  The record total and the
    temperature count of the overall statistics, which are taken after
    the second sort, are therefore the sums over the cities as
    given. *)
Theorem rankings_keep_every_city (cities : list CityStats) :
  sort_by_average cities ≡ₚ cities /\
  sort_by_precipitation (sort_by_average cities) ≡ₚ cities /\
  length (sort_by_precipitation (sort_by_average cities)) = length cities /\
  (print_results cities).2.1.1 = fold_right Z.add 0 (record_count <$> cities) /\
  (print_results cities).2.2 = fold_right Z.add 0 (temp_count <$> cities).
Proof.
  assert (H1 : sort_by_average cities ≡ₚ cities) by apply sort_loop_perm.
  assert (H2 : sort_by_precipitation (sort_by_average cities) ≡ₚ cities).
  { unfold sort_by_precipitation. now rewrite sort_loop_perm. }
  pose proof (totals_sums (sort_by_precipitation (sort_by_average cities)) 0 CPU.dzero 0)
    as [T1 T2].
  cbv zeta in T1, T2.
  split_and!; auto.
  - now rewrite H2.
  - unfold print_results, totals. cbn [snd]. rewrite T1, Z.add_0_l.
    apply sum_perm. now rewrite H2.
  - unfold print_results, totals. cbn [snd]. rewrite T2, Z.add_0_l.
    apply sum_perm. now rewrite H2.
Qed.

(** X11.  When no city's total precipitation is a NaN, the second sort
    leaves the cities in descending order of total precipitation: of
    two cities of the ranking, the later one has at most the total of
    the earlier one.  When no city's average temperature is a NaN (a
    city without temperature counts as -999), the first sort leaves
    them in descending order of average temperature. *)
Theorem rankings_descend (cities : list CityStats) (a b : nat) (x y : CityStats) :
  (a < b)%nat ->
  (Forall (fun c => is_nan (precip_sum c) = false) cities ->
   sort_by_precipitation cities !! a = Some x ->
   sort_by_precipitation cities !! b = Some y ->
   fle (precip_sum y) (precip_sum x) = true) /\
  (Forall (fun c => is_nan (average c) = false) cities ->
   sort_by_average cities !! a = Some x ->
   sort_by_average cities !! b = Some y ->
   fle (average y) (average x) = true).
Proof.
  intros Hab. split; intros HP Hx Hy.
  - exact (sorted_by_key precip_sum cities HP a b x y Hab Hx Hy).
  - exact (sorted_by_key average cities HP a b x y Hab Hx Hy).
Qed.

Lemma rankings_descend_witness :
  fle (precip_sum riyadh) (precip_sum abha) = true /\
  fle (average abha) (average jeddah) = true.
Proof.
  split.
  - destruct (rankings_descend
                [abha; riyadh; jeddah] 0 2
                abha riyadh ltac:(lia)) as [H _].
    apply H; [repeat constructor|reflexivity|reflexivity].
  - destruct (rankings_descend
                [abha; riyadh; jeddah] 0 2
                jeddah abha ltac:(lia)) as [_ H].
    apply H; [repeat constructor|reflexivity|reflexivity].
Defined.
End Ranking_facts.

(** ** The parallel loop of the OpenMP program *)

Module Schedule_facts.
Import OpenMP.

Section Loop.
Variable atof : string -> double.
Variables (file_paths : list file) (city_names : list string).

Lemma iteration_alter (local_cities : list CityStats) (i : nat) :
  iteration atof file_paths city_names local_cities i = alter (Directory.slot_after atof file_paths city_names i) i local_cities.
Proof.
  unfold iteration, Directory.slot_after.
  destruct (file_paths !! i) as [fp|]; [destruct (city_names !! i) as [n|]|];
    try reflexivity; symmetry; now apply list_alter_id.
Qed.

Lemma fold_iterations (schedule : list nat) : forall (local_cities : list CityStats) i,
  NoDup schedule ->
  fold_left (iteration atof file_paths city_names) schedule local_cities !! i
  = if decide (i ∈ schedule) then Directory.slot_after atof file_paths city_names i <$> local_cities !! i else local_cities !! i.
Proof.
  induction schedule as [|j schedule IH]; intros l i Hnd.
  - cbn. destruct (decide (i ∈ [])) as [H|_]; [inversion H|reflexivity].
  - inversion Hnd as [|? ? Hj Hnd']; subst. cbn [fold_left].
    rewrite IH by assumption. rewrite iteration_alter.
    destruct (decide (i = j)) as [->|Hne].
    + rewrite list_lookup_alter_eq.
      destruct (decide (j ∈ schedule)); [contradiction|].
      destruct (decide (j ∈ j :: schedule)) as [_|H]; [reflexivity|].
      exfalso. apply H. left.
    + rewrite list_lookup_alter_ne by auto.
      destruct (decide (i ∈ schedule)) as [Hi|Hi];
        destruct (decide (i ∈ j :: schedule)) as [Hi'|Hi']; try reflexivity.
      * exfalso. apply Hi'. now right.
      * exfalso. apply elem_of_cons in Hi' as [?|?]; auto.
Qed.

Lemma parallel_for_closed (schedule : list nat) (local_cities : list CityStats) :
  schedule ≡ₚ seq 0 (length local_cities) ->
  parallel_for atof file_paths city_names schedule local_cities
  = imap (Directory.slot_after atof file_paths city_names) local_cities.
Proof.
  intros Hp. apply list_eq. intros i. unfold parallel_for.
  rewrite fold_iterations by (rewrite Hp; apply NoDup_seq).
  rewrite list_lookup_imap.
  destruct (decide (i ∈ schedule)) as [_|Hi]; [reflexivity|].
  destruct (local_cities !! i) as [c|] eqn:E; [|reflexivity].
  exfalso. apply Hi. rewrite Hp. apply elem_of_seq.
  apply lookup_lt_Some in E. lia.
Qed.
End Loop.

(** X12.  The result of the OpenMP loop does not depend on the
    schedule.  Whatever the order in which the iterations run (each
    once), slot [i] ends as the reduction of file [i] under city name
    [i] written over what the slot held, so that any two schedules, the
    sequential order among them, give the same array. *)
Theorem parallel_for_any_schedule (atof : string -> double)
    (file_paths : list file) (city_names : list string)
    (schedule schedule' : list nat) (local_cities : list CityStats) :
  schedule ≡ₚ seq 0 (length local_cities) ->
  schedule' ≡ₚ seq 0 (length local_cities) ->
  parallel_for atof file_paths city_names schedule local_cities
  = parallel_for atof file_paths city_names schedule' local_cities /\
  parallel_for atof file_paths city_names schedule local_cities
  = parallel_for atof file_paths city_names (seq 0 (length local_cities)) local_cities /\
  length (parallel_for atof file_paths city_names schedule local_cities)
  = length local_cities /\
  forall i fp n slot,
    file_paths !! i = Some fp -> city_names !! i = Some n ->
    local_cities !! i = Some slot ->
    parallel_for atof file_paths city_names schedule local_cities !! i
    = Some (process_city_file atof fp (set_name slot n)).
Proof.
  intros H1 H2.
  rewrite !(parallel_for_closed atof file_paths city_names) by auto.
  split_and!; auto.
  - now rewrite length_imap.
  - intros i fp n slot Hf Hn Hs. rewrite list_lookup_imap, Hs. cbn.
    unfold Directory.slot_after. now rewrite Hf, Hn.
Qed.

Lemma parallel_for_any_schedule_witness :
  parallel_for CLib.atof [None; Some (Lines.header :: Lines.scenario_B)]
    ["Jeddah"%string; "Riyadh"%string] [1; 0]%nat [Lines.stale_slot; Lines.zeroed_slot]
  = parallel_for CLib.atof [None; Some (Lines.header :: Lines.scenario_B)]
      ["Jeddah"%string; "Riyadh"%string] [0; 1]%nat [Lines.stale_slot; Lines.zeroed_slot].
Proof.
  apply (parallel_for_any_schedule CLib.atof
           [None; Some (Lines.header :: Lines.scenario_B)]
           ["Jeddah"%string; "Riyadh"%string] [1; 0]%nat [0; 1]%nat
           [Lines.stale_slot; Lines.zeroed_slot]).
  - apply perm_swap.
  - reflexivity.
Defined.
End Schedule_facts.

(** ** The MPI program from the directory to the gathered array *)

Module Programs_facts.
Import Directory MPI Plan Planner Collector Loop_facts Reduce_facts Scan_facts
  Schedule_facts.

Lemma concat_fmap_fmap {A B} (f : A -> B) (ls : list (list A)) :
  concat (fmap (M := list) (fmap (M := list) f) ls) = f <$> concat ls.
Proof.
  induction ls as [|l ls IH]; [reflexivity|].
  cbn [fmap list_fmap concat]. rewrite fmap_app. f_equal. exact IH.
Qed.

Lemma concat_fmap_bind {A B} (f : A -> list B) (l : list A) :
  concat (f <$> l) = l ≫= f.
Proof. induction l as [|x l IH]; [reflexivity|]. cbn. now rewrite IH. Qed.

Lemma gather_concat {A} (arrival : list nat) (locals : list (list A))
    (displacements : list Z) (all_results : list A) :
  arrival ≡ₚ seq 0 (length locals) ->
  length displacements = length locals ->
  length all_results = length (concat locals) ->
  gather arrival locals displacements all_results = concat locals.
Proof.
  intros Harr Hd Hres. unfold gather. fold (counts_of locals).
  apply (in_place_all locals (reverse arrival ++ [])).
  - intros i Hi. rewrite app_nil_r, elem_of_reverse, Harr. apply elem_of_seq. lia.
  - apply gatherv_in_place.
    + intros i Hi. apply compute_displacements_spec; auto.
      unfold counts_of. now rewrite length_fmap.
    + split; [exact Hres|]. intros i l j x Hi. inversion Hi.
Qed.

(** The block ranges of the first [k] ranks, one after the other. *)
Lemma block_concat n w : 0 <= n -> 1 <= w -> forall k : nat,
  concat ((fun r => my_file_indices "block" r w n) <$> seqZ 0 (Z.of_nat k))
  = seqZ 0 (Z.min (Z.of_nat k * ceil_div n w) n).
Proof.
  intros Hn Hw. pose proof (ceil_div_bounds n w Hn Hw) as (_ & _ & Hc).
  induction k as [|k IH].
  - cbn. rewrite Z.min_l by lia. reflexivity.
  - rewrite seqZ_S, fmap_app, concat_app, IH. cbn [fmap list_fmap concat].
    rewrite app_nil_r, Z.add_0_l, block_indices_spec by lia.
    set (c := ceil_div n w) in *.
    destruct (Z.le_gt_cases (Z.of_nat k * c) n) as [Hle|Hgt].
    + rewrite (Z.min_l (Z.of_nat k * c) n) by lia.
      replace (Z.min (Z.of_nat (S k) * c) n)
        with (Z.of_nat k * c + (Z.min ((Z.of_nat k + 1) * c) n - Z.of_nat k * c)) by lia.
      rewrite seqZ_app by lia. reflexivity.
    + rewrite (seqZ_nil (Z.of_nat k * c)) by lia.
      rewrite app_nil_r. f_equal. lia.
Qed.

Lemma block_ranks_cover n w : 0 <= n -> 1 <= w ->
  concat ((fun r => my_file_indices "block" r w n) <$> seqZ 0 w) = seqZ 0 n.
Proof.
  intros Hn Hw. pose proof (ceil_div_bounds n w Hn Hw) as (Hc & _).
  replace (seqZ 0 w) with (seqZ 0 (Z.of_nat (Z.to_nat w)))
    by (now rewrite Z2Nat.id by lia).
  rewrite block_concat by assumption.
  f_equal. rewrite Z2Nat.id by lia. lia.
Qed.

Lemma cyclic_ranks_cover n w : 0 <= n -> 1 <= w ->
  concat ((fun r => my_file_indices "cyclic" r w n) <$> seqZ 0 w) ≡ₚ seqZ 0 n.
Proof.
  intros Hn Hw. rewrite concat_fmap_bind.
  now apply (cyclic_loops_permutation (seqZ 0 w) n w).
Qed.

Lemma indices_in_range mode r w n i :
  0 <= n -> 1 <= w -> 0 <= r -> i ∈ my_file_indices mode r w n -> 0 <= i < n.
Proof.
  intros Hn Hw Hr. destruct (mode_cases mode) as [->|Hb].
  - rewrite elem_of_cyclic_indices by assumption. tauto.
  - rewrite Hb, elem_of_block_indices by assumption.
    pose proof (ceil_div_bounds n w Hn Hw) as (_ & _ & Hc). nia.
Qed.

Section Files.
Variable atof : string -> double.
Variable fopen : string -> file.
Variables (file_paths city_names : list string).
Hypothesis same_length : length city_names = length file_paths.
Hypothesis all_open : Forall (fun p => is_Some (fopen p)) file_paths.

(** When the file opens, what the slot held does not matter. *)
Lemma slot_after_open (i : nat) (s1 s2 : CityStats) :
  (i < length file_paths)%nat ->
  slot_after atof (fopen <$> file_paths) city_names i s1
  = slot_after atof (fopen <$> file_paths) city_names i s2.
Proof.
  intros Hi. unfold slot_after. rewrite list_lookup_fmap.
  destruct (lookup_lt_is_Some_2 file_paths i Hi) as [p Hp]. rewrite Hp. cbn.
  destruct (lookup_lt_is_Some_2 city_names i ltac:(lia)) as [n Hn]. rewrite Hn.
  rewrite Forall_forall in all_open.
  destruct (all_open p (list_elem_of_lookup_2 _ _ _ Hp)) as [lines ->].
  unfold OpenMP.process_city_file, CPU.process_city_file.
  now rewrite !reset_set_name.
Qed.

Lemma local_work_slot_after (indices : list Z) (slots : list CityStats) :
  local_work atof (fopen <$> file_paths) city_names indices slots
  = zip_with (fun idx slot =>
                slot_after atof (fopen <$> file_paths) city_names (Z.to_nat idx) slot)
      indices slots.
Proof.
  unfold local_work. apply zip_with_ext; auto.
  intros idx slot. unfold slot_after.
  destruct ((fopen <$> file_paths) !! Z.to_nat idx) as [fp|]; [|reflexivity].
  destruct (city_names !! Z.to_nat idx) as [n|]; [|reflexivity].
  apply process_city_file_mpi.
Qed.

Lemma local_work_open (dummy : CityStats) : forall (indices : list Z) (slots : list CityStats),
  length slots = length indices ->
  Forall (fun idx => 0 <= idx < Z.of_nat (length file_paths)) indices ->
  local_work atof (fopen <$> file_paths) city_names indices slots
  = (fun idx => slot_after atof (fopen <$> file_paths) city_names (Z.to_nat idx) dummy)
      <$> indices.
Proof.
  intros indices slots. rewrite local_work_slot_after. revert slots.
  induction indices as [|idx indices IH]; intros [|slot slots] Hl Hr;
    simpl in Hl; try lia; [reflexivity|].
  inversion Hr; subst. cbn [zip_with fmap list_fmap]. f_equal.
  - apply slot_after_open. lia.
  - apply IH; auto.
Qed.

Lemma omp_open (dummy : CityStats) (schedule : list nat) (local_cities : nat -> CityStats) :
  schedule ≡ₚ seq 0 (length file_paths) ->
  OpenMP.parallel_for atof (fopen <$> file_paths) city_names schedule
    (local_cities <$> seq 0 (length file_paths))
  = (fun idx => slot_after atof (fopen <$> file_paths) city_names (Z.to_nat idx) dummy)
      <$> seqZ 0 (Z.of_nat (length file_paths)).
Proof.
  intros Hs. rewrite parallel_for_closed by now rewrite length_fmap, length_seq.
  apply list_eq. intros i.
  rewrite list_lookup_imap, !list_lookup_fmap.
  destruct (decide (i < length file_paths)%nat) as [Hi|Hi].
  - rewrite lookup_seq_lt, lookup_seqZ_lt by lia. cbn.
    rewrite Z.add_0_l, Nat2Z.id. f_equal. now apply slot_after_open.
  - rewrite lookup_seq_ge, lookup_seqZ_ge by lia. reflexivity.
Qed.

Lemma mpi_locals_open (dummy : CityStats) (dist_mode : string) (size : Z)
    (local_results : Z -> nat -> CityStats) :
  1 <= size ->
  (mpi_local_results atof fopen dist_mode size file_paths city_names local_results
     <$> seqZ 0 size)
  = (fmap (M := list)
       (fun idx => slot_after atof (fopen <$> file_paths) city_names
                     (Z.to_nat idx) dummy))
      <$> ((fun r => my_file_indices dist_mode r size (Z.of_nat (length file_paths)))
             <$> seqZ 0 size).
Proof.
  intros Hsize. rewrite <- list_fmap_compose. apply list_fmap_ext.
  intros i r Hr. apply lookup_seqZ in Hr as [-> Hi]. unfold mpi_local_results. cbn.
  apply local_work_open.
  - now rewrite length_fmap, length_seq.
  - apply Forall_forall. intros idx Hidx.
    apply (indices_in_range dist_mode (0 + Z.of_nat i) size); auto; lia.
Qed.

Lemma mpi_gather_open (dummy : CityStats) (dist_mode : string) (size : Z)
    (local_results : Z -> nat -> CityStats) (arrival : list nat)
    (displacements : list Z) (all_results : list CityStats) :
  1 <= size ->
  arrival ≡ₚ seq 0 (Z.to_nat size) ->
  length displacements = Z.to_nat size ->
  length all_results = length file_paths ->
  concat ((fun r => my_file_indices dist_mode r size (Z.of_nat (length file_paths)))
            <$> seqZ 0 size)
  ≡ₚ seqZ 0 (Z.of_nat (length file_paths)) ->
  gather arrival
    (mpi_local_results atof fopen dist_mode size file_paths city_names local_results
       <$> seqZ 0 size)
    displacements all_results
  = (fun idx => slot_after atof (fopen <$> file_paths) city_names (Z.to_nat idx) dummy)
      <$> concat ((fun r => my_file_indices dist_mode r size
                              (Z.of_nat (length file_paths))) <$> seqZ 0 size).
Proof.
  intros Hsize Harr Hd Hres Hcover.
  rewrite <- concat_fmap_fmap,
    <- (mpi_locals_open dummy dist_mode size local_results) by assumption.
  apply gather_concat.
  - now rewrite length_fmap, length_seqZ.
  - now rewrite length_fmap, length_seqZ.
  - rewrite (mpi_locals_open dummy dist_mode size local_results), concat_fmap_fmap,
      length_fmap by assumption.
    rewrite (Permutation_length Hcover), length_seqZ, Nat2Z.id. exact Hres.
Qed.
End Files.

Lemma collect_files_lengths data_dir max_cities entries :
  length (collect_files data_dir max_cities entries).2
  = length (collect_files data_dir max_cities entries).1.
Proof.
  unfold collect_files. rewrite collect_loop_spec. cbv zeta. cbn [fst snd app].
  now rewrite !length_fmap.
Qed.

(** X13.  With a limit [max_cities] of at most [MAX_FILES] and
    [MAX_CITIES], the sizes of the arrays [file_paths], [city_names] and
    [cities], and when every listed file opens, the MPI program gathers
    at rank 0 exactly the array the OpenMP program computes: with the
    block distribution the same cities in the same order, the order of
    the file list, for every number of processes, every arrival order
    of the messages and every schedule of the OpenMP loop; with the
    cyclic distribution the same cities, in another order.  In both
    cases the number of gathered cities is the number of files, which
    the arrays hold. *)
Theorem mpi_gathers_what_openmp_computes (atof : string -> double)
    (fopen : string -> file) (size : Z)
    (data_dir : string) (max_cities : Z) (entries : list string)
    (local_results : Z -> nat -> CityStats) (arrival : list nat)
    (displacements : list Z) (all_results : list CityStats)
    (schedule : list nat) (local_cities : nat -> CityStats) :
  let files := (collect_files data_dir max_cities entries).1 in
  max_cities <= MAX_FILES ->
  max_cities <= MAX_CITIES ->
  1 <= size ->
  arrival ≡ₚ seq 0 (Z.to_nat size) ->
  length displacements = Z.to_nat size ->
  length all_results = length files ->
  Forall (fun p => is_Some (fopen p)) files ->
  schedule ≡ₚ seq 0 (length files) ->
  mpi_main atof fopen "block" size data_dir max_cities entries
    local_results arrival displacements all_results
  = omp_main atof fopen data_dir max_cities entries schedule local_cities /\
  mpi_main atof fopen "cyclic" size data_dir max_cities entries
    local_results arrival displacements all_results
  ≡ₚ omp_main atof fopen data_dir max_cities entries schedule local_cities /\
  length (omp_main atof fopen data_dir max_cities entries schedule local_cities)
  = length files /\
  Z.of_nat (length files) <= MAX_FILES /\
  Z.of_nat (length files) <= MAX_CITIES.
Proof.
  intros files Hfiles Hcities Hsize Harr Hd Hres Hopen Hsched.
  pose proof (collect_files_lengths data_dir max_cities entries) as Hlen.
  assert (Hbound : Z.of_nat (length files) <= Z.max 0 max_cities).
  { unfold files, collect_files. rewrite collect_loop_spec. cbv zeta. cbn [fst app].
    rewrite length_fmap, length_take. cbn [length]. lia. }
  unfold mpi_main, omp_main. subst files.
  destruct (collect_files data_dir max_cities entries) as [file_paths city_names].
  cbn [fst snd] in *.
  set (dummy := Serial.blank EmptyString).
  assert (Hn : 0 <= Z.of_nat (length file_paths)) by lia.
  rewrite (omp_open atof fopen file_paths city_names Hlen Hopen dummy) by assumption.
  split_and!.
  - rewrite (mpi_gather_open atof fopen file_paths city_names Hlen Hopen dummy);
      auto; rewrite block_ranks_cover by lia; reflexivity.
  - rewrite (mpi_gather_open atof fopen file_paths city_names Hlen Hopen dummy);
      auto; [|now apply cyclic_ranks_cover].
    now rewrite cyclic_ranks_cover by lia.
  - now rewrite length_fmap, length_seqZ, Nat2Z.id.
  - unfold MAX_FILES in *. lia.
  - unfold MAX_CITIES in *. lia.
Qed.

Lemma mpi_gathers_what_openmp_computes_witness :
  let fopen := fun _ : string => Some (Lines.header :: Lines.scenario_B) in
  let entries := ["a.csv"%string; "notes.txt"%string; "b.csv"%string; "c.csv"%string] in
  mpi_main CLib.atof fopen "block" 2 "data" 2000 entries
    (fun _ _ => Lines.stale_slot) [1; 0]%nat [7; 7] (replicate 3 Lines.stale_slot)
  = omp_main CLib.atof fopen "data" 2000 entries [2; 0; 1]%nat
      (fun _ => Lines.zeroed_slot).
Proof.
  intros fopen entries.
  apply (mpi_gathers_what_openmp_computes CLib.atof fopen 2 "data" 2000 entries
           (fun _ _ => Lines.stale_slot) [1; 0]%nat [7; 7]
           (replicate 3 Lines.stale_slot) [2; 0; 1]%nat (fun _ => Lines.zeroed_slot)).
  - unfold MAX_FILES. lia.
  - unfold MAX_CITIES. lia.
  - lia.
  - apply perm_swap.
  - reflexivity.
  - reflexivity.
  - repeat constructor; eexists; reflexivity.
  - change (length (collect_files "data" 2000 entries).1) with 3%nat.
    cbn [seq]. solve_Permutation.
Defined.
End Programs_facts.

(** ** The CUDA program: the launch, and the host with the kernel *)

Module Launch_facts.
Import CUDA Visit Host Lines Loop_facts Exact_facts Kernel_facts Local_reduction
  Reduce_facts Record_limit.

Lemma num_blocks_bounds (n : Z) : 1 <= n -> 1 <= num_blocks n <= 128.
Proof.
  intros Hn. unfold num_blocks, BLOCK_SIZE.
  assert (1 <= Z.quot (n + 256 - 1) 256).
  { rewrite Z.quot_div_nonneg by lia. apply Z.div_le_lower_bound; lia. }
  destruct (Z.gtb_spec (Z.quot (n + 256 - 1) 256) 128); lia.
Qed.

(** X14.  The grid-stride loop of the kernel leaves no record out and
    takes none twice.  In a launch of [gridDim] blocks of [blockDim]
    threads, the thread [tid] of block [blockIdx] accumulates, from the
    initial slot and in rising order, the records at the indices
    [blockIdx * blockDim + tid + k * blockDim * gridDim] below
    [num_records]; over all the threads of all the blocks these indices
    are 0 to [num_records - 1], each once, so that the records the
    threads accumulate are the records of the file, each once. *)
Theorem grid_stride_visits_each_record_once (records : list WeatherRecord)
    (gridDim blockDim blockIdx tid : Z) :
  1 <= gridDim -> 1 <= blockDim -> 0 <= blockIdx -> 0 <= tid ->
  let n := Z.of_nat (length records) in
  thread_partial gridDim blockDim records n blockIdx tid
  = fold_left accumulate
      (visited records (thread_indices gridDim blockDim n blockIdx tid)) init_slot /\
  (forall i, i ∈ thread_indices gridDim blockDim n blockIdx tid <->
             blockIdx * blockDim + tid <= i < n /\
             (i - (blockIdx * blockDim + tid)) mod (blockDim * gridDim) = 0) /\
  NoDup (thread_indices gridDim blockDim n blockIdx tid) /\
  (seqZ 0 gridDim ≫= block_indices gridDim blockDim n) ≡ₚ seqZ 0 n /\
  visited records (seqZ 0 gridDim ≫= block_indices gridDim blockDim n) ≡ₚ records.
Proof.
  intros HG HB Hb Ht n.
  assert (Hcover : (seqZ 0 gridDim ≫= block_indices gridDim blockDim n) ≡ₚ seqZ 0 n)
    by (apply all_indices_permutation; auto; lia).
  split_and!.
  - unfold thread_partial, thread_indices. apply thread_loop_fold.
  - intros i. unfold thread_indices. apply elem_of_cyclic_loop; nia.
  - unfold thread_indices. apply NoDup_cyclic_loop. nia.
  - exact Hcover.
  - rewrite (visited_perm records _ _ Hcover). unfold n. now rewrite visited_all.
Qed.

Lemma grid_stride_visits_each_record_once_witness :
  (seqZ 0 2 ≫= block_indices 2 256 300) ≡ₚ seqZ 0 300.
Proof.
  destruct (grid_stride_visits_each_record_once Scenario.records_300 2 256 1 43
              ltac:(lia) ltac:(lia) ltac:(lia) ltac:(lia)) as (_ & _ & _ & H & _).
  exact H.
Defined.

(** *** The counts of the CUDA program against those of the serial one *)

Section Counts.
Variable atof : string -> double.
Variable allocated : nat -> WeatherRecord.

Lemma parsed_cons (start : nat) (line : string) (lines : list string) :
  parsed atof allocated start (line :: lines)
  = parse_line atof (allocated start) line :: parsed atof allocated (S start) lines.
Proof.
  unfold parsed. cbn [imap]. rewrite Nat.add_0_r. f_equal.
  apply imap_ext. intros i x _. cbn. f_equal. f_equal. lia.
Qed.

Lemma of_record_parse_line (rec : WeatherRecord) (line : string) :
  Exact.count (Exact.of_record (parse_line atof rec line))
  = (if has_temp line then 1 else 0) /\
  Exact.precip_count (Exact.of_record (parse_line atof rec line))
  = (if has_precip line then 1 else 0) /\
  Exact.monthly_count (Exact.of_record (parse_line atof rec line))
  = (if has_temp line && in_year (Parse.get_month (date_field line))
     then <[Z.to_nat (Parse.get_month (date_field line)) := 1]> (replicate 12 0)
     else replicate 12 0).
Proof. repeat split. Qed.

Lemma counts_alike (lines : list string) : forall start e city,
  length (Exact.monthly_count e) = 12%nat ->
  Exact.count e = temp_count city ->
  Exact.precip_count e = precip_count city ->
  Exact.monthly_count e = monthly_temp_count city ->
  let e' := fold_left (fun e r => Exact.join e (Exact.of_record r))
              (parsed atof allocated start lines) e in
  let city' := CPU.reduce_lines atof Parse.get_month city lines in
  Exact.count e' = temp_count city' /\
  Exact.precip_count e' = precip_count city' /\
  Exact.monthly_count e' = monthly_temp_count city'.
Proof.
  induction lines as [|line lines IH]; intros start e city Hl Hc Hp Hm; cbv zeta.
  - auto.
  - rewrite parsed_cons. unfold CPU.reduce_lines. cbn [fold_left].
    destruct (of_record_parse_line (allocated start) line) as (R1 & R2 & R3).
    apply IH.
    + unfold Exact.join. cbn [Exact.monthly_count]. fold (Exact.monthly_count e).
      rewrite R3.
      destruct (has_temp line && in_year (Parse.get_month (date_field line)));
        rewrite ?zip_add_unit, ?zip_add_zeros, ?length_alter by assumption; assumption.
    + unfold Exact.join. cbn [Exact.count]. fold (Exact.count e).
      rewrite R1, Hc, process_line_temp_count. reflexivity.
    + unfold Exact.join. cbn [Exact.precip_count]. fold (Exact.precip_count e).
      rewrite R2, Hp, process_line_precip_count. reflexivity.
    + unfold Exact.join. cbn [Exact.monthly_count]. fold (Exact.monthly_count e).
      rewrite R3, process_line_monthly_count, <- Hm.
      destruct (has_temp line && in_year (Parse.get_month (date_field line)));
        rewrite ?zip_add_unit, ?zip_add_zeros by assumption; reflexivity.
Qed.

Lemma parsed_float_temp (lines : list string) : forall start,
  Forall (fun line => has_temp line = true ->
                      is_float (to_float (atof (temp_field line))) = true) lines ->
  Forall Exact.float_temp (parsed atof allocated start lines).
Proof.
  induction lines as [|line lines IH]; intros start Hf.
  - constructor.
  - rewrite parsed_cons. inversion Hf as [|? ? H1 H2]; subst. constructor; [|now apply IH].
    unfold Exact.float_temp, parse_line. cbn [valid_temp avg_temp].
    intros Hv. rewrite Hv. apply H1. exact Hv.
Qed.
End Counts.
(** The entry the CUDA program appends, and its exact fields. *)
Lemma cuda_city_exact (atof : string -> double)
    (allocated : nat -> WeatherRecord) (finish_order : Z -> list Z)
    (header : string) (lines : list string) (city_name : string)
    (cities : list CityStats) :
  (1 <= length lines)%nat ->
  Z.of_nat (length lines) <= MAX_RECORDS_PER_FILE ->
  finish_order (num_blocks (Z.of_nat (length lines)))
  ≡ₚ seqZ 0 (num_blocks (Z.of_nat (length lines))) ->
  Forall Exact.float_temp (parsed atof allocated 0 lines) ->
  exists out,
    process_city_file_cuda atof allocated finish_order
      (Some (header :: lines)) city_name cities
    = cities ++ [city_of city_name out (Z.of_nat (length lines))] /\
    Exact.of_outputs out
    = Exact.publish (Exact.of_records (parsed atof allocated 0 lines)).
Proof.
  intros Hne Hmax Horder Hf.
  pose proof (num_blocks_bounds (Z.of_nat (length lines)) ltac:(lia)) as Hb.
  set (blocks := num_blocks (Z.of_nat (length lines))) in *.
  set (recs := parsed atof allocated 0 lines) in *.
  assert (Hrd : read_records atof allocated lines 0 [] = (recs, Z.of_nat (length lines))).
  { rewrite read_records_spec by (unfold MAX_RECORDS_PER_FILE; lia).
    cbn [app]. rewrite take_ge by (unfold MAX_RECORDS_PER_FILE in *; lia).
    f_equal. lia. }
  assert (Hlen : Z.of_nat (length lines) = Z.of_nat (length recs))
    by (unfold recs, parsed; now rewrite length_imap).
  exists (process_weather_records blocks BLOCK_SIZE (finish_order blocks)
            recs (Z.of_nat (length lines)) init_outputs).
  split.
  - unfold process_city_file_cuda. rewrite Hrd.
    destruct (Z.eqb_spec (Z.of_nat (length lines)) 0); [lia|reflexivity].
  - rewrite Hlen. change BLOCK_SIZE with (2 ^ Z.of_nat 8).
    rewrite exact_fields_agree by (auto; lia).
    destruct (holds_fold init_slot [] recs Hf holds_init) as [Hwf Hfold].
    rewrite (merge_first _ Hwf). cbn [app] in Hfold. now rewrite Hfold.
Qed.

(** X15.  For a file of 1 to 50000 data lines whose temperatures
    convert to [float] values, the CUDA program reports the counts the
    serial program reports: the same name, number of records,
    temperature count, precipitation count and monthly temperature
    counts, for every order in which the blocks finish one after the
    other.  The launch has between 1 and 128 blocks. *)
Theorem cuda_counts_match_serial (atof : string -> double)
    (allocated : nat -> WeatherRecord) (finish_order : Z -> list Z)
    (header : string) (lines : list string) (city_name : string)
    (cities : list CityStats) :
  (1 <= length lines)%nat ->
  Z.of_nat (length lines) <= MAX_RECORDS_PER_FILE ->
  let blocks := num_blocks (Z.of_nat (length lines)) in
  finish_order blocks ≡ₚ seqZ 0 blocks ->
  Forall (fun line => has_temp line = true ->
                      is_float (to_float (atof (temp_field line))) = true) lines ->
  1 <= blocks <= 128 /\
  exists c s,
    process_city_file_cuda atof allocated finish_order
      (Some (header :: lines)) city_name cities = cities ++ [c] /\
    Serial.process_city_file atof (Some (header :: lines)) city_name cities
    = cities ++ [s] /\
    name c = name s /\
    record_count c = record_count s /\
    temp_count c = temp_count s /\
    precip_count c = precip_count s /\
    monthly_temp_count c = monthly_temp_count s.
Proof.
  intros Hne Hmax blocks Horder Hfloat.
  pose proof (num_blocks_bounds (Z.of_nat (length lines)) ltac:(lia)) as Hb.
  split; [exact Hb|].
  set (recs := parsed atof allocated 0 lines).
  set (s := CPU.reduce_lines atof Parse.get_month
              (CPU.reset (Serial.blank (copied_name city_name))) lines).
  assert (Hf : Forall Exact.float_temp recs) by now apply parsed_float_temp.
  destruct (cuda_city_exact atof allocated finish_order header lines city_name cities
              Hne Hmax Horder Hf) as (out & Hc & He).
  fold recs in He.
  exists (city_of city_name out (Z.of_nat (length lines))), s.
  destruct (counts_alike atof allocated lines 0 (Exact.of_slot init_slot)
              (CPU.reset (Serial.blank (copied_name city_name)))
              eq_refl eq_refl eq_refl eq_refl) as (C1 & C2 & C3).
  fold recs in C1, C2, C3. fold (Exact.of_records recs) in C1, C2, C3. fold s in C1, C2, C3.
  destruct (reduce_lines_counts atof Parse.get_month
              (CPU.reset (Serial.blank (copied_name city_name))) lines) as (Hrec & _).
  fold s in Hrec.
  split_and!.
  - exact Hc.
  - reflexivity.
  - unfold s. now rewrite reduce_lines_name.
  - cbn [record_count city_of]. rewrite Hrec. reflexivity.
  - cbn [temp_count city_of]. rewrite <- C1.
    change (temp_count_out out) with (Exact.count (Exact.of_outputs out)).
    now rewrite He.
  - cbn [precip_count city_of]. rewrite <- C2.
    change (precip_count_out out) with (Exact.precip_count (Exact.of_outputs out)).
    now rewrite He.
  - cbn [monthly_temp_count city_of]. rewrite <- C3.
    change (monthly_temp_count_out out) with (Exact.monthly_count (Exact.of_outputs out)).
    now rewrite He.
Qed.

Lemma cuda_counts_match_serial_witness :
  exists c s,
    process_city_file_cuda CLib.atof (fun _ => Scenario.temperature 0) (seqZ 0)
      (Some (header :: scenario_B)) "Riyadh" [] = [c] /\
    Serial.process_city_file CLib.atof (Some (header :: scenario_B)) "Riyadh" [] = [s] /\
    temp_count c = temp_count s /\
    monthly_temp_count c = monthly_temp_count s.
Proof.
  destruct (cuda_counts_match_serial CLib.atof (fun _ => Scenario.temperature 0)
              (seqZ 0) header scenario_B "Riyadh" []) as (_ & c & s & H1 & H2 & H).
  - simpl. lia.
  - unfold MAX_RECORDS_PER_FILE. simpl. lia.
  - reflexivity.
  - repeat constructor; intros _; vm_compute; reflexivity.
  - exists c, s. tauto.
Defined.
End Launch_facts.

(** ** The warp-level reductions *)

Module Warp_facts.
Import Warp IEEE_facts.

Lemma warp_step_lane (op : float -> float -> float) (s : nat) (cur : list float)
    (i : nat) (x y : float) :
  cur !! i = Some x -> cur !! (i + s)%nat = Some y ->
  warp_step op (Z.of_nat s) cur !! i = Some (op x y).
Proof.
  intros Hx Hy. unfold warp_step, shfl_down_sync.
  rewrite list_lookup_imap, Hx, Nat2Z.id, Hy. reflexivity.
Qed.

Lemma warp_loop_steps (op : float -> float -> float) (vals : list float) :
  warp_loop (Z.to_nat WARP_SIZE) op (Z.quot WARP_SIZE 2) vals
  = warp_step op (Z.of_nat 1)
      (warp_step op (Z.of_nat 2)
         (warp_step op (Z.of_nat 4)
            (warp_step op (Z.of_nat 8) (warp_step op (Z.of_nat 16) vals)))).
Proof. reflexivity. Qed.

Section Order.
Variable op : float -> float -> float.
Variable le : float -> float -> bool.
Hypothesis op_choice : forall x y, op x y = x \/ op x y = y.
Hypothesis op_le_l : forall x y, le (op x y) x = true.
Hypothesis op_le_r : forall x y, le (op x y) y = true.
Hypothesis le_trans : forall x y z, le x y = true -> le y z = true -> le x z = true.

Variable vals : list float.

Lemma halving_step (s : nat) (cur : list float) :
  (1 <= s)%nat -> (2 * s <= 32)%nat ->
  lanes_hold le vals (2 * s) cur ->
  lanes_hold le vals s (warp_step op (Z.of_nat s) cur).
Proof.
  intros Hs Hs2 [Hlen Hinv]. split.
  - unfold warp_step. now rewrite length_imap.
  - intros i Hi.
    destruct (Hinv i ltac:(lia)) as (x & Hx & Hxin & Hxle).
    destruct (Hinv (i + s)%nat ltac:(lia)) as (y & Hy & Hyin & Hyle).
    exists (op x y). split; [now apply warp_step_lane|]. split.
    + destruct (op_choice x y) as [->| ->]; assumption.
    + intros k v Hv.
      destruct (Nat.Even_or_Odd k) as [[k' ->]|[k' ->]].
      * apply (le_trans _ x); [apply op_le_l|].
        apply (Hxle k'). rewrite <- Hv. f_equal. lia.
      * apply (le_trans _ y); [apply op_le_r|].
        apply (Hyle k'). rewrite <- Hv. f_equal. lia.
Qed.

Lemma lanes_hold_start : length vals = 32%nat -> lanes_hold le vals 32 vals.
Proof.
  intros Hlen. split; [exact Hlen|]. intros i Hi.
  destruct (lookup_lt_is_Some_2 vals i ltac:(lia)) as [x Hx].
  exists x. split; [exact Hx|]. split; [eapply list_elem_of_lookup_2, Hx|].
  intros k v Hv. pose proof (lookup_lt_Some _ _ _ Hv).
  assert (k = 0)%nat by nia. subst k. rewrite Nat.add_0_r in Hv.
  assert (v = x) by congruence. subst v.
  destruct (op_choice x x) as [E|E]; rewrite <- E at 1; apply op_le_l.
Qed.

Lemma lane_0_holds :
  length vals = 32%nat ->
  exists r,
    warp_loop (Z.to_nat WARP_SIZE) op (Z.quot WARP_SIZE 2) vals !! 0%nat = Some r /\
    r ∈ vals /\ forall v, v ∈ vals -> le r v = true.
Proof.
  intros Hlen. rewrite warp_loop_steps.
  pose proof (lanes_hold_start Hlen) as H32.
  pose proof (halving_step 16 _ ltac:(lia) ltac:(lia) H32) as H16.
  pose proof (halving_step 8 _ ltac:(lia) ltac:(lia) H16) as H8.
  pose proof (halving_step 4 _ ltac:(lia) ltac:(lia) H8) as H4.
  pose proof (halving_step 2 _ ltac:(lia) ltac:(lia) H4) as H2.
  pose proof (halving_step 1 _ ltac:(lia) ltac:(lia) H2) as [_ H1].
  destruct (H1 0%nat ltac:(lia)) as (r & Hr & Hin & Hle).
  exists r. split; [exact Hr|]. split; [exact Hin|].
  intros v Hv. apply list_elem_of_lookup_1 in Hv as [k Hk].
  apply (Hle k). rewrite <- Hk. f_equal. lia.
Qed.
End Order.

Lemma fminf_le_r x y : min_le (fminf x y) y = true.
Proof. rewrite fminf_comm. apply min_le_fminf_l. Qed.

Lemma fmaxf_le_r x y : max_le y (fmaxf x y) = true.
Proof. rewrite fmaxf_comm. apply max_le_fmaxf_l. Qed.

(** X16.  The warp-level reductions of a full warp: lane 0 of
    [warp_reduce_min] returns one of the 32 values of the warp that is
    least among them in the order of [fminf] (a NaN counts as missing),
    hence at most every value when none is a NaN; lane 0 of
    [warp_reduce_max] returns one that is greatest, hence at least every
    value when none is a NaN. *)
Theorem warp_reductions_at_lane_0 (vals : list float) :
  length vals = 32%nat ->
  (exists r,
     warp_reduce_min vals !! 0%nat = Some r /\ r ∈ vals /\
     (forall v, v ∈ vals -> min_le r v = true) /\
     (Forall (fun v => is_nan v = false) vals ->
      forall v, v ∈ vals -> fle r v = true)) /\
  (exists r,
     warp_reduce_max vals !! 0%nat = Some r /\ r ∈ vals /\
     (forall v, v ∈ vals -> max_le v r = true) /\
     (Forall (fun v => is_nan v = false) vals ->
      forall v, v ∈ vals -> fle v r = true)).
Proof.
  intros Hlen. split.
  - destruct (lane_0_holds fminf min_le fminf_choice min_le_fminf_l fminf_le_r
                min_le_trans vals Hlen) as (r & Hr & Hin & Hle).
    exists r. split_and!; auto.
    intros Hnan v Hv. rewrite Forall_forall in Hnan. apply min_le_fle; auto.
  - destruct (lane_0_holds fmaxf (fun x v => max_le v x) fmaxf_choice
                (fun x y => max_le_fmaxf_l x y) fmaxf_le_r
                (fun x y z H1 H2 => max_le_trans z y x H2 H1) vals Hlen)
      as (r & Hr & Hin & Hle).
    exists r. split_and!; auto.
    intros Hnan v Hv. rewrite Forall_forall in Hnan. apply max_le_fle; auto.
Qed.

Lemma warp_reductions_at_lane_0_witness :
  exists r, warp_reduce_min (float_of_Z <$> seqZ 5 32) !! 0%nat = Some r /\
            min_le r (float_of_Z 36) = true.
Proof.
  assert (Hlen : length (float_of_Z <$> seqZ 5 32) = 32%nat)
    by (vm_compute; reflexivity).
  destruct (warp_reductions_at_lane_0 (float_of_Z <$> seqZ 5 32) Hlen)
    as [(r & Hr & _ & Hle & _) _].
  exists r. split; [exact Hr|]. apply Hle.
  apply list_elem_of_fmap. exists 36. split; [reflexivity|]. apply elem_of_seqZ. lia.
Defined.
End Warp_facts.

(** ** Edge cases of the CUDA program, the casts of the final writes *)

Module Edge_facts.
Import CUDA Visit Host Lines Exact_facts Kernel_facts Local_reduction
  Conversion_facts Launch_facts.

Lemma of_records_no_temperature (rs : list WeatherRecord) : forall e,
  Forall (fun r => valid_temp r = false) rs ->
  let e' := fold_left (fun e r => Exact.join e (Exact.of_record r)) rs e in
  Exact.count e' = Exact.count e /\
  Exact.min e' = Exact.min e /\ Exact.max e' = Exact.max e.
Proof.
  induction rs as [|r rs IH]; intros e Hf; cbv zeta; [auto|].
  inversion Hf as [|? ? Hr Hrs]; subst. cbn [fold_left].
  destruct (IH (Exact.join e (Exact.of_record r)) Hrs) as (H1 & H2 & H3).
  rewrite H1, H2, H3. unfold Exact.join, Exact.of_record. rewrite Hr.
  cbn [Exact.count Exact.min Exact.max].
  rewrite fminf_nan_r, fmaxf_nan_r. split_and!; auto. lia.
Qed.

Lemma parsed_no_temperature atof allocated (lines : list string) : forall start,
  Forall (fun line => has_temp line = false) lines ->
  Forall (fun r => valid_temp r = false) (parsed atof allocated start lines).
Proof.
  induction lines as [|line lines IH]; intros start Hf.
  - constructor.
  - rewrite parsed_cons. inversion Hf; subst. constructor; [assumption|now apply IH].
Qed.

Lemma filter_none {A} (f : A -> bool) (l : list A) :
  Forall (fun x => f x = false) l -> List.filter f l = [].
Proof. induction 1 as [|x l Hx _ IH]; simpl; [reflexivity|]. now rewrite Hx. Qed.

(** X17.  A file of 1 to 50000 data lines none of which has a
    temperature.  Both programs report the temperature count 0, but not
    the same extrema: the serial program reports [DBL_MAX] and
    [-DBL_MAX], the CUDA program, whose kernel works on [float] values,
    the [double] values of [FLT_MAX] and [-FLT_MAX]. *)
Theorem extrema_of_a_file_without_temperature (atof : string -> double)
    (allocated : nat -> WeatherRecord) (finish_order : Z -> list Z)
    (header : string) (lines : list string) (city_name : string)
    (cities : list CityStats) :
  (1 <= length lines)%nat ->
  Z.of_nat (length lines) <= MAX_RECORDS_PER_FILE ->
  finish_order (num_blocks (Z.of_nat (length lines)))
  ≡ₚ seqZ 0 (num_blocks (Z.of_nat (length lines))) ->
  Forall (fun line => has_temp line = false) lines ->
  exists c s,
    process_city_file_cuda atof allocated finish_order
      (Some (header :: lines)) city_name cities = cities ++ [c] /\
    Serial.process_city_file atof (Some (header :: lines)) city_name cities
    = cities ++ [s] /\
    temp_count c = 0 /\ temp_count s = 0 /\
    temp_min c = to_double FLT_MAX /\ temp_max c = to_double (fneg FLT_MAX) /\
    temp_min s = DBL_MAX /\ temp_max s = fneg DBL_MAX /\
    flt (temp_min c) (temp_min s) = true.
Proof.
  intros Hne Hmax Horder Hnone.
  pose proof (parsed_no_temperature atof allocated lines 0 Hnone) as Hv.
  assert (Hf : Forall Exact.float_temp (parsed atof allocated 0 lines)).
  { eapply Forall_impl; [exact Hv|]. intros r Hr Hvalid. congruence. }
  destruct (cuda_city_exact atof allocated finish_order header lines city_name cities
              Hne Hmax Horder Hf) as (out & Hc & He).
  destruct (of_records_no_temperature _ (Exact.of_slot init_slot) Hv) as (E1 & E2 & E3).
  fold (Exact.of_records (parsed atof allocated 0 lines)) in E1, E2, E3.
  set (s := CPU.reduce_lines atof Parse.get_month
              (CPU.reset (Serial.blank (copied_name city_name))) lines).
  destruct (reduce_lines_counts atof Parse.get_month
              (CPU.reset (Serial.blank (copied_name city_name))) lines) as (_ & Hcount & _).
  fold s in Hcount. rewrite (filter_none _ _ Hnone) in Hcount.
  cbn [temp_count CPU.reset length] in Hcount.
  destruct (reduce_lines_tidy atof Parse.get_month _ lines
              (tidy_reset (Serial.blank (copied_name city_name)))) as (_ & _ & _ & Hs).
  fold s in Hs. destruct (Hs ltac:(lia)) as [Hmin Hmaxs].
  assert (Cmin : temp_min_out out = to_double FLT_MAX).
  { change (temp_min_out out) with (Exact.min (Exact.of_outputs out)).
    rewrite He. cbn [Exact.publish Exact.min]. rewrite E2. reflexivity. }
  assert (Cmax : temp_max_out out = to_double (fneg FLT_MAX)).
  { change (temp_max_out out) with (Exact.max (Exact.of_outputs out)).
    rewrite He. cbn [Exact.publish Exact.max]. rewrite E3. reflexivity. }
  exists (city_of city_name out (Z.of_nat (length lines))), s.
  split_and!.
  - exact Hc.
  - reflexivity.
  - cbn [temp_count city_of].
    change (temp_count_out out) with (Exact.count (Exact.of_outputs out)).
    rewrite He. cbn [Exact.publish Exact.count]. now rewrite E1.
  - exact Hcount.
  - exact Cmin.
  - exact Cmax.
  - exact Hmin.
  - exact Hmaxs.
  - cbn [temp_min city_of]. rewrite Cmin, Hmin. vm_compute. reflexivity.
Qed.

Lemma extrema_of_a_file_without_temperature_witness :
  exists c,
    process_city_file_cuda CLib.atof (fun _ => Scenario.temperature 0) (seqZ 0)
      (Some [header; Csv.no_reading]) "Riyadh" [] = [c] /\
    temp_count c = 0 /\ temp_min c = to_double FLT_MAX.
Proof.
  destruct (extrema_of_a_file_without_temperature CLib.atof
              (fun _ => Scenario.temperature 0) (seqZ 0) header [Csv.no_reading]
              "Riyadh" []) as (c & s & H1 & _ & H2 & _ & H3 & _).
  - simpl. lia.
  - unfold MAX_RECORDS_PER_FILE. simpl. lia.
  - reflexivity.
  - repeat constructor.
  - exists c. auto.
Defined.

(** X18.  The casts around the final writes lose nothing.  A [float]
    value converted to [double] and back is the same value (infinities,
    zeros and NaN included).  Hence, when the global minimum and
    maximum read as [float] values (as the initial [DBL_MAX] and
    [-DBL_MAX] do: they read as the infinities), the minimum that
    thread 0 has written reads back as the [fminf] of the old minimum
    and the block's, and the updates of two blocks, done one after the
    other, give the same extrema and counts in either order. *)
Theorem final_writes_keep_float_extrema (x : float) (out : Outputs) (p q : Slot) :
  is_float x = true ->
  is_float (to_float (temp_min_out out)) = true ->
  is_float (to_float (temp_max_out out)) = true ->
  is_float (sh_temp_min p) = true -> is_float (sh_temp_max p) = true ->
  is_float (sh_temp_min q) = true -> is_float (sh_temp_max q) = true ->
  to_float (to_double x) = x /\
  to_float (temp_min_out (merge out p))
  = fminf (to_float (temp_min_out out)) (sh_temp_min p) /\
  to_float (temp_max_out (merge out p))
  = fmaxf (to_float (temp_max_out out)) (sh_temp_max p) /\
  temp_min_out (merge (merge out p) q) = temp_min_out (merge (merge out q) p) /\
  temp_max_out (merge (merge out p) q) = temp_max_out (merge (merge out q) p) /\
  temp_count_out (merge (merge out p) q) = temp_count_out (merge (merge out q) p) /\
  precip_count_out (merge (merge out p) q) = precip_count_out (merge (merge out q) p).
Proof.
  intros Hx Hfmin Hfmax Hpmin Hpmax Hqmin Hqmax.
  split_and!.
  - now apply to_float_to_double.
  - cbn [temp_min_out merge]. apply to_float_to_double. now apply is_float_fminf.
  - cbn [temp_max_out merge]. apply to_float_to_double. now apply is_float_fmaxf.
  - cbn [temp_min_out merge].
    rewrite !to_float_to_double by (apply is_float_fminf; assumption).
    f_equal. rewrite <- !IEEE_facts.fminf_assoc.
    f_equal. apply IEEE_facts.fminf_comm.
  - cbn [temp_max_out merge].
    rewrite !to_float_to_double by (apply is_float_fmaxf; assumption).
    f_equal. rewrite <- !IEEE_facts.fmaxf_assoc.
    f_equal. apply IEEE_facts.fmaxf_comm.
  - cbn [temp_count_out merge]. lia.
  - cbn [precip_count_out merge]. lia.
Qed.

Lemma final_writes_keep_float_extrema_witness :
  temp_min_out (merge (merge init_outputs Scenario.block_of_5) Scenario.block_of_3)
  = temp_min_out (merge (merge init_outputs Scenario.block_of_3) Scenario.block_of_5).
Proof.
  apply (final_writes_keep_float_extrema FLT_MAX init_outputs
           Scenario.block_of_5 Scenario.block_of_3); reflexivity.
Defined.

End Edge_facts.

(** ** The extrema of the CPU reduction are those of the data *)

Module Extremes_facts.
Import CPU Lines Local_reduction IEEE_facts.

Section Extremes.
Variable atof : string -> double.
Variable month_of : string -> Z.

Lemma extremes_step (m M t : double) (seen : list double) :
  is_nan m = false -> is_nan M = false ->
  (forall u, u ∈ seen -> is_nan u = false -> fle m u = true /\ fle u M = true) ->
  (m = DBL_MAX \/ m ∈ seen) -> (M = fneg DBL_MAX \/ M ∈ seen) ->
  let m' := if flt t m then t else m in
  let M' := if flt M t then t else M in
  is_nan m' = false /\ is_nan M' = false /\
  (forall u, u ∈ seen ++ [t] -> is_nan u = false ->
             fle m' u = true /\ fle u M' = true) /\
  (m' = DBL_MAX \/ m' ∈ seen ++ [t]) /\ (M' = fneg DBL_MAX \/ M' ∈ seen ++ [t]).
Proof.
  intros Hm HM Hb Hmin Hmax m' M'.
  assert (Hin : t ∈ seen ++ [t]) by (apply elem_of_app; right; left).
  split_and!.
  - unfold m'. destruct (flt t m) eqn:E; [now apply flt_not_nan in E|exact Hm].
  - unfold M'. destruct (flt M t) eqn:E; [now apply flt_not_nan in E|exact HM].
  - intros u Hu Hn. apply elem_of_app in Hu as [Hu|Hu].
    + destruct (Hb u Hu Hn) as [H1 H2]. split.
      * unfold m'. destruct (flt t m) eqn:E; [|exact H1].
        apply (fle_trans _ m); [now apply flt_fle|exact H1].
      * unfold M'. destruct (flt M t) eqn:E; [|exact H2].
        apply (fle_trans _ M); [exact H2|now apply flt_fle].
    + apply list_elem_of_singleton in Hu. subst u. split.
      * unfold m'. destruct (flt t m) eqn:E; [now apply fle_refl|now apply not_flt_fle].
      * unfold M'. destruct (flt M t) eqn:E; [now apply fle_refl|now apply not_flt_fle].
  - unfold m'. destruct (flt t m); [now right|].
    destruct Hmin as [H|H]; [now left|right]. apply elem_of_app. now left.
  - unfold M'. destruct (flt M t); [now right|].
    destruct Hmax as [H|H]; [now left|right]. apply elem_of_app. now left.
Qed.

Lemma reduce_lines_extremes (lines : list string) : forall city seen,
  is_nan (temp_min city) = false -> is_nan (temp_max city) = false ->
  (forall u, u ∈ seen -> is_nan u = false ->
             fle (temp_min city) u = true /\ fle u (temp_max city) = true) ->
  (temp_min city = DBL_MAX \/ temp_min city ∈ seen) ->
  (temp_max city = fneg DBL_MAX \/ temp_max city ∈ seen) ->
  let after := reduce_lines atof month_of city lines in
  let temps := seen ++ ((fun line => atof (temp_field line))
                          <$> List.filter has_temp lines) in
  (forall u, u ∈ temps -> is_nan u = false ->
             fle (temp_min after) u = true /\ fle u (temp_max after) = true) /\
  (temp_min after = DBL_MAX \/ temp_min after ∈ temps) /\
  (temp_max after = fneg DBL_MAX \/ temp_max after ∈ temps).
Proof.
  induction lines as [|line lines IH]; intros city seen Hm HM Hb Hmin Hmax; cbv zeta.
  - cbn. rewrite app_nil_r. auto.
  - unfold reduce_lines. cbn [fold_left List.filter].
    fold (reduce_lines atof month_of (process_line atof month_of city line) lines).
    destruct (has_temp line) eqn:Ht.
    + destruct (process_line_with_temp atof month_of city line Ht)
        as (_ & _ & H3 & H4 & _).
      destruct (extremes_step (temp_min city) (temp_max city)
                  (atof (temp_field line)) seen Hm HM Hb Hmin Hmax)
        as (S1 & S2 & S3 & S4 & S5).
      rewrite <- H3 in S1, S3, S4. rewrite <- H4 in S2, S3, S5.
      specialize (IH _ _ S1 S2 S3 S4 S5). cbv zeta in IH.
      cbn [fmap list_fmap]. rewrite <- app_assoc in IH. exact IH.
    + destruct (process_line_without_temp atof month_of city line Ht)
        as (_ & _ & H3 & H4 & _).
      apply IH; rewrite ?H3, ?H4; assumption.
Qed.
End Extremes.

(** X19.  The minimum and the maximum that [process_city_file] of the
    CPU programs reports are those of the data.  For a file that opens
    and has a header: [temp_min] is at most, and [temp_max] at least,
    every temperature of the file that is a number (a NaN is skipped by
    the comparisons); and each of the two is either its initial value
    ([DBL_MAX], [-DBL_MAX]) or one of the temperatures read. *)
Theorem extrema_are_those_of_the_data (atof : string -> double)
    (month_of : string -> Z) (slot : CityStats) (header : string)
    (records : list string) :
  let city := process_city_file atof month_of (Some (header :: records)) slot in
  let temps := (fun line => atof (temp_field line)) <$> List.filter has_temp records in
  (forall t, t ∈ temps -> is_nan t = false ->
             fle (temp_min city) t = true /\ fle t (temp_max city) = true) /\
  (temp_min city = DBL_MAX \/ temp_min city ∈ temps) /\
  (temp_max city = fneg DBL_MAX \/ temp_max city ∈ temps).
Proof.
  intros city temps.
  apply (reduce_lines_extremes atof month_of records (reset slot) []); auto.
  intros u Hu. inversion Hu.
Qed.
End Extremes_facts.

(** ** The serial program against the OpenMP program *)

Module Serial_facts.
Import Directory Scan_facts Schedule_facts Programs_facts Reduce_facts.

Section All.
Variable process : file -> string -> list CityStats -> list CityStats.
Variable fopen : string -> file.
Variable data_dir : string.
Variable max_cities : Z.
Variable result : string -> CityStats.

Lemma scan_loop_all entries : forall cities,
  Forall (fun d => forall cs,
            process (fopen (filepath data_dir d)) (city_name_of d) cs
            = cs ++ [result d])
    (take (Z.to_nat max_cities - length cities) (List.filter is_csv entries)) ->
  scan_loop process fopen data_dir max_cities entries cities
  = cities ++ (result <$> take (Z.to_nat max_cities - length cities)
                            (List.filter is_csv entries)).
Proof.
  induction entries as [|d entries IH]; intros cities Hall.
  - cbn. now rewrite take_nil, app_nil_r.
  - cbn [scan_loop List.filter] in *.
    destruct (Z.ltb_spec (Z.of_nat (length cities)) max_cities) as [Hlt|Hge].
    + destruct (is_csv d).
      * replace (Z.to_nat max_cities - length cities)%nat
          with (S (Z.to_nat max_cities - (length cities + 1)))%nat in * by lia.
        cbn [take fmap list_fmap] in *. inversion Hall as [|? ? Hd Hrest]; subst.
        rewrite Hd, IH; rewrite length_app; cbn [length]; [|exact Hrest].
        now rewrite <- app_assoc.
      * now apply IH.
    + replace (Z.to_nat max_cities - length cities)%nat with 0%nat by lia.
      now rewrite take_0, app_nil_r.
Qed.
End All.

(** X20.  With a limit [max_cities] of at most [MAX_CITIES] and
    [MAX_FILES], the sizes of the arrays [cities], [file_paths] and
    [city_names], and when each of the listed files (the first
    [max_cities] entries ending in [.csv]) opens and has at least its
    header line, the serial program ends with the array that the OpenMP
    program computes: the same cities in the same order, for every
    schedule of the OpenMP loop and whatever the allocated slots held.
    The array has one city for each listed file, which [cities] holds. *)
Theorem serial_matches_openmp (atof : string -> double) (fopen : string -> file)
    (data_dir : string) (max_cities : Z) (entries : list string)
    (schedule : list nat) (local_cities : nat -> CityStats) :
  let listed := take (Z.to_nat max_cities) (List.filter is_csv entries) in
  max_cities <= MAX_CITIES ->
  max_cities <= MAX_FILES ->
  Forall (fun d => exists header records,
            fopen (filepath data_dir d) = Some (header :: records)) listed ->
  schedule ≡ₚ seq 0 (length listed) ->
  serial_main atof fopen data_dir max_cities entries
  = omp_main atof fopen data_dir max_cities entries schedule local_cities /\
  length (serial_main atof fopen data_dir max_cities entries) = length listed /\
  Z.of_nat (length listed) <= MAX_CITIES.
Proof.
  intros listed Hcities Hfiles Hopen Hsched.
  set (result := fun d => CPU.process_city_file atof Parse.get_month
                            (fopen (filepath data_dir d)) (Serial.blank (city_name_of d))).
  assert (Hserial : serial_main atof fopen data_dir max_cities entries = result <$> listed).
  { unfold serial_main.
    rewrite (scan_loop_all _ fopen data_dir max_cities result).
    2:{ cbn [length]. rewrite Nat.sub_0_r. fold listed.
        eapply Forall_impl; [exact Hopen|]. intros d (h & rs & Hd) cs.
        unfold result, Serial.process_city_file. now rewrite Hd, copied_name_of. }
    cbn [length app]. rewrite Nat.sub_0_r. reflexivity. }
  split_and!.
  - rewrite Hserial.
    unfold omp_main, collect_files. rewrite collect_loop_spec. cbv zeta.
    cbn [length app]. rewrite Nat.sub_0_r. fold listed.
    rewrite length_fmap.
    assert (Hopen' : Forall (fun p => is_Some (fopen p)) (filepath data_dir <$> listed)).
    { apply Forall_fmap. eapply Forall_impl; [exact Hopen|].
      intros d (h & rs & Hd). cbn. rewrite Hd. eauto. }
    pose proof (omp_open atof fopen (filepath data_dir <$> listed)
                  (city_name_of <$> listed) ltac:(now rewrite !length_fmap) Hopen'
                  (Serial.blank EmptyString) schedule local_cities) as Homp.
    rewrite length_fmap in Homp. rewrite Homp by assumption.
    apply list_eq. intros i. rewrite !list_lookup_fmap.
    destruct (decide (i < length listed)%nat) as [Hi|Hi].
    + rewrite lookup_seqZ_lt by lia. cbn. rewrite Z.add_0_l, Nat2Z.id.
      destruct (lookup_lt_is_Some_2 listed i Hi) as [d Hd]. rewrite Hd. cbn. f_equal.
      unfold slot_after, result. rewrite !list_lookup_fmap, Hd. cbn.
      rewrite Forall_forall in Hopen.
      destruct (Hopen d (list_elem_of_lookup_2 _ _ _ Hd)) as (h & rs & ->).
      reflexivity.
    + rewrite lookup_seqZ_ge, lookup_ge_None_2 by lia. reflexivity.
  - rewrite Hserial. apply length_fmap.
  - unfold listed, MAX_CITIES in *. rewrite length_take. lia.
Qed.

Lemma serial_matches_openmp_witness :
  let fopen := fun _ : string => Some (Lines.header :: Lines.scenario_B) in
  let entries := ["a.csv"%string; "notes.txt"%string; "b.csv"%string; "c.csv"%string] in
  serial_main CLib.atof fopen "data" 2 entries
  = omp_main CLib.atof fopen "data" 2 entries [1; 0]%nat (fun _ => Lines.stale_slot).
Proof.
  intros fopen entries.
  apply (serial_matches_openmp CLib.atof fopen "data" 2 entries [1; 0]%nat
           (fun _ => Lines.stale_slot)).
  - unfold MAX_CITIES. lia.
  - unfold MAX_FILES. lia.
  - repeat constructor; eexists; eexists; reflexivity.
  - apply perm_swap.
Defined.
End Serial_facts.

(** ** The extrema of the CUDA program are those of the data *)

Module Kernel_extremes.
Import CUDA Visit Host Lines IEEE_facts Exact_facts Kernel_facts Conversion_facts
  Warp_facts Launch_facts.

Lemma fminf_not_nan m t : is_nan m = false -> is_nan (fminf m t) = false.
Proof.
  intros Hm. destruct (fminf_choice m t) as [->|E]; [exact Hm|].
  destruct (is_nan t) eqn:Ht; [|now rewrite E].
  destruct t; try discriminate. now rewrite fminf_nan_r.
Qed.

Lemma fmaxf_not_nan m t : is_nan m = false -> is_nan (fmaxf m t) = false.
Proof.
  intros Hm. destruct (fmaxf_choice m t) as [->|E]; [exact Hm|].
  destruct (is_nan t) eqn:Ht; [|now rewrite E].
  destruct t; try discriminate. now rewrite fmaxf_nan_r.
Qed.

Lemma fminf_infinity m : is_nan m = false -> fminf (S754_infinity false) m = m.
Proof. destruct m as [[]|[]| |[] ? ?]; try discriminate; reflexivity. Qed.

Lemma fmaxf_infinity m : is_nan m = false -> fmaxf (S754_infinity true) m = m.
Proof. destruct m as [[]|[]| |[] ? ?]; try discriminate; reflexivity. Qed.

(** The exact minimum and maximum after the records [rs]. *)
Lemma of_records_extremes (rs : list WeatherRecord) : forall e seen,
  is_nan (Exact.min e) = false -> is_nan (Exact.max e) = false ->
  (forall r, r ∈ seen -> valid_temp r = true ->
             min_le (Exact.min e) (avg_temp r) = true /\
             max_le (avg_temp r) (Exact.max e) = true) ->
  (Exact.min e = FLT_MAX \/
   exists r, r ∈ seen /\ valid_temp r = true /\ Exact.min e = avg_temp r) ->
  (Exact.max e = fneg FLT_MAX \/
   exists r, r ∈ seen /\ valid_temp r = true /\ Exact.max e = avg_temp r) ->
  let e' := fold_left (fun e r => Exact.join e (Exact.of_record r)) rs e in
  is_nan (Exact.min e') = false /\ is_nan (Exact.max e') = false /\
  (forall r, r ∈ seen ++ rs -> valid_temp r = true ->
             min_le (Exact.min e') (avg_temp r) = true /\
             max_le (avg_temp r) (Exact.max e') = true) /\
  (Exact.min e' = FLT_MAX \/
   exists r, r ∈ seen ++ rs /\ valid_temp r = true /\ Exact.min e' = avg_temp r) /\
  (Exact.max e' = fneg FLT_MAX \/
   exists r, r ∈ seen ++ rs /\ valid_temp r = true /\ Exact.max e' = avg_temp r).
Proof.
  induction rs as [|r rs IH]; intros e seen Hm HM Hb Hmin Hmax; cbv zeta.
  - cbn [fold_left]. rewrite app_nil_r. auto.
  - cbn [fold_left].
    replace (seen ++ r :: rs) with ((seen ++ [r]) ++ rs) by now rewrite <- app_assoc.
    apply IH.
    + unfold Exact.join. cbn [Exact.min]. now apply fminf_not_nan.
    + unfold Exact.join. cbn [Exact.max]. now apply fmaxf_not_nan.
    + intros u Hu Hv. unfold Exact.join, Exact.of_record. cbn [Exact.min Exact.max].
      apply elem_of_app in Hu as [Hu|Hu].
      * destruct (Hb u Hu Hv) as [H1 H2]. split.
        -- apply (min_le_trans _ (Exact.min e)); [apply min_le_fminf_l|exact H1].
        -- apply (max_le_trans _ (Exact.max e)); [exact H2|apply max_le_fmaxf_l].
      * apply list_elem_of_singleton in Hu. subst u. rewrite Hv. split.
        -- apply fminf_le_r.
        -- apply fmaxf_le_r.
    + unfold Exact.join, Exact.of_record. cbn [Exact.min].
      destruct (valid_temp r) eqn:Hv.
      * destruct (fminf_choice (Exact.min e) (avg_temp r)) as [->| ->].
        -- destruct Hmin as [H|(u & Hu & Hvu & H)]; [now left|right].
           exists u. split; [apply elem_of_app; now left|auto].
        -- right. exists r. split; [apply elem_of_app; right; left|auto].
      * rewrite fminf_nan_r.
        destruct Hmin as [H|(u & Hu & Hvu & H)]; [now left|right].
        exists u. split; [apply elem_of_app; now left|auto].
    + unfold Exact.join, Exact.of_record. cbn [Exact.max].
      destruct (valid_temp r) eqn:Hv.
      * destruct (fmaxf_choice (Exact.max e) (avg_temp r)) as [->| ->].
        -- destruct Hmax as [H|(u & Hu & Hvu & H)]; [now left|right].
           exists u. split; [apply elem_of_app; now left|auto].
        -- right. exists r. split; [apply elem_of_app; right; left|auto].
      * rewrite fmaxf_nan_r.
        destruct Hmax as [H|(u & Hu & Hvu & H)]; [now left|right].
        exists u. split; [apply elem_of_app; now left|auto].
Qed.

(** X21.  The minimum and the maximum that the CUDA program reports are
    those of the [float] data.  For a file of 1 to 50000 data lines
    whose temperatures convert to [float] values, for every order in
    which the blocks finish one after the other: the reported
    [temp_min] and [temp_max] are the [double] values of two [float]s
    [m] and [M]; [m] is below, and [M] above, the temperature of every
    parsed record that has one, in the orders of [fminf] and [fmaxf]
    (a NaN temperature counts as missing); [m] is [FLT_MAX] or one of
    these temperatures, [M] is [-FLT_MAX] or one of them. *)
Theorem cuda_extrema_are_those_of_the_data (atof : string -> double)
    (allocated : nat -> WeatherRecord) (finish_order : Z -> list Z)
    (header : string) (lines : list string) (city_name : string)
    (cities : list CityStats) :
  (1 <= length lines)%nat ->
  Z.of_nat (length lines) <= MAX_RECORDS_PER_FILE ->
  finish_order (num_blocks (Z.of_nat (length lines)))
  ≡ₚ seqZ 0 (num_blocks (Z.of_nat (length lines))) ->
  Forall Exact.float_temp (parsed atof allocated 0 lines) ->
  exists c m M,
    process_city_file_cuda atof allocated finish_order
      (Some (header :: lines)) city_name cities = cities ++ [c] /\
    temp_min c = to_double m /\ temp_max c = to_double M /\
    to_float (temp_min c) = m /\ to_float (temp_max c) = M /\
    (forall r, r ∈ parsed atof allocated 0 lines -> valid_temp r = true ->
               min_le m (avg_temp r) = true /\ max_le (avg_temp r) M = true) /\
    (m = FLT_MAX \/
     exists r, r ∈ parsed atof allocated 0 lines /\ valid_temp r = true /\
               m = avg_temp r) /\
    (M = fneg FLT_MAX \/
     exists r, r ∈ parsed atof allocated 0 lines /\ valid_temp r = true /\
               M = avg_temp r).
Proof.
  intros Hne Hmax Horder Hf.
  destruct (cuda_city_exact atof allocated finish_order header lines city_name cities
              Hne Hmax Horder Hf) as (out & Hc & He).
  set (recs := parsed atof allocated 0 lines) in *.
  destruct (holds_fold init_slot [] recs Hf holds_init) as [(_ & Wmin & Wmax) Hfold].
  cbn [app] in Hfold.
  destruct (of_records_extremes recs (Exact.of_slot init_slot) []
              eq_refl eq_refl) as (Nm & NM & Hb & Hmin & HMax).
  { intros r Hr. inversion Hr. }
  { now left. }
  { now left. }
  cbn [app] in Hb, Hmin, HMax. fold (Exact.of_records recs) in Nm, NM, Hb, Hmin, HMax.
  rewrite <- Hfold in Nm, NM, Hb, Hmin, HMax. cbn [Exact.of_slot Exact.min Exact.max] in *.
  set (p := fold_left accumulate recs init_slot) in *.
  assert (Cmin : temp_min_out out = to_double (sh_temp_min p)).
  { change (temp_min_out out) with (Exact.min (Exact.of_outputs out)).
    rewrite He, <- Hfold. cbn [Exact.publish Exact.min Exact.of_slot].
    rewrite to_float_DBL_MAX, fminf_infinity by assumption. reflexivity. }
  assert (Cmax : temp_max_out out = to_double (sh_temp_max p)).
  { change (temp_max_out out) with (Exact.max (Exact.of_outputs out)).
    rewrite He, <- Hfold. cbn [Exact.publish Exact.max Exact.of_slot].
    rewrite to_float_neg_DBL_MAX, fmaxf_infinity by assumption. reflexivity. }
  exists (city_of city_name out (Z.of_nat (length lines))), (sh_temp_min p), (sh_temp_max p).
  cbn [temp_min temp_max city_of]. rewrite Cmin, Cmax.
  split_and!; auto using to_float_to_double.
Qed.

Lemma cuda_extrema_are_those_of_the_data_witness :
  exists c m,
    process_city_file_cuda CLib.atof (fun _ => Scenario.temperature 0) (seqZ 0)
      (Some (header :: scenario_B)) "Riyadh" [] = [c] /\
    temp_min c = to_double m.
Proof.
  destruct (cuda_extrema_are_those_of_the_data CLib.atof
              (fun _ => Scenario.temperature 0) (seqZ 0) header scenario_B "Riyadh" [])
    as (c & m & M & H1 & H2 & _).
  - simpl. lia.
  - unfold MAX_RECORDS_PER_FILE. simpl. lia.
  - reflexivity.
  - repeat constructor; intros _; vm_compute; reflexivity.
  - exists c, m. auto.
Defined.
End Kernel_extremes.

(** ** Widening a [float] to [double] keeps the order *)

Module Widening_facts.
Import IEEE_facts Conversion_facts Single.













End Widening_facts.

(** ** The record-level reduction against the fold of the serial program
    (claim C3) *)

Module Record_level.
Import CUDA Visit Host Lines IEEE_facts Exact_facts Kernel_facts Conversion_facts
  Local_reduction Reduce_facts Launch_facts Extremes_facts Kernel_extremes
  Widening_facts Single Produced.

Section Fold.
Variable atof : string -> double.
Variable allocated : nat -> WeatherRecord.







End Fold.



End Record_level.
